(** * go-yobit: the nonce store and the request signer

    A shallow embedding of the nonce counter ([GetAndIncrementNonce],
    [readNonce], [incrementNonce], [WriteNonce],
    [CreateNonceFileIfNotExists]), of the signer ([signHmacSha512]), of the
    authenticated call ([callPrivate]) and of the response decoder
    ([unmarshal]) of the package [yobit], together with the parts of the Go
    standard library they call. *)

From Stdlib Require Import ZArith Lia Bool List Ascii String.
From Stdlib Require Import Strings.Byte.
From stdpp Require Import base option list gmap strings sorting.

Local Open Scope string_scope.
Local Open Scope list_scope.
Local Open Scope Z_scope.

#[local] Abbreviation length := List.length.

(** ** Go values

    A Go [string] is a Rocq [string] (a sequence of 8-bit characters), a Go
    [[]byte] is a [list byte]; the conversions [[]byte(s)] and [string(b)]
    are [list_byte_of_string] and [string_of_list_byte].  A [uint64] is a
    [Z] kept below [2^64], arithmetic on it wraps. *)

Definition uint64_modulus : Z := 2 ^ 64.
Definition maxUint64 : Z := uint64_modulus - 1.
Definition wrap64 (z : Z) : Z := z mod uint64_modulus.
Definition is_uint64 (z : Z) : Prop := 0 <= z < uint64_modulus.

Definition code (c : ascii) : Z := Z.of_N (N_of_ascii c).
Definition char_of (z : Z) : ascii := ascii_of_N (Z.to_N z).

(** ** Errors *)

Inductive numErr := ErrSyntax | ErrRange.

Inductive error :=
| PathError (op path : string)            (* *os.PathError of a failed file operation *)
| NumError (func num : string) (e : numErr) (* *strconv.NumError *)
| SyntaxError (msg : string)              (* *json.SyntaxError *)
| UnmarshalTypeError (val type : string)  (* *json.UnmarshalTypeError *)
| ErrorString (msg : string).             (* errors.New, fmt.Errorf *)

(** ** strconv *)

(** [strconv.ParseUint(s, 10, 64)]: the loop of the library, at base 10 and
    bit size 64.  A byte that is not a decimal digit is a syntax error (a
    letter is read as a digit of value at least 10, which the base
    refuses); [cutoff] is the least [n] with [n * 10 > maxUint64]. *)
Definition cutoff : Z := maxUint64 / 10 + 1.

Fixpoint parseUint_loop (s : string) (n : Z) : Z + numErr :=
  match s with
  | EmptyString => inl n
  | String c s' =>
      if (code "0"%char <=? code c) && (code c <=? code "9"%char) then
        let d := code c - code "0"%char in
        if cutoff <=? n then inr ErrRange
        else
          let n := wrap64 (n * 10) in
          let n1 := wrap64 (n + d) in
          if (n1 <? n) || (maxUint64 <? n1) then inr ErrRange
          else parseUint_loop s' n1
      else inr ErrSyntax
  end.

Definition strconv_ParseUint (s : string) : Z + error :=
  match s with
  | EmptyString => inr (NumError "ParseUint" s ErrSyntax)
  | _ => match parseUint_loop s 0 with
         | inl n => inl n
         | inr e => inr (NumError "ParseUint" s e)
         end
  end.

(** [strconv.FormatUint(u, 10)]: the decimal digits of [u], most
    significant first, ["0"] for zero.  Twenty digits hold every uint64. *)
Fixpoint formatBits (fuel : nat) (u : Z) (acc : string) : string :=
  match fuel with
  | O => acc
  | S fuel' =>
      let acc' := String (char_of (code "0"%char + u mod 10)) acc in
      if u / 10 =? 0 then acc' else formatBits fuel' (u / 10) acc'
  end.

Definition strconv_FormatUint (u : Z) : string := formatBits 20 u "".

(** ** The state the package acts on

    The disk holds files by path.  What the operating system lets the
    process do is part of the environment: whether [os.Stat] can look a
    path up ([may_stat]; when it cannot, it fails with an error other
    than that of a file that is not there), whether a file can be
    created, read and opened for writing ([may_write]), and how many
    bytes a file may hold ([file_limit]: a limit set for the process, a
    quota, a disk with no room left; [None] when nothing limits it).
    The environment stays the same while the package runs: only the
    files change.

    [mutex] is [y.mutex] of the [Yobit] value whose method runs.  Every
    [Yobit] value has a mutex of its own, while the files are those of
    the process; several [Yobit] values at once are in [process] below.
    [wire] holds the requests handed to the HTTP client so far, oldest
    first, as the package built them: what the client adds on the way
    out, such as the cookies of its jar, is not part of them. *)

Record Request := {
  Method : string;
  URL : string;
  Header : gmap string (list string);
  Body : string;
}.

(** [server] is what the client gives back for the last request of a
    history: a status code and a body, or nothing when the exchange
    fails. *)
Record State := {
  files : gmap string (list byte);
  may_stat : bool;
  may_create : bool;
  may_read : bool;
  may_write : bool;
  file_limit : option nat;
  mutex : bool;
  wire : list Request;
  server : list Request -> option (Z * list byte);
}.

Definition set_files (f : gmap string (list byte)) (s : State) : State :=
  {| files := f; may_stat := may_stat s; may_create := may_create s;
     may_read := may_read s; may_write := may_write s; file_limit := file_limit s;
     mutex := mutex s; wire := wire s; server := server s |}.

Definition set_mutex (b : bool) (s : State) : State :=
  {| files := files s; may_stat := may_stat s; may_create := may_create s;
     may_read := may_read s; may_write := may_write s; file_limit := file_limit s;
     mutex := b; wire := wire s; server := server s |}.

Definition set_wire (w : list Request) (s : State) : State :=
  {| files := files s; may_stat := may_stat s; may_create := may_create s;
     may_read := may_read s; may_write := may_write s; file_limit := file_limit s;
     mutex := mutex s; wire := w; server := server s |}.

(** A call returns, panics (the panic unwinds the stack: nothing in the
    package recovers), ends the process through [fatal], or waits for ever
    on a mutex that is never released. *)
Inductive outcome (A : Type) :=
| Ret (a : A) (s : State)
| Panic (e : error) (s : State)
| Exit (e : error) (s : State)
| Blocked (s : State).
Arguments Ret {A} a s.
Arguments Panic {A} e s.
Arguments Exit {A} e s.
Arguments Blocked {A} s.

Definition M (A : Type) : Type := State -> outcome A.

#[export] Instance M_ret : MRet M := fun A a s => Ret a s.
#[export] Instance M_bind : MBind M := fun A B k m s =>
  match m s with
  | Ret a s' => k a s'
  | Panic e s' => Panic e s'
  | Exit e s' => Exit e s'
  | Blocked s' => Blocked s'
  end.
Definition panic {A} (e : error) : M A := fun s => Panic e s.

(** [defer d; body]: [d] runs when [body] returns and when it panics. *)
Definition defer {A} (d : State -> State) (body : M A) : M A :=
  fun s => match body s with
           | Ret a s' => Ret a (d s')
           | Panic e s' => Panic e (d s')
           | Exit e s' => Exit e s'
           | Blocked s' => Blocked s'
           end.

(** ** os, io/ioutil *)

(** The error of [os.Stat]: the file is not there, or the path could not
    be looked up (no permission to search a directory, a component that
    is no directory, and the like). *)
Inductive statErr := StatNotExist | StatOther.

(** [os.Stat(path)]: of the result only the error is used. *)
Definition os_Stat (path : string) : M (option statErr) :=
  fun s => if may_stat s then
             match files s !! path with
             | Some _ => Ret None s
             | None => Ret (Some StatNotExist) s
             end
           else Ret (Some StatOther) s.

Definition os_IsNotExist (e : option statErr) : bool :=
  match e with
  | Some StatNotExist => true
  | Some StatOther | None => false
  end.

(** [os.Create(path)]: creates the file, or truncates it. *)
Definition os_Create (path : string) : M (option error) :=
  fun s => if may_create s
           then Ret None (set_files (<[path := []]> (files s)) s)
           else Ret (Some (PathError "open" path)) s.

(** [ioutil.ReadFile(path)]. *)
Definition ioutil_ReadFile (path : string) : M (list byte + error) :=
  fun s => match files s !! path with
           | Some data => if may_read s then Ret (inl data) s
                          else Ret (inr (PathError "open" path)) s
           | None => Ret (inr (PathError "open" path)) s
           end.

(** [ioutil.WriteFile(path, data, 0644)]: opens the file for writing,
    creating it when it is not there and emptying it when it is, writes
    the data and closes the file.  The open fails, and leaves the file as
    it was, when the file may not be written, or is not there and cannot
    be created.  A write that the file has no room for fails after the
    open: the file is left with the bytes that went in before the
    error. *)
Definition openable (path : string) (s : State) : bool :=
  bool_decide (is_Some (files s !! path)) || may_create s.

Definition writable (path : string) (s : State) : bool :=
  may_write s && openable path s.

Definition fits (data : list byte) (s : State) : bool :=
  match file_limit s with
  | Some n => (length data <=? n)%nat
  | None => true
  end.

Definition cut_short (data : list byte) (s : State) : list byte :=
  match file_limit s with
  | Some n => take n data
  | None => data
  end.

Definition ioutil_WriteFile (path : string) (data : list byte) : M (option error) :=
  fun s =>
    if writable path s then
      if fits data s then Ret None (set_files (<[path := data]> (files s)) s)
      else Ret (Some (PathError "write" path))
               (set_files (<[path := cut_short data s]> (files s)) s)
    else Ret (Some (PathError "open" path)) s.

(** ** sync.Mutex *)

Definition Lock : M unit :=
  fun s => if mutex s then Blocked s else Ret tt (set_mutex true s).
Definition Unlock (s : State) : State := set_mutex false s.

(** ** The nonce store *)

Definition nonceFile : string := "data/nonce".

Definition WriteNonce (data : list byte) : M unit :=
  err ← ioutil_WriteFile nonceFile data;
  match err with
  | Some e => panic e
  | None => mret tt
  end.

Definition CreateNonceFileIfNotExists : M unit :=
  err ← os_Stat nonceFile;
  if os_IsNotExist err then
    err ← os_Create nonceFile;
    match err with
    | Some e => panic e
    | None => WriteNonce (list_byte_of_string "1")
    end
  else mret tt.

Definition readNonce : M Z :=
  CreateNonceFileIfNotExists;;
  r ← ioutil_ReadFile nonceFile;
  match r with
  | inr _ => panic (ErrorString "nonce file read error")
  | inl data =>
      match strconv_ParseUint (string_of_list_byte data) with
      | inr conErr => panic conErr
      | inl nonce => mret nonce
      end
  end.

(** [incrementNonce(nonceOld *uint64)]: the cell [*nonceOld] is threaded
    through, the result is its contents when the function returns. *)
Definition incrementNonce (nonceOld : Z) : M Z :=
  let nonceOld := wrap64 (nonceOld + 1) in
  let ns := strconv_FormatUint nonceOld in
  WriteNonce (list_byte_of_string ns);;
  mret nonceOld.

Definition GetAndIncrementNonce : M Z :=
  Lock;;
  defer Unlock (
    nonce ← readNonce;
    nonce ← incrementNonce nonce;
    mret nonce).

(** ** crypto/sha512

    The generic block function of the library: eighty rounds over a
    schedule of eighty 64-bit words per 128-byte chunk. *)

Definition Z_of_byte (b : byte) : Z := Z.of_N (Byte.to_N b).
Definition byte_of_Z (z : Z) : byte :=
  match Byte.of_N (Z.to_N (z mod 256)) with
  | Some b => b
  | None => x00
  end.

Definition chunk : nat := 128.
Definition BlockSize : nat := 128.
Definition Size : nat := 64.

Definition _K : list Z :=
  [ 0x428a2f98d728ae22; 0x7137449123ef65cd; 0xb5c0fbcfec4d3b2f; 0xe9b5dba58189dbbc;
    0x3956c25bf348b538; 0x59f111f1b605d019; 0x923f82a4af194f9b; 0xab1c5ed5da6d8118;
    0xd807aa98a3030242; 0x12835b0145706fbe; 0x243185be4ee4b28c; 0x550c7dc3d5ffb4e2;
    0x72be5d74f27b896f; 0x80deb1fe3b1696b1; 0x9bdc06a725c71235; 0xc19bf174cf692694;
    0xe49b69c19ef14ad2; 0xefbe4786384f25e3; 0x0fc19dc68b8cd5b5; 0x240ca1cc77ac9c65;
    0x2de92c6f592b0275; 0x4a7484aa6ea6e483; 0x5cb0a9dcbd41fbd4; 0x76f988da831153b5;
    0x983e5152ee66dfab; 0xa831c66d2db43210; 0xb00327c898fb213f; 0xbf597fc7beef0ee4;
    0xc6e00bf33da88fc2; 0xd5a79147930aa725; 0x06ca6351e003826f; 0x142929670a0e6e70;
    0x27b70a8546d22ffc; 0x2e1b21385c26c926; 0x4d2c6dfc5ac42aed; 0x53380d139d95b3df;
    0x650a73548baf63de; 0x766a0abb3c77b2a8; 0x81c2c92e47edaee6; 0x92722c851482353b;
    0xa2bfe8a14cf10364; 0xa81a664bbc423001; 0xc24b8b70d0f89791; 0xc76c51a30654be30;
    0xd192e819d6ef5218; 0xd69906245565a910; 0xf40e35855771202a; 0x106aa07032bbd1b8;
    0x19a4c116b8d2d0c8; 0x1e376c085141ab53; 0x2748774cdf8eeb99; 0x34b0bcb5e19b48a8;
    0x391c0cb3c5c95a63; 0x4ed8aa4ae3418acb; 0x5b9cca4f7763e373; 0x682e6ff3d6b2b8a3;
    0x748f82ee5defb2fc; 0x78a5636f43172f60; 0x84c87814a1f0ab72; 0x8cc702081a6439ec;
    0x90befffa23631e28; 0xa4506cebde82bde9; 0xbef9a3f7b2c67915; 0xc67178f2e372532b;
    0xca273eceea26619c; 0xd186b8c721c0c207; 0xeada7dd6cde0eb1e; 0xf57d4f7fee6ed178;
    0x06f067aa72176fba; 0x0a637dc5a2c898a6; 0x113f9804bef90dae; 0x1b710b35131c471b;
    0x28db77f523047d84; 0x32caab7b40c72493; 0x3c9ebe0a15c9bebc; 0x431d67c49c100d4c;
    0x4cc5d4becb3e42b6; 0x597f299cfc657e2a; 0x5fcb6fab3ad6faec; 0x6c44198c4a475817 ].

(** The eight chaining words [h[0..7]] of a digest. *)
Record words8 := W8 { h0 : Z; h1 : Z; h2 : Z; h3 : Z; h4 : Z; h5 : Z; h6 : Z; h7 : Z }.

Definition init512 : words8 :=
  W8 0x6a09e667f3bcc908 0xbb67ae8584caa73b 0x3c6ef372fe94f82b 0xa54ff53a5f1d36f1
     0x510e527fade682d1 0x9b05688c2b3e6c1f 0x1f83d9abfb41bd6b 0x5be0cd19137e2179.

Definition add64 (x y : Z) : Z := wrap64 (x + y).
Definition RotateLeft64 (x : Z) (k : Z) : Z :=
  Z.lor (wrap64 (Z.shiftl x k)) (Z.shiftr x (64 - k)).
Definition rotr (x : Z) (k : Z) : Z := RotateLeft64 x (64 - k).

(** A big-endian 64-bit word from eight bytes. *)
Definition be_uint64 (bs : list byte) : Z :=
  fold_left (fun acc b => Z.lor (Z.shiftl acc 8) (Z_of_byte b)) (firstn 8 bs) 0.

Fixpoint load_words (n : nat) (p : list byte) : list Z :=
  match n with
  | O => []
  | S n' => be_uint64 p :: load_words n' (skipn 8 p)
  end.

(** [w] holds the schedule so far, newest word first: [w[i-2]] is at
    position 1, [w[i-7]] at 6, [w[i-15]] at 14, [w[i-16]] at 15. *)
Fixpoint extend_schedule (n : nat) (w : list Z) : list Z :=
  match n with
  | O => w
  | S n' =>
      let v1 := nth 1 w 0 in
      let t1 := Z.lxor (Z.lxor (rotr v1 19) (rotr v1 61)) (Z.shiftr v1 6) in
      let v2 := nth 14 w 0 in
      let t2 := Z.lxor (Z.lxor (rotr v2 1) (rotr v2 8)) (Z.shiftr v2 7) in
      let wi := add64 (add64 (add64 t1 (nth 6 w 0)) t2) (nth 15 w 0) in
      extend_schedule n' (wi :: w)
  end.

Definition schedule (p : list byte) : list Z :=
  rev (extend_schedule 64 (rev (load_words 16 p))).

Definition round (s : words8) (kw : Z * Z) : words8 :=
  let '(W8 a b c d e f g h) := s in
  let t1 := add64 (add64 (add64 (add64 h
              (Z.lxor (Z.lxor (rotr e 14) (rotr e 18)) (rotr e 41)))
              (Z.lxor (Z.land e f) (Z.land (wrap64 (Z.lnot e)) g)))
              (fst kw)) (snd kw) in
  let t2 := add64 (Z.lxor (Z.lxor (rotr a 28) (rotr a 34)) (rotr a 39))
              (Z.lxor (Z.lxor (Z.land a b) (Z.land a c)) (Z.land b c)) in
  W8 (add64 t1 t2) a b c (add64 d t1) e f g.

Definition block1 (s : words8) (p : list byte) : words8 :=
  let '(W8 a b c d e f g h) := fold_left round (combine _K (schedule p)) s in
  W8 (add64 (h0 s) a) (add64 (h1 s) b) (add64 (h2 s) c) (add64 (h3 s) d)
     (add64 (h4 s) e) (add64 (h5 s) f) (add64 (h6 s) g) (add64 (h7 s) h).

(** [blockGeneric(dig, p)]: one [block1] per whole chunk of [p]. *)
Fixpoint blockGeneric (n : nat) (s : words8) (p : list byte) : words8 :=
  match n with
  | O => s
  | S n' => blockGeneric n' (block1 s (firstn chunk p)) (skipn chunk p)
  end.

Definition put_uint64 (w : Z) : list byte :=
  map (fun i => byte_of_Z (Z.shiftr w (8 * i))) [7; 6; 5; 4; 3; 2; 1; 0].

(** [checkSum]: the byte 0x80, zeros up to 112 modulo 128, and the length
    in bits as a 128-bit big-endian integer. *)
Definition padding (len : nat) : list byte :=
  let r := (len mod 128)%nat in
  let zeros := (if (r <? 112)%nat then 111 - r else 128 + 111 - r)%nat in
  x80 :: repeat x00 zeros
    ++ put_uint64 (Z.shiftr (Z.of_nat len) 61)
    ++ put_uint64 (wrap64 (Z.shiftl (Z.of_nat len) 3)).

Definition digest_bytes (s : words8) : list byte :=
  put_uint64 (h0 s) ++ put_uint64 (h1 s) ++ put_uint64 (h2 s) ++ put_uint64 (h3 s)
  ++ put_uint64 (h4 s) ++ put_uint64 (h5 s) ++ put_uint64 (h6 s) ++ put_uint64 (h7 s).

Definition Sum512 (data : list byte) : list byte :=
  let p := data ++ padding (length data) in
  digest_bytes (blockGeneric (length p / chunk) init512 p).

(** A [hash.Hash] made by [sha512.New]: the bytes written since the last
    [Reset]; [Sum(b)] appends the digest of them to [b]. *)
Record Hash := { written : list byte }.

Definition sha512_New : Hash := {| written := [] |}.
Definition Hash_Write (h : Hash) (p : list byte) : Hash := {| written := written h ++ p |}.
Definition Hash_Sum (h : Hash) (b : list byte) : list byte := b ++ Sum512 (written h).
Definition Hash_Reset (h : Hash) : Hash := {| written := [] |}.

(** ** crypto/hmac *)

Record hmac := {
  outer : Hash;
  inner : Hash;
  ipad : list byte;
  opad : list byte;
}.

Definition xor_byte (c : Z) (b : byte) : byte := byte_of_Z (Z.lxor (Z_of_byte b) c).

(** [copy(dst, key)] into a zeroed slice of [n] bytes: the key, cut or
    followed by zeros. *)
Definition copy_into (n : nat) (key : list byte) : list byte :=
  firstn n key ++ repeat x00 (n - length key).

Definition hmac_New (key : list byte) : hmac :=
  let outer0 := sha512_New in
  let inner0 := sha512_New in
  let '(outer1, key) :=
    if (BlockSize <? length key)%nat
    then let o := Hash_Write outer0 key in (o, Hash_Sum o [])
    else (outer0, key) in
  let ipad := map (xor_byte 0x36) (copy_into BlockSize key) in
  let opad := map (xor_byte 0x5c) (copy_into BlockSize key) in
  {| outer := outer1; inner := Hash_Write inner0 ipad; ipad := ipad; opad := opad |}.

Definition hmac_Write (h : hmac) (p : list byte) : hmac :=
  {| outer := outer h; inner := Hash_Write (inner h) p; ipad := ipad h; opad := opad h |}.

Definition hmac_Sum (h : hmac) (b : list byte) : list byte :=
  let origLen := length b in
  let b' := Hash_Sum (inner h) b in
  let o := Hash_Write (Hash_Write (Hash_Reset (outer h)) (opad h)) (skipn origLen b') in
  Hash_Sum o (firstn origLen b').

(** ** encoding/hex *)

Definition hextable : string := "0123456789abcdef".

Definition hex_digit (z : Z) : ascii :=
  match String.get (Z.to_nat z) hextable with
  | Some c => c
  | None => "0"%char
  end.

Fixpoint hex_EncodeToString (src : list byte) : string :=
  match src with
  | [] => ""
  | v :: src' =>
      String (hex_digit (Z.shiftr (Z_of_byte v) 4))
        (String (hex_digit (Z.land (Z_of_byte v) 0x0f)) (hex_EncodeToString src'))
  end.

(** ** The signer *)

Definition signHmacSha512 (secret message : list byte) : string :=
  let mac := hmac_New secret in
  let mac := hmac_Write mac message in
  hex_EncodeToString (hmac_Sum mac []).

(** ** net/url *)

Definition is_alnum (c : ascii) : bool :=
  let z := code c in
  ((code "A"%char <=? z) && (z <=? code "Z"%char))
  || ((code "a"%char <=? z) && (z <=? code "z"%char))
  || ((code "0"%char <=? z) && (z <=? code "9"%char)).

(** [shouldEscape(c, encodeQueryComponent)]: letters, digits and the marks
    [-_.~] pass, every other byte is escaped. *)
Definition shouldEscape (c : ascii) : bool :=
  if is_alnum c then false
  else if bool_decide (c ∈ ["-"; "_"; "."; "~"]%char) then false
  else true.

Definition upperhex : string := "0123456789ABCDEF".

Definition upperhex_digit (z : Z) : ascii :=
  match String.get (Z.to_nat z) upperhex with
  | Some c => c
  | None => "0"%char
  end.

Fixpoint QueryEscape (s : string) : string :=
  match s with
  | EmptyString => EmptyString
  | String c s' =>
      if shouldEscape c then
        if bool_decide (c = " "%char) then String "+" (QueryEscape s')
        else String "%" (String (upperhex_digit (Z.shiftr (code c) 4))
                        (String (upperhex_digit (Z.land (code c) 15)) (QueryEscape s')))
      else String c (QueryEscape s')
  end.

(** [url.Values] is a [map[string][]string]. *)
Definition Values_Add (v : gmap string (list string)) (key value : string)
  : gmap string (list string) :=
  <[key := v !!! key ++ [value]]> v.

(** [sort.Strings] over the keys of the map: bytewise lexicographic order. *)
Definition sorted_keys (v : gmap string (list string)) : list string :=
  merge_sort String.le (map_to_list v).*1.

(** [Values.Encode]: for each key in order, for each of its values in
    order, [key=value], with [&] before every pair but the first. *)
Definition Values_Encode (v : gmap string (list string)) : string :=
  fold_left (fun buf k =>
    let vs := v !!! k in
    let prefix := QueryEscape k +:+ "=" in
    fold_left (fun buf x =>
      let buf := if (0 <? String.length buf)%nat then buf +:+ "&" else buf in
      buf +:+ prefix +:+ QueryEscape x) vs buf)
    (sorted_keys v) "".

(** ** net/textproto, net/http *)

Definition validHeaderFieldByte (c : ascii) : bool :=
  is_alnum c
  || bool_decide (c ∈ ["!"; "#"; "$"; "%"; "&"; "'"; "*"; "+"; "-"; "."; "^"; "_"; "`"; "|"; "~"]%char).

Definition toLower : Z := code "a"%char - code "A"%char.

Fixpoint canonical_loop (upper : bool) (a : string) : string :=
  match a with
  | EmptyString => EmptyString
  | String c a' =>
      let z := code c in
      let c :=
        if upper && (code "a"%char <=? z) && (z <=? code "z"%char) then char_of (z - toLower)
        else if negb upper && (code "A"%char <=? z) && (z <=? code "Z"%char) then char_of (z + toLower)
        else c in
      String c (canonical_loop (bool_decide (c = "-"%char)) a')
  end.

Definition CanonicalMIMEHeaderKey (s : string) : string :=
  if forallb validHeaderFieldByte (list_ascii_of_string s)
  then canonical_loop true s
  else s.

Definition Header_Add (h : gmap string (list string)) (key value : string)
  : gmap string (list string) :=
  let key := CanonicalMIMEHeaderKey key in
  <[key := h !!! key ++ [value]]> h.

Definition set_Header (h : gmap string (list string)) (req : Request) : Request :=
  {| Method := Method req; URL := URL req; Header := h; Body := Body req |}.

(** [http.NewRequest(method, url, body)] for a valid method and an
    address that [url.Parse] accepts and writes back as it is: of this
    package, the constant [apiTrade] of [callPrivate].  The addresses
    [callPublic] is given are texts of the caller, see
    [http_NewRequest_GET]. *)
Definition http_NewRequest (method url body : string) : Request + error :=
  inl {| Method := method; URL := url; Header := ∅; Body := body |}.

(** [client.Do(req)]: the request is handed to the client, and the
    client answers or fails. *)
Definition client_Do (req : Request) : M (Z * list byte + error) :=
  fun s =>
    let w := wire s ++ [req] in
    match server s w with
    | Some resp => Ret (inl resp) (set_wire w s)
    | None => Ret (inr (ErrorString "Do")) (set_wire w s)
    end.

(** ** The client *)

Definition Url : string := "https://yobit.net".
Definition ApiVersion : string := "3".
Definition apiBase : string := Url +:+ "/api/".
Definition apiTrade : string := Url +:+ "/tapi/".

Record ApiCredential := { Key : string; Secret : string }.

(** Of a [Yobit] value the calls below use the credential; its mutex is
    in the state, its HTTP client is the transport of the state. *)
Record Yobit := { credential : ApiCredential }.

(** [fatal(v...)]: prints and ends the process with status 1. *)
Definition fatal {A} (e : error) : M A := fun s => Exit e s.

Definition StatusOK : Z := 200.

Definition query (y : Yobit) (req : Request) : M (list byte) :=
  r ← client_Do req;
  match r with
  | inr err => fatal err
  | inl (StatusCode, body) =>
      if negb (StatusCode =? StatusOK)
      then fatal (ErrorString (URL req +:+ "
Something goes wrong. HTTP" +:+ strconv_FormatUint StatusCode))
      else mret body
  end.

Record CallArg := { name : string; value : string }.

Definition callPrivate (y : Yobit) (method : string) (args : list CallArg) : M (list byte) :=
  nonce ← GetAndIncrementNonce;
  let form : gmap string (list string) :=
    {[ "method" := [method]; "nonce" := [strconv_FormatUint nonce] ]} in
  let form := fold_left (fun form arg => Values_Add form (name arg) (value arg)) args form in
  let encode := Values_Encode form in
  let signature :=
    signHmacSha512 (list_byte_of_string (Secret (credential y))) (list_byte_of_string encode) in
  let body := encode in
  match http_NewRequest "POST" apiTrade body with
  | inr err => fatal err
  | inl req =>
      let h := Header_Add (Header req) "Content-type" "application/x-www-form-urlencoded" in
      let h := Header_Add h "Key" (Key (credential y)) in
      let h := Header_Add h "Sign" signature in
      query y (set_Header h req)
  end.

#[local] Set Warnings "-register-all".

(** ** encoding/json: the scanner

    A JSON text is read into a tree; a number keeps its literal. *)

Inductive json :=
| JNull
| JBool (b : bool)
| JNumber (lit : string)
| JString (s : string)
| JArray (elems : list json)
| JObject (members : list (string * json)).

Definition is_space (c : ascii) : bool :=
  bool_decide (c ∈ [" "; "009"; "013"; "010"]%char).

Fixpoint skip_ws (s : string) : string :=
  match s with
  | String c s' => if is_space c then skip_ws s' else s
  | EmptyString => s
  end.

Definition is_digit (c : ascii) : bool :=
  (code "0"%char <=? code c) && (code c <=? code "9"%char).

Definition hex_value (c : ascii) : option Z :=
  let z := code c in
  if is_digit c then Some (z - code "0"%char)
  else if (code "a"%char <=? z) && (z <=? code "f"%char) then Some (z - code "a"%char + 10)
  else if (code "A"%char <=? z) && (z <=? code "F"%char) then Some (z - code "A"%char + 10)
  else None.

(** [getu4]: the four hexadecimal digits after a backslash and [u]. *)
Definition getu4 (s : string) : option (Z * string) :=
  match s with
  | String a (String b (String c (String d r))) =>
      match hex_value a, hex_value b, hex_value c, hex_value d with
      | Some a, Some b, Some c, Some d => Some (((a * 16 + b) * 16 + c) * 16 + d, r)
      | _, _, _, _ => None
      end
  | _ => None
  end.

Definition RuneError : Z := 0xFFFD.

(** [utf8.EncodeRune]. *)
Definition EncodeRune (r : Z) : string :=
  let r := if (r <? 0) || (0x10FFFF <? r) || ((0xD800 <=? r) && (r <=? 0xDFFF))
           then RuneError else r in
  let cont z := char_of (Z.lor 0x80 (Z.land z 0x3F)) in
  if r <? 0x80 then String (char_of r) ""
  else if r <? 0x800 then
    String (char_of (Z.lor 0xC0 (Z.shiftr r 6))) (String (cont r) "")
  else if r <? 0x10000 then
    String (char_of (Z.lor 0xE0 (Z.shiftr r 12)))
      (String (cont (Z.shiftr r 6)) (String (cont r) ""))
  else
    String (char_of (Z.lor 0xF0 (Z.shiftr r 18)))
      (String (cont (Z.shiftr r 12)) (String (cont (Z.shiftr r 6)) (String (cont r) ""))).

Definition in_range (lo hi : Z) (c : ascii) : bool := (lo <=? code c) && (code c <=? hi).

(** The number of bytes of the well-formed UTF-8 sequence [s] starts with,
    or nothing when it starts with none ([utf8.DecodeRune] then answers
    [RuneError] of width 1). *)
Definition rune_width (s : string) : option nat :=
  match s with
  | EmptyString => None
  | String c0 r =>
      let z := code c0 in
      if z <? 0x80 then Some 1%nat
      else
        let second :=
          if z =? 0xE0 then in_range 0xA0 0xBF
          else if z =? 0xED then in_range 0x80 0x9F
          else if z =? 0xF0 then in_range 0x90 0xBF
          else if z =? 0xF4 then in_range 0x80 0x8F
          else in_range 0x80 0xBF in
        let cont := in_range 0x80 0xBF in
        if (0xC2 <=? z) && (z <=? 0xDF) then
          match r with
          | String c1 _ => if second c1 then Some 2%nat else None
          | _ => None
          end
        else if (0xE0 <=? z) && (z <=? 0xEF) then
          match r with
          | String c1 (String c2 _) => if second c1 && cont c2 then Some 3%nat else None
          | _ => None
          end
        else if (0xF0 <=? z) && (z <=? 0xF4) then
          match r with
          | String c1 (String c2 (String c3 _)) =>
              if second c1 && cont c2 && cont c3 then Some 4%nat else None
          | _ => None
          end
        else None
  end.

Definition take_string (n : nat) (s : string) : string := String.substring 0 n s.
Definition drop_string (n : nat) (s : string) : string :=
  String.substring n (String.length s - n) s.

(** A string literal after its opening quote: the text it denotes and what
    follows the closing quote.  Escapes are replaced, a surrogate pair
    is joined, ill-formed UTF-8 becomes U+FFFD. *)
Fixpoint unquote (fuel : nat) (s : string) : option (string * string) :=
  match fuel with
  | O => None
  | S fuel' =>
      let more pre r :=
        match unquote fuel' r with
        | Some (d, rest) => Some (pre +:+ d, rest)
        | None => None
        end in
      let one z := String (char_of z) "" in
      match s with
      | EmptyString => None
      | String c r =>
          if bool_decide (c = "034"%char) then Some ("", r)
          else if bool_decide (c = "\"%char) then
            match r with
            | EmptyString => None
            | String e r' =>
                if bool_decide (e ∈ ["034"; "\"; "/"]%char) then more (String e "") r'
                else if bool_decide (e = "b"%char) then more (one 8) r'
                else if bool_decide (e = "f"%char) then more (one 12) r'
                else if bool_decide (e = "n"%char) then more (one 10) r'
                else if bool_decide (e = "r"%char) then more (one 13) r'
                else if bool_decide (e = "t"%char) then more (one 9) r'
                else if bool_decide (e = "u"%char) then
                  match getu4 r' with
                  | None => None
                  | Some (rr, r2) =>
                      if (0xD800 <=? rr) && (rr <? 0xE000) then
                        match r2 with
                        | String "\" (String "u" r3) =>
                            match getu4 r3 with
                            | Some (rr1, r4) =>
                                if (rr <? 0xDC00) && (0xDC00 <=? rr1) && (rr1 <? 0xE000)
                                then more (EncodeRune
                                       (Z.lor (Z.shiftl (rr - 0xD800) 10) (rr1 - 0xDC00) + 0x10000)) r4
                                else more (EncodeRune RuneError) r2
                            | None => more (EncodeRune RuneError) r2
                            end
                        | _ => more (EncodeRune RuneError) r2
                        end
                      else more (EncodeRune rr) r2
                  end
                else None
            end
          else if code c <? 0x20 then None
          else
            match rune_width s with
            | Some n => more (take_string n s) (drop_string n s)
            | None => more (EncodeRune RuneError) r
            end
      end
  end.

Fixpoint span_digits (s : string) : string * string :=
  match s with
  | String c r =>
      if is_digit c then let '(d, rest) := span_digits r in (String c d, rest)
      else ("", s)
  | EmptyString => ("", s)
  end.

(** A number literal: an optional minus, [0] or digits not starting with
    [0], an optional fraction, an optional exponent. *)
Definition scan_number (s : string) : option (string * string) :=
  let '(sign, s1) :=
    match s with
    | String "-" r => ("-", r)
    | _ => ("", s)
    end in
  let int_part :=
    match s1 with
    | String "0" r => Some ("0", r)
    | String c _ => if is_digit c then Some (span_digits s1) else None
    | EmptyString => None
    end in
  match int_part with
  | None => None
  | Some (i, s2) =>
      let frac :=
        match s2 with
        | String "." r =>
            match span_digits r with
            | (EmptyString, _) => None
            | (d, rest) => Some ("." +:+ d, rest)
            end
        | _ => Some ("", s2)
        end in
      match frac with
      | None => None
      | Some (f, s3) =>
          let exp :=
            match s3 with
            | String e r =>
                if bool_decide (e ∈ ["e"; "E"]%char) then
                  let '(sg, r1) :=
                    match r with
                    | String g r' =>
                        if bool_decide (g ∈ ["+"; "-"]%char) then (String g "", r') else ("", r)
                    | EmptyString => ("", r)
                    end in
                  match span_digits r1 with
                  | (EmptyString, _) => None
                  | (d, rest) => Some (String e sg +:+ d, rest)
                  end
                else Some ("", s3)
            | EmptyString => Some ("", s3)
            end in
          match exp with
          | None => None
          | Some (x, s4) => Some (sign +:+ i +:+ f +:+ x, s4)
          end
      end
  end.

Definition strip_prefix (p s : string) : option string :=
  if String.prefix p s then Some (drop_string (String.length p) s) else None.

(** The scanner keeps a stack of the objects and arrays it is inside of,
    and refuses a text that nests them deeper than this. *)
Definition maxNestingDepth : Z := 10000.

(** [depth] is the number of objects and arrays the value is inside
    of. *)
Fixpoint parse_value (fuel : nat) (depth : Z) (s : string) : option (json * string) :=
  match fuel with
  | O => None
  | S fuel' =>
      match skip_ws s with
      | EmptyString => None
      | String c r as s0 =>
          if bool_decide (c = "{"%char) then
            if maxNestingDepth <? depth + 1 then None else
            match skip_ws r with
            | String "}" r' => Some (JObject [], r')
            | _ => match parse_members fuel' (depth + 1) r with
                   | Some (m, rest) => Some (JObject m, rest)
                   | None => None
                   end
            end
          else if bool_decide (c = "["%char) then
            if maxNestingDepth <? depth + 1 then None else
            match skip_ws r with
            | String "]" r' => Some (JArray [], r')
            | _ => match parse_elements fuel' (depth + 1) r with
                   | Some (l, rest) => Some (JArray l, rest)
                   | None => None
                   end
            end
          else if bool_decide (c = "034"%char) then
            match unquote (S (String.length r)) r with
            | Some (str, rest) => Some (JString str, rest)
            | None => None
            end
          else if bool_decide (c = "t"%char) then
            option_map (pair (JBool true)) (strip_prefix "true" s0)
          else if bool_decide (c = "f"%char) then
            option_map (pair (JBool false)) (strip_prefix "false" s0)
          else if bool_decide (c = "n"%char) then
            option_map (pair JNull) (strip_prefix "null" s0)
          else
            match scan_number s0 with
            | Some (lit, rest) => Some (JNumber lit, rest)
            | None => None
            end
      end
  end
with parse_members (fuel : nat) (depth : Z) (s : string)
  : option (list (string * json) * string) :=
  match fuel with
  | O => None
  | S fuel' =>
      match skip_ws s with
      | String "034" r =>
          match unquote (S (String.length r)) r with
          | Some (key, r1) =>
              match skip_ws r1 with
              | String ":" r2 =>
                  match parse_value fuel' depth r2 with
                  | Some (v, r3) =>
                      match skip_ws r3 with
                      | String "," r4 =>
                          match parse_members fuel' depth r4 with
                          | Some (m, rest) => Some ((key, v) :: m, rest)
                          | None => None
                          end
                      | String "}" r4 => Some ([(key, v)], r4)
                      | _ => None
                      end
                  | None => None
                  end
              | _ => None
              end
          | None => None
          end
      | _ => None
      end
  end
with parse_elements (fuel : nat) (depth : Z) (s : string) : option (list json * string) :=
  match fuel with
  | O => None
  | S fuel' =>
      match parse_value fuel' depth s with
      | Some (v, r1) =>
          match skip_ws r1 with
          | String "," r2 =>
              match parse_elements fuel' depth r2 with
              | Some (l, rest) => Some (v :: l, rest)
              | None => None
              end
          | String "]" r2 => Some ([v], r2)
          | _ => None
          end
      | None => None
      end
  end.

(** [checkValid] and the scan of the whole text: one value, then only
    white space. *)
Definition parse_json (s : string) : option json :=
  match parse_value (S (String.length s)) 0 s with
  | Some (j, rest) =>
      match skip_ws rest with
      | EmptyString => Some j
      | _ => None
      end
  | None => None
  end.

(** ** encoding/json: decoding into Go values

    [decode j v] stores the JSON value [j] into the Go value [v] of type
    [T].  A value of the wrong kind leaves its target as it is; the
    decoding goes on and the earliest such error is reported in the end. *)

Class Decode (T : Type) := decode : json -> T -> T * option error.

Definition first_error (e1 e2 : option error) : option error :=
  match e1 with
  | Some _ => e1
  | None => e2
  end.

Definition kind_of (j : json) : string :=
  match j with
  | JNull => "null"
  | JBool _ => "bool"
  | JNumber _ => "number"
  | JString _ => "string"
  | JArray _ => "array"
  | JObject _ => "object"
  end.

(** A value of a kind the target does not take. *)
Definition type_error {T} (j : json) (type : string) (v : T) : T * option error :=
  (v, Some (UnmarshalTypeError (kind_of j) type)).

(** A number the numeric target cannot hold: the error names the
    literal. *)
Definition number_error {T} (lit type : string) (v : T) : T * option error :=
  (v, Some (UnmarshalTypeError ("number " +:+ lit) type)).

Definition decode_uint (bits : Z) (type : string) (j : json) (v : Z) : Z * option error :=
  match j with
  | JNull => (v, None)
  | JNumber lit =>
      match strconv_ParseUint lit with
      | inl n => if n <? 2 ^ bits then (n, None) else number_error lit type v
      | inr _ => number_error lit type v
      end
  | _ => type_error j type v
  end.

Definition decode_string (j : json) (v : string) : string * option error :=
  match j with
  | JNull => (v, None)
  | JString s => (s, None)
  | _ => type_error j "string" v
  end.

#[export] Instance Decode_string : Decode string := decode_string.

(** *** Decimal texts *)

Definition digit_value (c : ascii) : Z := code c - code "0"%char.

(** The number a text of decimal digits denotes, read from the left with
    [n] read so far. *)
Fixpoint decimal_value_from (n : Z) (s : string) : Z :=
  match s with
  | EmptyString => n
  | String c s' => decimal_value_from (n * 10 + digit_value c) s'
  end.

Definition decimal_value (s : string) : Z := decimal_value_from 0 s.

Definition all_digits (s : string) : bool := forallb is_digit (list_ascii_of_string s).

(** *** [float64]

    A [float64] is kept as the literal it was read from.
    [strconv.ParseFloat] rounds to the nearest [float64] and reports a
    literal as out of range when that is infinite: when the value is, in
    absolute value, at least [2^1024 - 2^970], halfway between the
    largest [float64] and [2^1024].  A literal too close to zero gives
    zero or a denormal, and no error. *)
Record float64 := Float64 { float_literal : string }.

(** The digits before and after the point of a number literal, and its
    exponent. *)
Definition float_parts (lit : string) : string * string * Z :=
  let s := match lit with String "-" r => r | _ => lit end in
  let '(i, r) := span_digits s in
  let '(f, r) := match r with String "." r' => span_digits r' | _ => ("", r) end in
  let e :=
    match r with
    | String _ (String "-" d) => - decimal_value d
    | String _ (String "+" d) => decimal_value d
    | String _ d => decimal_value d
    | EmptyString => 0
    end in
  (i, f, e).

Definition float64_limit : Z := 2 ^ 1024 - 2 ^ 970.

(** Whether the digits [m], taken times [10 ^ e10], reach the limit.  A
    value of at most 308 digits before the point is below it, one of
    more than 400 is above; the powers of ten in between are taken. *)
Definition overflows_float64 (lit : string) : bool :=
  let '(i, f, e) := float_parts lit in
  let digits := i +:+ f in
  let m := decimal_value digits in
  let e10 := e - Z.of_nat (String.length f) in
  if m =? 0 then false
  else if Z.of_nat (String.length digits) + e10 <=? 308 then false
  else if 400 <? e10 then true
  else if 0 <=? e10 then float64_limit <=? m * 10 ^ e10
  else float64_limit * 10 ^ (- e10) <=? m.

#[export] Instance Decode_float64 : Decode float64 := fun j v =>
  match j with
  | JNull => (v, None)
  | JNumber lit =>
      if overflows_float64 lit then number_error lit "float64" v else (Float64 lit, None)
  | _ => type_error j "float64" v
  end.

(** [int64] from a literal: an optional minus and decimal digits. *)
Definition decode_int64 (j : json) (v : Z) : Z * option error :=
  match j with
  | JNull => (v, None)
  | JNumber lit =>
      let '(neg, digits) :=
        match lit with
        | String "-" r => (true, r)
        | _ => (false, lit)
        end in
      match strconv_ParseUint digits with
      | inl n =>
          if neg then (if n <=? 2 ^ 63 then (- n, None) else number_error lit "int64" v)
          else (if n <? 2 ^ 63 then (n, None) else number_error lit "int64" v)
      | inr _ => number_error lit "int64" v
      end
  | _ => type_error j "int64" v
  end.

(** *** Struct fields: an exact match of the key first, else the first
    field whose name equals the key when case is folded. *)

Definition caseMask (z : Z) : Z := Z.land z 0xDF.
Definition is_upper_letter (z : Z) : bool := (code "A"%char <=? z) && (z <=? code "Z"%char).

Fixpoint simpleLetterEqualFold (s t : string) : bool :=
  match s, t with
  | EmptyString, EmptyString => true
  | String a s', String b t' =>
      (caseMask (code a) =? caseMask (code b)) && simpleLetterEqualFold s' t'
  | _, _ => false
  end.

Fixpoint asciiEqualFold (s t : string) : bool :=
  match s, t with
  | EmptyString, EmptyString => true
  | String a s', String b t' =>
      (if bool_decide (a = b) then true
       else if is_upper_letter (caseMask (code a))
            then caseMask (code a) =? caseMask (code b)
            else false)
      && asciiEqualFold s' t'
  | _, _ => false
  end.

(** The long s (U+017F) folds to [s], the Kelvin sign (U+212A) to [k]. *)
Definition smallLongEss : string := EncodeRune 0x17F.
Definition kelvin : string := EncodeRune 0x212A.

Fixpoint equalFoldRight (s t : string) : bool :=
  match s with
  | EmptyString => bool_decide (t = EmptyString)
  | String sb s' =>
      match t with
      | EmptyString => false
      | String tb t' =>
          if code tb <? 0x80 then
            (if bool_decide (sb = tb) then true
             else if is_upper_letter (caseMask (code sb))
                  then caseMask (code sb) =? caseMask (code tb)
                  else false)
            && equalFoldRight s' t'
          else if bool_decide (sb ∈ ["s"; "S"]%char) then
            String.prefix smallLongEss t
            && equalFoldRight s' (drop_string (String.length smallLongEss) t)
          else if bool_decide (sb ∈ ["k"; "K"]%char) then
            String.prefix kelvin t
            && equalFoldRight s' (drop_string (String.length kelvin) t)
          else false
      end
  end.

Definition fold_upper (s : string) : string :=
  string_of_list_ascii
    (map (fun c => if (code "a"%char <=? code c) && (code c <=? code "z"%char)
                   then char_of (code c - toLower) else c)
         (list_ascii_of_string s)).

(** [foldFunc(name)]: which comparison the field [name] is matched with.
    The names of this package are ASCII, so the Unicode [bytes.EqualFold]
    of the library is never chosen; it is read here as the equality of
    the upper-cased ASCII texts. *)
Definition foldFunc (name : string) : string -> string -> bool :=
  let cs := list_ascii_of_string name in
  if existsb (fun c => 0x80 <=? code c) cs then
    fun s t => bool_decide (fold_upper s = fold_upper t)
  else if existsb (fun c => bool_decide (char_of (caseMask (code c)) ∈ ["K"; "S"]%char)) cs then
    equalFoldRight
  else if existsb (fun c => negb (is_upper_letter (caseMask (code c)))) cs then
    asciiEqualFold
  else simpleLetterEqualFold.

Definition field (T : Type) : Type := string * (json -> T -> T * option error).

Fixpoint find_field {T} (fields : list (field T)) (key : string) (f : option (field T))
  : option (field T) :=
  match fields with
  | [] => f
  | ff :: fields' =>
      if bool_decide (fst ff = key) then Some ff
      else match f with
           | None => if foldFunc (fst ff) (fst ff) key
                     then find_field fields' key (Some ff)
                     else find_field fields' key f
           | Some _ => find_field fields' key f
           end
  end.

Fixpoint decode_members {T} (fields : list (field T)) (m : list (string * json)) (v : T)
  : T * option error :=
  match m with
  | [] => (v, None)
  | (key, j) :: m' =>
      match find_field fields key None with
      | Some (_, set) =>
          let '(v, e) := set j v in
          let '(v, e') := decode_members fields m' v in
          (v, first_error e e')
      | None => decode_members fields m' v
      end
  end.

Definition decode_struct {T} (type : string) (fields : list (field T)) (j : json) (v : T)
  : T * option error :=
  match j with
  | JNull => (v, None)
  | JObject m => decode_members fields m v
  | _ => type_error j type v
  end.

(** A [map[string]T]: every member is decoded into a fresh zero [T] and
    stored under its key, also when its decoding reported an error;
    [null] makes the map [nil], which holds nothing. *)
Fixpoint decode_map_members {T} `{Decode T} (zero : T) (m : list (string * json))
  (v : gmap string T) : gmap string T * option error :=
  match m with
  | [] => (v, None)
  | (key, j) :: m' =>
      let '(elem, e) := decode j zero in
      let '(v, e') := decode_map_members zero m' (<[key := elem]> v) in
      (v, first_error e e')
  end.

Definition decode_map {T} `{Decode T} (type : string) (zero : T) (j : json)
  (v : gmap string T) : gmap string T * option error :=
  match j with
  | JNull => (∅, None)
  | JObject m => decode_map_members zero m v
  | _ => type_error j type v
  end.

(** [json.Unmarshal(data, &v)]. *)
Definition json_Unmarshal {T} `{Decode T} (data : list byte) (v : T) : T * option error :=
  match parse_json (string_of_list_byte data) with
  | None => (v, Some (SyntaxError "invalid character"))
  | Some j => decode j v
  end.

(** ** The objects of the package *)

Record ErrorResponse := {
  Success : Z;     (* uint8 *)
  Error : string;
}.

Definition set_Success (x : Z) (r : ErrorResponse) : ErrorResponse :=
  {| Success := x; Error := Error r |}.
Definition set_Error (x : string) (r : ErrorResponse) : ErrorResponse :=
  {| Success := Success r; Error := x |}.

Definition into {T F} (get : T -> F) (set : F -> T -> T) (dec : json -> F -> F * option error)
  : json -> T -> T * option error :=
  fun j v => let '(x, e) := dec j (get v) in (set x v, e).

#[export] Instance Decode_ErrorResponse : Decode ErrorResponse :=
  decode_struct "yobit.ErrorResponse"
    [ ("success", into Success set_Success (decode_uint 8 "uint8"));
      ("error", into Error set_Error decode_string) ].

Definition zero_ErrorResponse : ErrorResponse := {| Success := 0; Error := "" |}.

Record Ticker := {
  High : float64;
  Low : float64;
  Avg : float64;
  Vol : float64;
  VolCur : float64;
  Buy : float64;
  Sell : float64;
  Last : float64;
  Updated : Z;     (* int64 *)
}.

Definition zero_float64 : float64 := Float64 "0".
Definition zero_Ticker : Ticker :=
  {| High := zero_float64; Low := zero_float64; Avg := zero_float64; Vol := zero_float64;
     VolCur := zero_float64; Buy := zero_float64; Sell := zero_float64;
     Last := zero_float64; Updated := 0 |}.

#[export] Instance Decode_Ticker : Decode Ticker :=
  decode_struct "yobit.Ticker"
    [ ("high", into High (fun x t => {| High := x; Low := Low t; Avg := Avg t; Vol := Vol t;
         VolCur := VolCur t; Buy := Buy t; Sell := Sell t; Last := Last t; Updated := Updated t |})
         decode);
      ("low", into Low (fun x t => {| High := High t; Low := x; Avg := Avg t; Vol := Vol t;
         VolCur := VolCur t; Buy := Buy t; Sell := Sell t; Last := Last t; Updated := Updated t |})
         decode);
      ("avg", into Avg (fun x t => {| High := High t; Low := Low t; Avg := x; Vol := Vol t;
         VolCur := VolCur t; Buy := Buy t; Sell := Sell t; Last := Last t; Updated := Updated t |})
         decode);
      ("vol", into Vol (fun x t => {| High := High t; Low := Low t; Avg := Avg t; Vol := x;
         VolCur := VolCur t; Buy := Buy t; Sell := Sell t; Last := Last t; Updated := Updated t |})
         decode);
      ("vol_cur", into VolCur (fun x t => {| High := High t; Low := Low t; Avg := Avg t;
         Vol := Vol t; VolCur := x; Buy := Buy t; Sell := Sell t; Last := Last t;
         Updated := Updated t |}) decode);
      ("buy", into Buy (fun x t => {| High := High t; Low := Low t; Avg := Avg t; Vol := Vol t;
         VolCur := VolCur t; Buy := x; Sell := Sell t; Last := Last t; Updated := Updated t |})
         decode);
      ("sell", into Sell (fun x t => {| High := High t; Low := Low t; Avg := Avg t; Vol := Vol t;
         VolCur := VolCur t; Buy := Buy t; Sell := x; Last := Last t; Updated := Updated t |})
         decode);
      ("last", into Last (fun x t => {| High := High t; Low := Low t; Avg := Avg t; Vol := Vol t;
         VolCur := VolCur t; Buy := Buy t; Sell := Sell t; Last := x; Updated := Updated t |})
         decode);
      ("updated", into Updated (fun x t => {| High := High t; Low := Low t; Avg := Avg t;
         Vol := Vol t; VolCur := VolCur t; Buy := Buy t; Sell := Sell t; Last := Last t;
         Updated := x |}) decode_int64) ].

(** The target of [Tickers24]: [map[string]Ticker]. *)
#[export] Instance Decode_Tickers : Decode (gmap string Ticker) :=
  decode_map "map[string]yobit.Ticker" zero_Ticker.

(** ** fmt, errors *)

(** [err.Error()]. *)
Definition err_Error (e : error) : string :=
  match e with
  | PathError op path => op +:+ " " +:+ path +:+ ": operation failed"
  | NumError func num ErrSyntax =>
      "strconv." +:+ func +:+ ": parsing " +:+ num +:+ ": invalid syntax"
  | NumError func num ErrRange =>
      "strconv." +:+ func +:+ ": parsing " +:+ num +:+ ": value out of range"
  | SyntaxError msg => msg
  | UnmarshalTypeError val type =>
      "json: cannot unmarshal " +:+ val +:+ " into Go value of type " +:+ type
  | ErrorString msg => msg
  end.

(** ** The response decoder *)

Definition unmarshal {T} `{Decode T} (data : list byte) (obj : T) : T * option error :=
  let '(obj, err) := json_Unmarshal data obj in
  match err with
  | Some e =>
      let err :=
        ErrorString ("unmarshaling failed. " +:+ string_of_list_byte data +:+ " " +:+ err_Error e) in
      (* try to unmarshal to error response *)
      let '(errorResponse, err2) := json_Unmarshal data zero_ErrorResponse in
      match err2 with
      | None => (obj, Some (ErrorString (Error errorResponse)))
      | Some _ => (obj, Some err)
      end
  | None => (obj, None)
  end.

(** ** What the statements below speak of *)

(** HMAC as RFC 2104 writes it, over a hash [H] of block size [B]:
    [H((K0 xor opad) || H((K0 xor ipad) || text))], where [K0] is the key
    (hashed first when longer than [B]) followed by zeros up to [B]. *)
Definition HMAC_spec (H : list byte -> list byte) (B : nat) (K text : list byte) : list byte :=
  let K0 := if (B <? length K)%nat then H K else K in
  let K0 := K0 ++ repeat x00 (B - length K0) in
  H (map (xor_byte 0x5c) K0 ++ H (map (xor_byte 0x36) K0 ++ text)).

Definition is_lower_hex (c : ascii) : bool :=
  is_digit c || ((code "a"%char <=? code c) && (code c <=? code "f"%char)).

(** The value the nonce file stands for: the number its contents parse to,
    [1] when the file is not there yet (it is created holding [1]), nothing
    when the contents do not parse. *)
Definition counter (s : State) : option Z :=
  match files s !! nonceFile with
  | None => Some 1
  | Some data =>
      match strconv_ParseUint (string_of_list_byte data) with
      | inl v => Some v
      | inr _ => None
      end
  end.

Definition corrupt (s : State) : Prop :=
  exists data e, files s !! nonceFile = Some data
                 /\ strconv_ParseUint (string_of_list_byte data) = inr e.

(** A file has room for the decimal text of [n]. *)
Definition room_for (n : Z) (s : State) : Prop :=
  fits (list_byte_of_string (strconv_FormatUint n)) s = true.

(** A file may hold the twenty digits of the largest uint64. *)
Definition holds_uint64 (s : State) : Prop :=
  match file_limit s with
  | Some n => (20 <= n)%nat
  | None => True
  end.

(** The file operations are allowed: nothing the package does on its
    files fails. *)
Definition io_ok (s : State) : Prop :=
  may_stat s = true /\ may_create s = true /\ may_read s = true /\ may_write s = true
  /\ holds_uint64 s.

Definition returns {A} (o : outcome A) : Prop := exists a s, o = Ret a s.
Definition panics {A} (o : outcome A) : Prop := exists e s, o = Panic e s.

Definition final_state {A} (o : outcome A) : State :=
  match o with
  | Ret _ s | Panic _ s | Exit _ s | Blocked s => s
  end.

(** A state with no nonce file, where every file operation is allowed and
    nothing limits the size of a file. *)
Definition fresh_state (srv : list Request -> option (Z * list byte)) : State :=
  {| files := ∅; may_stat := true; may_create := true; may_read := true;
     may_write := true; file_limit := None; mutex := false; wire := []; server := srv |}.

Definition no_server : list Request -> option (Z * list byte) := fun _ => None.

(** A state whose nonce file holds [text], every file operation allowed. *)
Definition state_with (text : string) : State :=
  set_files {[ nonceFile := list_byte_of_string text ]} (fresh_state no_server).

(** The same where a file may hold [n] bytes and no more. *)
Definition limited_state (n : nat) (text : string) : State :=
  {| files := {[ nonceFile := list_byte_of_string text ]}; may_stat := true;
     may_create := true; may_read := true; may_write := true; file_limit := Some n;
     mutex := false; wire := []; server := no_server |}.

(** *** Calls one after the other, and restarts

    A restart ends the process and starts a new one on the same disk: the
    new [Yobit] value has an unlocked mutex, the files are as they were
    left.  A call that does not return yields no nonce; whatever comes next
    starts from the state it left. *)
Inductive event := Call | Restart.

Definition restart (s : State) : State := set_mutex false s.

Fixpoint run (evs : list event) (s : State) : list Z :=
  match evs with
  | [] => []
  | Call :: evs' =>
      match GetAndIncrementNonce s with
      | Ret nonce s' => nonce :: run evs' s'
      | o => run evs' (final_state o)
      end
  | Restart :: evs' => run evs' (restart s)
  end.

Definition is_call (e : event) : bool :=
  match e with
  | Call => true
  | Restart => false
  end.

Definition calls (evs : list event) : nat := length (List.filter is_call evs).

(** *** Calls at the same time

    A goroutine runs [GetAndIncrementNonce] once; one step of a goroutine
    is one statement of the function, run on the state as the [Yobit]
    value it was called on sees it. *)
Inductive pc :=
| Start                      (* before [y.mutex.Lock()] *)
| Locked                     (* holds the mutex, before [readNonce()] *)
| HasRead (nonce : Z)        (* before [incrementNonce(&nonce)] *)
| Incremented (nonce : Z)    (* before the return and the deferred [Unlock] *)
| Returned (nonce : Z)
| Panicked (e : error).

Definition thread_step (p : pc) (s : State) : option (pc * State) :=
  match p with
  | Start =>
      match Lock s with
      | Ret _ s' => Some (Locked, s')
      | _ => None
      end
  | Locked =>
      match readNonce s with
      | Ret nonce s' => Some (HasRead nonce, s')
      | Panic e s' => Some (Panicked e, Unlock s')
      | _ => None
      end
  | HasRead nonce =>
      match incrementNonce nonce s with
      | Ret nonce s' => Some (Incremented nonce, s')
      | Panic e s' => Some (Panicked e, Unlock s')
      | _ => None
      end
  | Incremented nonce => Some (Returned nonce, Unlock s)
  | Returned _ | Panicked _ => None
  end.

Definition system : Type := list pc * State.

(** Goroutine [i] takes its next step, if it has one. *)
Definition sys_step (i : nat) (sys : system) : option system :=
  match sys.1 !! i with
  | Some p =>
      match thread_step p sys.2 with
      | Some (p', s') => Some (<[i := p']> sys.1, s')
      | None => None
      end
  | None => None
  end.

Definition step (sys sys' : system) : Prop := exists i, sys_step i sys = Some sys'.

(** The goroutines are run in the order the schedule gives; a goroutine
    that cannot move (it waits for the mutex, or it is done) is passed
    over. *)
Fixpoint exec (sched : list nat) (sys : system) : system :=
  match sched with
  | [] => sys
  | i :: sched' =>
      match sys_step i sys with
      | Some sys' => exec sched' sys'
      | None => exec sched' sys
      end
  end.

Definition returned (p : pc) : option Z :=
  match p with
  | Returned nonce => Some nonce
  | _ => None
  end.

Definition all_returned (ts : list pc) : Prop := Forall (fun p => is_Some (returned p)) ts.

(** The nonces the goroutines returned, in the order of the goroutines. *)
Definition results (ts : list pc) : list Z := omap returned ts.

Definition initial (N : nat) (s : State) : system := (replicate N Start, s).

(** *** Several [Yobit] values in one process

    Each [Yobit] value has a mutex of its own; the nonce file is the same
    for all.  A goroutine calls [GetAndIncrementNonce] on the [Yobit]
    value that is its receiver, and the mutex it locks and unlocks is the
    mutex of that value. *)
Record goroutine := { receiver : nat; at_pc : pc }.

Record process := {
  goroutines : list goroutine;
  mutexes : nat -> bool;         (* the mutex of each [Yobit] value *)
  world : State;                 (* of which [mutex] is not used *)
}.

(** The state as a method of the [Yobit] value [k] sees it. *)
Definition seen_by (k : nat) (P : process) : State := set_mutex (mutexes P k) (world P).

(** Goroutine [i] takes its next step, if it has one. *)
Definition process_step (i : nat) (P : process) : option process :=
  match goroutines P !! i with
  | Some g =>
      match thread_step (at_pc g) (seen_by (receiver g) P) with
      | Some (p', s') =>
          Some {| goroutines :=
                    <[i := {| receiver := receiver g; at_pc := p' |}]> (goroutines P);
                  mutexes := fun k => if decide (k = receiver g) then mutex s'
                                      else mutexes P k;
                  world := s' |}
      | None => None
      end
  | None => None
  end.

Definition moves (P P' : process) : Prop := exists i, process_step i P = Some P'.

(** The goroutines are run in the order the schedule gives; one that
    cannot move is passed over. *)
Fixpoint play (sched : list nat) (P : process) : process :=
  match sched with
  | [] => P
  | i :: sched' =>
      match process_step i P with
      | Some P' => play sched' P'
      | None => play sched' P
      end
  end.

(** One goroutine for each receiver of the list, none started, every
    mutex free. *)
Definition start (receivers : list nat) (s : State) : process :=
  {| goroutines := (fun k => {| receiver := k; at_pc := Start |}) <$> receivers;
     mutexes := fun _ => false;
     world := s |}.

Definition pcs (P : process) : list pc := at_pc <$> goroutines P.

(** The process as the [Yobit] value [k] sees it. *)
Definition flat (k : nat) (P : process) : system := (pcs P, seen_by k P).

(** Every goroutine calls on the [Yobit] value [k]. *)
Definition all_on (k : nat) (P : process) : Prop :=
  Forall (fun g => receiver g = k) (goroutines P).

(** What a goroutine that is done has made of its call. *)
Definition outcome_at (p : pc) (s : State) : option (outcome Z) :=
  match p with
  | Returned nonce => Some (Ret nonce s)
  | Panicked e => Some (Panic e s)
  | _ => None
  end.

(** *** The steps of [readNonce] *)

(** The state [CreateNonceFileIfNotExists] leaves when it creates the file. *)
Definition created (s : State) : State :=
  set_files (<[nonceFile := list_byte_of_string "1"]> (files s)) s.

(** The state after [os.Create] has made the file. *)
Definition emptied (s : State) : State :=
  set_files (<[nonceFile := []]> (files s)) s.

(** The error and the state of a write that fails: the file could not be
    opened and is as it was, or it holds what went in before the error. *)
Definition failed_write (path : string) (data : list byte) (s : State) : error * State :=
  if writable path s
  then (PathError "write" path, set_files (<[path := cut_short data s]> (files s)) s)
  else (PathError "open" path, s).

(** What [readNonce] does after the file is known to be there. *)
Definition read_existing (data : list byte) (s : State) : outcome Z :=
  if may_read s then
    match strconv_ParseUint (string_of_list_byte data) with
    | inl nonce => Ret nonce s
    | inr conErr => Panic conErr s
    end
  else Panic (ErrorString "nonce file read error") s.

(** *** States used as examples *)

(** No nonce file, the file may be created and read, but not written. *)
Definition unwritable_state : State :=
  {| files := ∅; may_stat := true; may_create := true; may_read := true;
     may_write := false; file_limit := None; mutex := false; wire := [];
     server := no_server |}.

(** No nonce file, and it cannot be created. *)
Definition uncreatable_state : State :=
  {| files := ∅; may_stat := true; may_create := false; may_read := true;
     may_write := true; file_limit := None; mutex := false; wire := [];
     server := no_server |}.

(** The nonce file is absent and cannot be set up: its path cannot be
    looked up (nothing is created then), or the file cannot be created,
    or the first write fails. *)
Definition cannot_initialise (s : State) : Prop :=
  files s !! nonceFile = None
  /\ (may_stat s = false \/ may_create s = false \/ may_write s = false
      \/ fits (list_byte_of_string "1") s = false).

(** *** The form body, as a list of pairs *)

(** The pairs of a form in the order [Values.Encode] writes them: by key,
    the values of one key in the order they were added. *)
Definition Values_pairs (v : gmap string (list string)) : list (string * string) :=
  k ← sorted_keys v; pair k <$> v !!! k.

Definition render_pair (p : string * string) : string :=
  (QueryEscape p.1 +:+ "=") +:+ QueryEscape p.2.

(** [a&b&c]. *)
Definition join_amp (l : list string) : string :=
  match l with
  | [] => ""
  | p :: l' => fold_left (fun buf q => (buf +:+ "&") +:+ q) l' p
  end.

Definition args_pairs (args : list CallArg) : list (string * string) :=
  map (fun arg => (name arg, value arg)) args.

Definition by_name (p q : string * string) : Prop := String.le p.1 q.1.

(** One turn of the inner loop of [Values.Encode]. *)
Definition encode_step (buf : string) (p : string * string) : string :=
  (if (0 <? String.length buf)%nat then buf +:+ "&" else buf) +:+ render_pair p.

(** The pairs of the entries of a map, entry by entry. *)
Definition pairs_of_entries (l : list (string * list string)) : list (string * string) :=
  l ≫= fun kv => pair kv.1 <$> kv.2.

(** The form [callPrivate] builds for a nonce. *)
Definition form_of (method : string) (nonce : Z) (args : list CallArg)
  : gmap string (list string) :=
  fold_left (fun form arg => Values_Add form (name arg) (value arg)) args
    {[ "method" := [method]; "nonce" := [strconv_FormatUint nonce] ]}.

(** The request [callPrivate] sends for a nonce. *)
Definition request_of (y : Yobit) (method : string) (nonce : Z) (args : list CallArg) : Request :=
  let encode := Values_Encode (form_of method nonce args) in
  {| Method := "POST"; URL := apiTrade;
     Header :=
       Header_Add
         (Header_Add
            (Header_Add ∅ "Content-type" "application/x-www-form-urlencoded")
            "Key" (Key (credential y)))
         "Sign" (signHmacSha512 (list_byte_of_string (Secret (credential y)))
                   (list_byte_of_string encode));
     Body := encode |}.

(** A credential and a call used as examples. *)
Definition example_yobit : Yobit := {| credential := {| Key := "zzz"; Secret := "abc" |} |}.

Definition example_args : list CallArg :=
  [ {| name := "pair"; value := "ltc_btc" |};
    {| name := "type"; value := "buy" |};
    {| name := "rate"; value := "0.10000000" |};
    {| name := "amount"; value := "1.00000000" |} ].

(** The body [{"success":0,"error":"invalid nonce"}] of the exchange. *)
Definition dq : string := String "034" "".

Definition invalid_nonce_body : list byte :=
  list_byte_of_string
    ("{" +:+ dq +:+ "success" +:+ dq +:+ ":0," +:+ dq +:+ "error" +:+ dq +:+ ":"
     +:+ dq +:+ "invalid nonce" +:+ dq +:+ "}").

(** *** What stays true while the goroutines run *)

Definition holds_lock (p : pc) : bool :=
  match p with
  | Locked | HasRead _ | Incremented _ => true
  | Start | Returned _ | Panicked _ => false
  end.

Definition lock_weight (p : pc) : nat := if holds_lock p then 1 else 0.

(** The nonce a goroutine has written to the file, once it has. *)
Definition has_written (p : pc) : option Z :=
  match p with
  | Incremented nonce | Returned nonce => Some nonce
  | _ => None
  end.

(** The steps a goroutine still has to take. *)
Definition remaining (p : pc) : nat :=
  match p with
  | Start => 4
  | Locked => 3
  | HasRead _ => 2
  | Incremented _ => 1
  | Returned _ | Panicked _ => 0
  end.

(** The [k] values that follow [v0], as uint64. *)
Definition nonces_from (v0 : Z) (k : nat) : list Z :=
  (fun i => wrap64 (v0 + i)) <$> seqZ 1 (Z.of_nat k).

Definition thread_ok (c : Z) (p : pc) : Prop :=
  match p with
  | HasRead nonce => nonce = c
  | Panicked _ => False
  | _ => True
  end.

(** With [v0] the value stored at the start: the file operations stay
    allowed; the mutex is locked exactly when one goroutine is between
    [Lock] and [Unlock]; the file holds [v0] plus the number of goroutines
    that have written; what they wrote are the values that follow [v0];
    a goroutine that has read holds the value of the file. *)
Record Inv (v0 : Z) (sys : system) : Prop := {
  inv_io : io_ok sys.2;
  inv_lock : sum_list_with lock_weight sys.1 = if mutex sys.2 then 1%nat else 0%nat;
  inv_counter :
    counter sys.2 = Some (wrap64 (v0 + Z.of_nat (length (omap has_written sys.1))));
  inv_written :
    omap has_written sys.1 ≡ₚ nonces_from v0 (length (omap has_written sys.1));
  inv_threads :
    Forall (thread_ok (wrap64 (v0 + Z.of_nat (length (omap has_written sys.1))))) sys.1;
}.

(** * Further definitions

    What the statements on the rest of the package speak of. *)

(** ** Reading a form body back

    The inverse of [QueryEscape] and of the writing of pairs, to state
    that a body tells its pairs. *)

Fixpoint QueryUnescape (s : string) : string :=
  match s with
  | EmptyString => EmptyString
  | String c r =>
      if bool_decide (c = "+"%char) then String " " (QueryUnescape r)
      else if bool_decide (c = "%"%char) then
        match r with
        | String a (String b r') =>
            match hex_value a, hex_value b with
            | Some x, Some y => String (char_of (x * 16 + y)) (QueryUnescape r')
            | _, _ => String c (QueryUnescape r)
            end
        | _ => String c (QueryUnescape r)
        end
      else String c (QueryUnescape r)
  end.

(** The text before the first [sep], and the text after it if there is
    one. *)
Fixpoint cut (sep : ascii) (s : string) : string * option string :=
  match s with
  | EmptyString => (EmptyString, None)
  | String c r =>
      if bool_decide (c = sep) then (EmptyString, Some r)
      else let '(a, b) := cut sep r in (String c a, b)
  end.

(** The texts between the occurrences of [sep]. *)
Fixpoint split (sep : ascii) (s : string) : list string :=
  match s with
  | EmptyString => [EmptyString]
  | String c r =>
      if bool_decide (c = sep) then EmptyString :: split sep r
      else match split sep r with
           | x :: l => String c x :: l
           | [] => [String c EmptyString]
           end
  end.

Definition decode_pair (part : string) : string * string :=
  let '(k, v) := cut "=" part in (QueryUnescape k, QueryUnescape (default EmptyString v)).

Definition decode_form (body : string) : list (string * string) :=
  match body with
  | EmptyString => []
  | _ => decode_pair <$> split "&" body
  end.

Definition has_char (c : ascii) (s : string) : bool :=
  existsb (fun x => bool_decide (x = c)) (list_ascii_of_string s).

(** The characters [QueryEscape] writes. *)
Definition is_escaped_char (c : ascii) : bool :=
  is_alnum c || bool_decide (c ∈ ["-"; "_"; "."; "~"; "%"; "+"]%char).

(** The characters of a form body: those of [QueryEscape], [&] and [=]. *)
Definition is_body_char (c : ascii) : bool :=
  is_escaped_char c || bool_decide (c ∈ ["&"; "="]%char).

Definition name_is (k : string) (p : string * string) : Prop := p.1 = k.

#[export] Instance name_is_dec k p : Decision (name_is k p).
Proof. unfold name_is. apply _. Defined.

(** ** The fields of [ErrorResponse], by their JSON names *)

Definition ErrorResponse_fields : list (field ErrorResponse) :=
  [ ("success", into Success set_Success (decode_uint 8 "uint8"));
    ("error", into Error set_Error decode_string) ].

(** Whether a key of a JSON object is taken for a field of [ErrorResponse]:
    it is the name of one, or equals it when case is folded. *)
Definition names_ErrorResponse_field (key : string) : bool :=
  bool_decide (key = "success") || equalFoldRight "success" key
  || bool_decide (key = "error") || simpleLetterEqualFold "error" key.

(** The body [{"ltc_btc":7}]: an object whose one member is no ticker. *)
Definition not_a_ticker_body : list byte :=
  list_byte_of_string ("{" +:+ dq +:+ "ltc_btc" +:+ dq +:+ ":7}").

(** ** strings *)

(** [strings.Join(elems, sep)]. *)
Definition strings_Join (elems : list string) (sep : string) : string :=
  match elems with
  | [] => ""
  | e :: elems' => fold_left (fun b s => (b +:+ sep) +:+ s) elems' e
  end.

(** ** The public API

    A call hands its result to the channel it was given; here the result
    is what the call returns.  The time measured and the line logged are
    left out. *)

Record TickerInfoResponse := { Tickers : gmap string Ticker }.

Section public_api.

(** [net/url] is not embedded.  Of [url.Parse] two things are used:
    whether it accepts a text ([url_parses]), the one way
    [http.NewRequest] fails for a [GET] without body, and the text that
    [String] writes for the address it has read ([url_String]), which is
    the address of the request; it need not be the text given, since
    what is not in its normal form is written anew. *)
Variable url_parses : string -> bool.
Variable url_String : string -> string.

(** [http.NewRequest("GET", url, nil)]. *)
Definition http_NewRequest_GET (url : string) : Request + error :=
  if url_parses url
  then inl {| Method := "GET"; URL := url_String url; Header := ∅; Body := "" |}
  else inr (ErrorString ("NewRequest: parse " +:+ url)).

Definition callPublic (y : Yobit) (url : string) : M (list byte) :=
  match http_NewRequest_GET url with
  | inr err => fatal err
  | inl req => query y req
  end.

Definition Tickers24 (y : Yobit) (pairs : list string) : M TickerInfoResponse :=
  (if (length pairs =? 0)%nat
   then fatal (ErrorString "Tickers24: Tickers list is empty")
   else mret tt);;
  let pairsLine := strings_Join pairs "-" in
  let ticker24Url := ((apiBase +:+ ApiVersion) +:+ "/ticker/") +:+ pairsLine in
  response ← callPublic y ticker24Url;
  let '(pTicker, err) := unmarshal response (∅ : gmap string Ticker) in
  (match err with
   | Some e => fatal e
   | None => mret tt
   end);;
  mret {| Tickers := pTicker |}.

End public_api.

(** ** The objects of the trade API *)

(** [int], of 64 bits, from a literal. *)
Definition decode_int (j : json) (v : Z) : Z * option error :=
  match j with
  | JNull => (v, None)
  | JNumber lit =>
      let '(neg, digits) :=
        match lit with
        | String "-" r => (true, r)
        | _ => (false, lit)
        end in
      match strconv_ParseUint digits with
      | inl n =>
          if neg then (if n <=? 2 ^ 63 then (- n, None) else number_error lit "int" v)
          else (if n <? 2 ^ 63 then (n, None) else number_error lit "int" v)
      | inr _ => number_error lit "int" v
      end
  | _ => type_error j "int" v
  end.

Definition decode_funds : json -> gmap string float64 -> gmap string float64 * option error :=
  decode_map "map[string]float64" zero_float64.

Module GetInfoReturn.

Record t := {
  Rights : gmap string Z;                  (* map[string]uint8 *)
  Funds : gmap string float64;
  FundsIncludeOrders : gmap string float64;
  TransactionCount : Z;                    (* int *)
  OpenOrders : Z;                          (* int *)
  ServerTime : Z;                          (* int64 *)
}.

Definition zero : t :=
  {| Rights := ∅; Funds := ∅; FundsIncludeOrders := ∅; TransactionCount := 0;
     OpenOrders := 0; ServerTime := 0 |}.

Definition fields : list (field t) :=
  [ ("rights", into Rights (fun x r => {| Rights := x; Funds := Funds r;
       FundsIncludeOrders := FundsIncludeOrders r; TransactionCount := TransactionCount r;
       OpenOrders := OpenOrders r; ServerTime := ServerTime r |})
       (@decode_map Z (decode_uint 8 "uint8") "map[string]uint8" 0));
    ("funds", into Funds (fun x r => {| Rights := Rights r; Funds := x;
       FundsIncludeOrders := FundsIncludeOrders r; TransactionCount := TransactionCount r;
       OpenOrders := OpenOrders r; ServerTime := ServerTime r |}) decode_funds);
    ("funds_incl_orders", into FundsIncludeOrders (fun x r => {| Rights := Rights r;
       Funds := Funds r; FundsIncludeOrders := x; TransactionCount := TransactionCount r;
       OpenOrders := OpenOrders r; ServerTime := ServerTime r |}) decode_funds);
    ("transaction_count", into TransactionCount (fun x r => {| Rights := Rights r;
       Funds := Funds r; FundsIncludeOrders := FundsIncludeOrders r; TransactionCount := x;
       OpenOrders := OpenOrders r; ServerTime := ServerTime r |}) decode_int);
    ("open_orders", into OpenOrders (fun x r => {| Rights := Rights r; Funds := Funds r;
       FundsIncludeOrders := FundsIncludeOrders r; TransactionCount := TransactionCount r;
       OpenOrders := x; ServerTime := ServerTime r |}) decode_int);
    ("server_time", into ServerTime (fun x r => {| Rights := Rights r; Funds := Funds r;
       FundsIncludeOrders := FundsIncludeOrders r; TransactionCount := TransactionCount r;
       OpenOrders := OpenOrders r; ServerTime := x |}) decode_int64) ].

End GetInfoReturn.

Module GetInfoResponse.

Record t := {
  Success : Z;     (* uint8 *)
  Error : string;
  Data : GetInfoReturn.t;
}.

Definition zero : t := {| Success := 0; Error := ""; Data := GetInfoReturn.zero |}.

Definition fields : list (field t) :=
  [ ("success", into Success (fun x r => {| Success := x; Error := Error r; Data := Data r |})
       (decode_uint 8 "uint8"));
    ("error", into Error (fun x r => {| Success := Success r; Error := x; Data := Data r |})
       decode_string);
    ("return", into Data (fun x r => {| Success := Success r; Error := Error r; Data := x |})
       (decode_struct "yobit.GetInfoReturn" GetInfoReturn.fields)) ].

#[global] Instance Decode_t : Decode t := decode_struct "yobit.GetInfoResponse" fields.

End GetInfoResponse.

Module CancelResult.

Record t := {
  OrderId : Z;     (* uint64 *)
  Funds : gmap string float64;
}.

Definition zero : t := {| OrderId := 0; Funds := ∅ |}.

Definition fields : list (field t) :=
  [ ("order_id", into OrderId (fun x r => {| OrderId := x; Funds := Funds r |})
       (decode_uint 64 "uint64"));
    ("funds", into Funds (fun x r => {| OrderId := OrderId r; Funds := x |}) decode_funds) ].

End CancelResult.

Module CancelOrderResponse.

Record t := {
  Success : Z;     (* uint8 *)
  Error : string;
  Result : CancelResult.t;
}.

Definition zero : t := {| Success := 0; Error := ""; Result := CancelResult.zero |}.

Definition fields : list (field t) :=
  [ ("success", into Success (fun x r => {| Success := x; Error := Error r;
       Result := Result r |}) (decode_uint 8 "uint8"));
    ("error", into Error (fun x r => {| Success := Success r; Error := x;
       Result := Result r |}) decode_string);
    ("return", into Result (fun x r => {| Success := Success r; Error := Error r;
       Result := x |}) (decode_struct "yobit.CancelResult" CancelResult.fields)) ].

#[global] Instance Decode_t : Decode t := decode_struct "yobit.CancelOrderResponse" fields.

End CancelOrderResponse.

Module HistoricOrder.

Record t := {
  Pair : string;
  Type_ : string;
  Amount : float64;
  Rate : float64;
  OrderId : string;
  IsYourOrder : Z; (* uint8 *)
  Timestamp : string;
}.

Definition zero : t :=
  {| Pair := ""; Type_ := ""; Amount := zero_float64; Rate := zero_float64; OrderId := "";
     IsYourOrder := 0; Timestamp := "" |}.

Definition fields : list (field t) :=
  [ ("pair", into Pair (fun x r => {| Pair := x; Type_ := Type_ r; Amount := Amount r;
       Rate := Rate r; OrderId := OrderId r; IsYourOrder := IsYourOrder r;
       Timestamp := Timestamp r |}) decode_string);
    ("type", into Type_ (fun x r => {| Pair := Pair r; Type_ := x; Amount := Amount r;
       Rate := Rate r; OrderId := OrderId r; IsYourOrder := IsYourOrder r;
       Timestamp := Timestamp r |}) decode_string);
    ("amount", into Amount (fun x r => {| Pair := Pair r; Type_ := Type_ r; Amount := x;
       Rate := Rate r; OrderId := OrderId r; IsYourOrder := IsYourOrder r;
       Timestamp := Timestamp r |}) decode);
    ("rate", into Rate (fun x r => {| Pair := Pair r; Type_ := Type_ r; Amount := Amount r;
       Rate := x; OrderId := OrderId r; IsYourOrder := IsYourOrder r;
       Timestamp := Timestamp r |}) decode);
    ("order_id", into OrderId (fun x r => {| Pair := Pair r; Type_ := Type_ r;
       Amount := Amount r; Rate := Rate r; OrderId := x; IsYourOrder := IsYourOrder r;
       Timestamp := Timestamp r |}) decode_string);
    ("is_your_order", into IsYourOrder (fun x r => {| Pair := Pair r; Type_ := Type_ r;
       Amount := Amount r; Rate := Rate r; OrderId := OrderId r; IsYourOrder := x;
       Timestamp := Timestamp r |}) (decode_uint 8 "uint8"));
    ("timestamp", into Timestamp (fun x r => {| Pair := Pair r; Type_ := Type_ r;
       Amount := Amount r; Rate := Rate r; OrderId := OrderId r;
       IsYourOrder := IsYourOrder r; Timestamp := x |}) decode_string) ].

#[global] Instance Decode_t : Decode t := decode_struct "yobit.HistoricOrder" fields.

End HistoricOrder.

Module TradeHistoryResponse.

Record t := {
  Success : Z;     (* uint8 *)
  Error : string;
  Orders : gmap string HistoricOrder.t;
}.

Definition zero : t := {| Success := 0; Error := ""; Orders := ∅ |}.

Definition fields : list (field t) :=
  [ ("success", into Success (fun x r => {| Success := x; Error := Error r;
       Orders := Orders r |}) (decode_uint 8 "uint8"));
    ("error", into Error (fun x r => {| Success := Success r; Error := x;
       Orders := Orders r |}) decode_string);
    ("return", into Orders (fun x r => {| Success := Success r; Error := Error r;
       Orders := x |}) (decode_map "map[string]yobit.HistoricOrder" HistoricOrder.zero)) ].

#[global] Instance Decode_t : Decode t := decode_struct "yobit.TradeHistoryResponse" fields.

End TradeHistoryResponse.

(** ** The private trade API *)

Definition GetInfo (y : Yobit) : M GetInfoResponse.t :=
  response ← callPrivate y "getInfo" [];
  let '(getInfoResp, err) := unmarshal response GetInfoResponse.zero in
  (match err with
   | Some e => fatal e
   | None => mret tt
   end);;
  (if GetInfoResponse.Success getInfoResp =? 0
   then fatal (ErrorString (GetInfoResponse.Error getInfoResp))
   else mret tt);;
  mret getInfoResp.

Definition CancelOrder (y : Yobit) (orderId : string) : M CancelOrderResponse.t :=
  response ← callPrivate y "CancelOrder" [ {| name := "order_id"; value := orderId |} ];
  let '(cancelResponse, err) := unmarshal response CancelOrderResponse.zero in
  (match err with
   | Some e => fatal e
   | None => mret tt
   end);;
  (if CancelOrderResponse.Success cancelResponse =? 0
   then fatal (ErrorString (CancelOrderResponse.Error cancelResponse))
   else mret tt);;
  mret cancelResponse.

Definition TradeHistory (y : Yobit) (pair : string) : M TradeHistoryResponse.t :=
  response ← callPrivate y "TradeHistory"
               [ {| name := "pair"; value := pair |};
                 {| name := "count"; value := "1000" |} ];
  let '(tradeHistory, err) := unmarshal response TradeHistoryResponse.zero in
  (match err with
   | Some e => fatal e
   | None => mret tt
   end);;
  (if TradeHistoryResponse.Success tradeHistory =? 0
   then fatal (ErrorString (TradeHistoryResponse.Error tradeHistory))
   else mret tt);;
  mret tradeHistory.

(** What every call of the trade API does with the decoded response: a
    decoding error ends the process, and so does a response whose
    [success] is 0, with its [error] as the text. *)
Definition deliver {T} (success : T -> Z) (error_of : T -> string) (r : T * option error)
  : M T :=
  fun s =>
    match r with
    | (_, Some e) => Exit e s
    | (x, None) => if success x =? 0 then Exit (ErrorString (error_of x)) s else Ret x s
    end.

(** The members of the body [{"success":0,"error":msg}]. *)
Definition error_members (msg : string) : list (string * json) :=
  [ ("success", JNumber "0"); ("error", JString msg) ].

(** A state whose nonce file holds [text] and whose transport answers
    every request with status [code] and [body]. *)
Definition state_answering (text : string) (code : Z) (body : list byte) : State :=
  {| files := {[ nonceFile := list_byte_of_string text ]};
     may_stat := true; may_create := true; may_read := true; may_write := true;
     file_limit := None; mutex := false; wire := [];
     server := fun _ => Some (code, body) |}.

Definition quoted (s : string) : string := (dq +:+ s) +:+ dq.

(** The body [{"success":1,"return":{"funds":{"btc":0.5},"open_orders":1}}]. *)
Definition funds_body : list byte :=
  list_byte_of_string
    ("{" +:+ quoted "success" +:+ ":1," +:+ quoted "return" +:+ ":{" +:+ quoted "funds"
     +:+ ":{" +:+ quoted "btc" +:+ ":0.5}," +:+ quoted "open_orders" +:+ ":1}}").

(** The request [callPublic] hands to the client for an address [u]: a
    [GET] on which the package has set no header and no body. *)
Definition GET_request (u : string) : Request :=
  {| Method := "GET"; URL := u; Header := ∅; Body := "" |}.

(** A state whose nonce store is out of use (the mutex is held, no file
    may be looked up, created, read or written) and whose transport answers every
    request with status 200 and [{"success":0,"error":"invalid nonce"}]. *)
Definition refusing_state : State :=
  {| files := ∅; may_stat := false; may_create := false; may_read := false;
     may_write := false; file_limit := None; mutex := true; wire := [];
     server := fun _ => Some (StatusOK, invalid_nonce_body) |}.

(** ** [Offer] and its decoder *)

Record Offer := { Price : float64; Quantity : float64 }.

Definition set_Price (x : float64) (n : Offer) : Offer :=
  {| Price := x; Quantity := Quantity n |}.
Definition set_Quantity (x : float64) (n : Offer) : Offer :=
  {| Price := Price n; Quantity := x |}.

(** [tmp] of [UnmarshalJSON], a [[]interface{}] whose first two elements
    point to the fields of the offer: what is kept of it is the offer
    and the length of the slice. *)
Definition pointers : Type := Offer * nat.

(** A value decoded into an empty [interface{}]: every JSON value has
    a Go value, but for a number beyond the range of [float64]. *)
Fixpoint interface_error (j : json) : option error :=
  match j with
  | JNumber lit =>
      if overflows_float64 lit
      then Some (UnmarshalTypeError ("number " +:+ lit) "float64")
      else None
  | JArray l =>
      (fix elements (l : list json) : option error :=
         match l with
         | [] => None
         | x :: l' => first_error (interface_error x) (elements l')
         end) l
  | JObject m =>
      (fix members (m : list (string * json)) : option error :=
         match m with
         | [] => None
         | (_, x) :: m' => first_error (interface_error x) (members m')
         end) m
  | _ => None
  end.

(** The elements of an array go to the elements of the slice in turn: the
    first two through the pointers into the fields, as any [float64] is
    decoded; the slice grows by a value of its own for each further
    one. *)
Fixpoint decode_elements (i : nat) (l : list json) (n : Offer) : Offer * option error :=
  match l with
  | [] => (n, None)
  | j :: l' =>
      let '(n, e) :=
        match i with
        | 0%nat => into Price set_Price decode j n
        | 1%nat => into Quantity set_Quantity decode j n
        | _ => (n, interface_error j)
        end in
      let '(n, e') := decode_elements (S i) l' n in
      (n, first_error e e')
  end.

(** [null] makes the slice [nil]; an array leaves it as long as the array
    is. *)
#[export] Instance Decode_pointers : Decode pointers := fun j tmp =>
  match j with
  | JNull => ((tmp.1, 0%nat), None)
  | JArray l => let '(n, e) := decode_elements 0 l tmp.1 in ((n, length l), e)
  | _ => type_error j "[]interface {}" tmp
  end.

Definition Offer_UnmarshalJSON (buf : list byte) (n : Offer) : Offer * option error :=
  let tmp : pointers := (n, 2%nat) in
  let wantLen := tmp.2 in
  let '(tmp, err) := json_Unmarshal buf tmp in
  match err with
  | Some err => (tmp.1, Some err)
  | None =>
      let g := tmp.2 in
      let e := wantLen in
      if negb (g =? e)%nat
      then (tmp.1, Some (ErrorString ("wrong number of fields in Order: "
                                      +:+ strconv_FormatUint (Z.of_nat g) +:+ " != "
                                      +:+ strconv_FormatUint (Z.of_nat e))))
      else (tmp.1, None)
  end.

(** What a number or [null] does to a field: a number within the range
    of [float64] replaces it, [null] leaves it. *)
Definition field_after (j : json) (old new : float64) : Prop :=
  match j with
  | JNumber lit => overflows_float64 lit = false /\ new = Float64 lit
  | JNull => new = old
  | _ => False
  end.

Definition zero_Offer : Offer := {| Price := zero_float64; Quantity := zero_float64 |}.

(** Arguments whose values hold a space and the characters [&=/~+]. *)
Definition awkward_args : list CallArg :=
  [ {| name := "pair"; value := "ltc btc" |};
    {| name := "memo"; value := "a&b=c/d~e+f" |} ].

(** [n] arrays inside one another: [[[...]]]. *)
Fixpoint brackets (c : ascii) (n : nat) (rest : string) : string :=
  match n with
  | O => rest
  | S n' => String c (brackets c n' rest)
  end.

Definition nested (n : Z) : string :=
  brackets "[" (Z.to_nat n) (brackets "]" (Z.to_nat n) "").

Definition accepted (s : string) : bool :=
  match parse_json s with
  | Some _ => true
  | None => false
  end.

Definition empty_error (e : option error) : bool :=
  match e with
  | Some (ErrorString "") => true
  | _ => false
  end.

(** The least whole number that is beyond the range of [float64]. *)
Definition first_beyond_float64 : string :=
  "179769313486231580793728971405303415079934132710037826936173778980444968292764750946649017977587207096330286416692887910946555547851940402630657488671505820681908902000708383676273854845817711531764475730270069855571366959622842914819860834936475292719074168444365510704342711559699508093042880177904174497792".

(** * Proofs *)

(** ** Numbers and their decimal text *)

Lemma wrap64_small z : 0 <= z < uint64_modulus -> wrap64 z = z.
Proof. intros Hz. unfold wrap64. apply Z.mod_small. exact Hz. Qed.

Lemma wrap64_range z : 0 <= wrap64 z < uint64_modulus.
Proof. unfold wrap64. apply Z.mod_pos_bound. reflexivity. Qed.

Lemma code_char_of z : 0 <= z < 256 -> code (char_of z) = z.
Proof.
  intros Hz. unfold code, char_of.
  rewrite N_ascii_embedding by lia. lia.
Qed.

Lemma parseUint_loop_digit d s n :
  0 <= d <= 9 -> 0 <= n -> n * 10 + d <= maxUint64 ->
  parseUint_loop (String (char_of (code "0"%char + d)) s) n = parseUint_loop s (n * 10 + d).
Proof.
  intros Hd Hn Hmax. cbn [parseUint_loop].
  change (code "0"%char) with 48. change (code "9"%char) with 57.
  rewrite code_char_of by lia.
  assert (Hc : cutoff = 1844674407370955162) by reflexivity.
  assert (Hm : maxUint64 = 18446744073709551615) by reflexivity.
  assert (Hu : uint64_modulus = 18446744073709551616) by reflexivity.
  replace (48 <=? 48 + d) with true by (symmetry; apply Z.leb_le; lia).
  replace (48 + d <=? 57) with true by (symmetry; apply Z.leb_le; lia).
  cbn [andb].
  replace (cutoff <=? n) with false by (symmetry; apply Z.leb_gt; lia).
  rewrite (wrap64_small (n * 10)) by lia.
  replace (48 + d - 48) with d by lia.
  rewrite (wrap64_small (n * 10 + d)) by lia.
  replace (n * 10 + d <? n * 10) with false by (symmetry; apply Z.ltb_ge; lia).
  replace (maxUint64 <? n * 10 + d) with false by (symmetry; apply Z.ltb_ge; lia).
  reflexivity.
Qed.

Lemma formatBits_parse fuel : forall u acc,
  0 <= u < 10 ^ Z.of_nat fuel -> u <= maxUint64 ->
  parseUint_loop (formatBits fuel u acc) 0 = parseUint_loop acc u.
Proof.
  induction fuel as [|fuel IH]; intros u acc Hu Hmax.
  - cbn in Hu. assert (u = 0) by lia. subst u. reflexivity.
  - cbn [formatBits].
    assert (Hd : 0 <= u mod 10 <= 9) by (pose proof (Z.mod_pos_bound u 10); lia).
    assert (Hq : 0 <= u / 10) by (apply Z.div_pos; lia).
    assert (Hdm : u = 10 * (u / 10) + u mod 10) by (apply Z.div_mod; lia).
    destruct (u / 10 =? 0) eqn:E.
    + apply Z.eqb_eq in E.
      rewrite parseUint_loop_digit by (cbn; lia).
      f_equal. lia.
    + apply Z.eqb_neq in E.
      rewrite IH.
      * rewrite parseUint_loop_digit by lia. f_equal. lia.
      * split; [lia|].
        rewrite Nat2Z.inj_succ, Z.pow_succ_r in Hu by lia.
        apply Z.div_lt_upper_bound; lia.
      * lia.
Qed.

Lemma formatBits_nonempty fuel u acc :
  exists c s, formatBits (S fuel) u acc = String c s.
Proof.
  revert u acc. induction fuel as [|fuel IH]; intros u acc.
  - cbn. destruct (u / 10 =? 0); eauto.
  - cbn [formatBits]. destruct (u / 10 =? 0); [eauto|]. apply IH.
Qed.

(** The text [FormatUint] writes is read back by [ParseUint] as the same
    number. *)
Lemma ParseUint_FormatUint u :
  0 <= u <= maxUint64 -> strconv_ParseUint (strconv_FormatUint u) = inl u.
Proof.
  intros Hu. unfold strconv_FormatUint, strconv_ParseUint.
  destruct (formatBits_nonempty 19 u "") as (c & s & E).
  rewrite E, <- E.
  rewrite formatBits_parse.
  - reflexivity.
  - split; [lia|]. assert (maxUint64 < 10 ^ Z.of_nat 20) by reflexivity. lia.
  - lia.
Qed.

Lemma parseUint_loop_range t : forall a n,
  0 <= a <= maxUint64 -> parseUint_loop t a = inl n -> 0 <= n <= maxUint64.
Proof.
  induction t as [|c t IH]; intros a n Ha; cbn [parseUint_loop].
  - intros [= <-]. exact Ha.
  - destruct ((code "0"%char <=? code c) && (code c <=? code "9"%char)); [|discriminate].
    destruct (cutoff <=? a); [discriminate|].
    destruct ((wrap64 (wrap64 (a * 10) + (code c - code "0"%char)) <? wrap64 (a * 10))
              || (maxUint64 <? wrap64 (wrap64 (a * 10) + (code c - code "0"%char))));
      [discriminate|].
    apply IH. pose proof (wrap64_range (wrap64 (a * 10) + (code c - code "0"%char))).
    unfold maxUint64. lia.
Qed.

Lemma ParseUint_range s v : strconv_ParseUint s = inl v -> 0 <= v <= maxUint64.
Proof.
  unfold strconv_ParseUint. destruct s as [|c s]; [discriminate|].
  destruct (parseUint_loop (String c s) 0) as [n|e] eqn:E; [|discriminate].
  intros [= <-]. apply (parseUint_loop_range (String c s) 0 n); [|exact E].
  split; [lia|discriminate].
Qed.

(** ** The nonce store, one call *)

Lemma files_set_files f s : files (set_files f s) = f.
Proof. reflexivity. Qed.

Lemma set_mutex_set_mutex a b s : set_mutex a (set_mutex b s) = set_mutex a s.
Proof. reflexivity. Qed.

Lemma set_files_set_mutex f b s : set_files f (set_mutex b s) = set_mutex b (set_files f s).
Proof. reflexivity. Qed.

Lemma counter_set_mutex b s : counter (set_mutex b s) = counter s.
Proof. reflexivity. Qed.

Lemma counter_write u s :
  0 <= u <= maxUint64 ->
  counter (set_files (<[nonceFile := list_byte_of_string (strconv_FormatUint u)]> (files s)) s)
  = Some u.
Proof.
  intros Hu. unfold counter. rewrite files_set_files, lookup_insert_eq.
  rewrite string_of_list_byte_of_string, ParseUint_FormatUint by exact Hu.
  reflexivity.
Qed.

(** What a failed write keeps. *)
Lemma failed_write_frame path data s :
  let s' := (failed_write path data s).2 in
  mutex s' = mutex s /\ may_stat s' = may_stat s /\ may_create s' = may_create s
  /\ may_read s' = may_read s /\ may_write s' = may_write s
  /\ file_limit s' = file_limit s /\ wire s' = wire s /\ server s' = server s.
Proof.
  cbn zeta. unfold failed_write.
  destruct (writable path s); cbn; repeat split; reflexivity.
Qed.

Lemma failed_write_files path data s :
  let s' := (failed_write path data s).2 in
  (forall q, q <> path -> files s' !! q = files s !! q)
  /\ (s' = s \/ (writable path s = true /\ files s' !! path = Some (cut_short data s))).
Proof.
  cbn zeta. unfold failed_write.
  destruct (writable path s); cbn [snd].
  - split.
    + intros q Hq. cbn. apply lookup_insert_ne. congruence.
    + right. split; [reflexivity|]. cbn. apply lookup_insert_eq.
  - split; [reflexivity|left; reflexivity].
Qed.

Lemma failed_write_set_mutex path data b s :
  failed_write path data (set_mutex b s)
  = ((failed_write path data s).1, set_mutex b (failed_write path data s).2).
Proof.
  unfold failed_write, writable, openable, cut_short.
  cbn [files set_mutex may_create may_write file_limit].
  destruct (may_write s && (bool_decide (is_Some (files s !! path)) || may_create s));
    reflexivity.
Qed.

(** The decimal text of a number has at most twenty digits. *)
Lemma formatBits_length fuel : forall u acc,
  (String.length (formatBits fuel u acc) <= fuel + String.length acc)%nat.
Proof.
  induction fuel as [|fuel IH]; intros u acc; cbn [formatBits].
  - lia.
  - cbv zeta. destruct (u / 10 =? 0).
    + cbn [String.length]. lia.
    + etransitivity; [apply IH|]. cbn [String.length]. lia.
Qed.

Lemma length_list_byte_of_string (str : string) :
  length (list_byte_of_string str) = String.length str.
Proof. induction str as [|c str IH]; cbn; [reflexivity|f_equal; exact IH]. Qed.

Lemma fits_uint64 u s :
  holds_uint64 s -> fits (list_byte_of_string (strconv_FormatUint u)) s = true.
Proof.
  unfold holds_uint64, fits. destruct (file_limit s) as [n|]; [|reflexivity].
  intros Hn. apply Nat.leb_le. rewrite length_list_byte_of_string.
  pose proof (formatBits_length 20 u "") as L. cbn [String.length] in L.
  unfold strconv_FormatUint. lia.
Qed.

Lemma fits_one s : holds_uint64 s -> fits (list_byte_of_string "1") s = true.
Proof.
  unfold holds_uint64, fits. destruct (file_limit s) as [n|]; [|reflexivity].
  intros Hn. apply Nat.leb_le. cbn. lia.
Qed.

(** A greater number has no shorter a text: where there is room for it,
    there is room for the smaller one. *)
Lemma formatBits_grows fuel : forall u acc,
  (String.length acc <= String.length (formatBits fuel u acc))%nat.
Proof.
  induction fuel as [|fuel IH]; intros u acc; cbn [formatBits].
  - lia.
  - cbv zeta. destruct (u / 10 =? 0).
    + cbn [String.length]. lia.
    + etransitivity; [|apply IH]. cbn [String.length]. lia.
Qed.

Lemma formatBits_length_mono fuel : forall a b acc1 acc2,
  0 <= a <= b -> String.length acc1 = String.length acc2 ->
  (String.length (formatBits fuel a acc1) <= String.length (formatBits fuel b acc2))%nat.
Proof.
  induction fuel as [|fuel IH]; intros a b acc1 acc2 Hab Hacc; cbn [formatBits].
  - lia.
  - cbv zeta.
    assert (Hd : 0 <= a / 10 <= b / 10)
      by (split; [apply Z.div_pos; lia|apply Z.div_le_mono; lia]).
    destruct (a / 10 =? 0) eqn:Ea; destruct (b / 10 =? 0) eqn:Eb.
    + cbn [String.length]. lia.
    + etransitivity; [|apply formatBits_grows]. cbn [String.length]. lia.
    + apply Z.eqb_eq in Eb. apply Z.eqb_neq in Ea. lia.
    + apply IH; [exact Hd|]. cbn [String.length]. lia.
Qed.

Lemma room_for_le a b s : 0 <= a <= b -> room_for b s -> room_for a s.
Proof.
  unfold room_for, fits. intros Hab. destruct (file_limit s) as [n|]; [|reflexivity].
  rewrite !Nat.leb_le, !length_list_byte_of_string. intros Hb.
  etransitivity; [|exact Hb]. unfold strconv_FormatUint.
  apply formatBits_length_mono; [exact Hab|reflexivity].
Qed.

Lemma room_for_frame n s s' : file_limit s' = file_limit s -> room_for n s -> room_for n s'.
Proof. unfold room_for, fits. intros ->. exact id. Qed.

Lemma room_for_holds n s : holds_uint64 s -> room_for n s.
Proof. apply fits_uint64. Qed.

(** [WriteNonce] replaces the contents when the file can be opened for
    writing and has room for the data, and panics otherwise. *)
Lemma WriteNonce_eq data s :
  WriteNonce data s =
    if writable nonceFile s && fits data s
    then Ret tt (set_files (<[nonceFile := data]> (files s)) s)
    else Panic (failed_write nonceFile data s).1 (failed_write nonceFile data s).2.
Proof.
  unfold WriteNonce, ioutil_WriteFile, failed_write, panic, mbind, M_bind, mret, M_ret.
  destruct (writable nonceFile s); [|reflexivity].
  destruct (fits data s); reflexivity.
Qed.

Lemma openable_emptied s : openable nonceFile (emptied s) = true.
Proof.
  unfold openable, emptied. cbn [files set_files]. rewrite lookup_insert_eq.
  rewrite bool_decide_eq_true_2 by eauto. reflexivity.
Qed.

Lemma CreateNonceFileIfNotExists_eq s :
  CreateNonceFileIfNotExists s =
    if may_stat s then
      match files s !! nonceFile with
      | Some _ => Ret tt s
      | None =>
          if may_create s then
            if may_write s && fits (list_byte_of_string "1") s then Ret tt (created s)
            else Panic (failed_write nonceFile (list_byte_of_string "1") (emptied s)).1
                       (failed_write nonceFile (list_byte_of_string "1") (emptied s)).2
          else Panic (PathError "open" nonceFile) s
      end
    else Ret tt s.
Proof.
  unfold CreateNonceFileIfNotExists, os_Stat, os_Create, panic. unfold mbind at 1.
  unfold M_bind at 1.
  destruct (may_stat s); [|reflexivity].
  destruct (files s !! nonceFile) eqn:E; cbn [os_IsNotExist]; [reflexivity|].
  unfold mbind, M_bind.
  destruct (may_create s) eqn:Hc; [|reflexivity].
  fold (emptied s). rewrite WriteNonce_eq. unfold writable.
  rewrite openable_emptied, andb_true_r.
  change (may_write (emptied s)) with (may_write s).
  change (fits (list_byte_of_string "1") (emptied s))
    with (fits (list_byte_of_string "1") s).
  destruct (may_write s && fits (list_byte_of_string "1") s); [|reflexivity].
  unfold created, emptied. cbn [files set_files]. rewrite insert_insert_eq. reflexivity.
Qed.

Lemma readNonce_eq s :
  readNonce s =
    match files s !! nonceFile with
    | Some data => read_existing data s
    | None =>
        if may_stat s then
          if may_create s then
            if may_write s && fits (list_byte_of_string "1") s
            then read_existing (list_byte_of_string "1") (created s)
            else Panic (failed_write nonceFile (list_byte_of_string "1") (emptied s)).1
                       (failed_write nonceFile (list_byte_of_string "1") (emptied s)).2
          else Panic (PathError "open" nonceFile) s
        else Panic (ErrorString "nonce file read error") s
    end.
Proof.
  unfold readNonce. unfold mbind at 1. unfold M_bind.
  rewrite CreateNonceFileIfNotExists_eq.
  assert (Hread : forall data t, files t !! nonceFile = Some data ->
            (r ← ioutil_ReadFile nonceFile;
             match r with
             | inl data0 =>
                 match strconv_ParseUint (string_of_list_byte data0) with
                 | inl nonce => mret nonce
                 | inr conErr => panic conErr
                 end
             | inr _ => panic (ErrorString "nonce file read error")
             end) t = read_existing data t).
  { intros data t Ht. unfold ioutil_ReadFile, read_existing, mbind, M_bind, panic, mret, M_ret.
    rewrite Ht. destruct (may_read t); [|reflexivity].
    destruct (strconv_ParseUint (string_of_list_byte data)); reflexivity. }
  destruct (files s !! nonceFile) eqn:E.
  - destruct (may_stat s); apply Hread; exact E.
  - destruct (may_stat s).
    + destruct (may_create s); [|reflexivity].
      destruct (may_write s && fits (list_byte_of_string "1") s); [|reflexivity].
      apply Hread. unfold created. cbn. apply lookup_insert_eq.
    + unfold ioutil_ReadFile, mbind, M_bind, panic. rewrite E. reflexivity.
Qed.

Lemma incrementNonce_eq nonce s :
  incrementNonce nonce s =
    let n := wrap64 (nonce + 1) in
    let text := list_byte_of_string (strconv_FormatUint n) in
    if writable nonceFile s && fits text s
    then Ret n (set_files (<[nonceFile := text]> (files s)) s)
    else Panic (failed_write nonceFile text s).1 (failed_write nonceFile text s).2.
Proof.
  unfold incrementNonce. unfold mbind, M_bind. rewrite WriteNonce_eq.
  cbn zeta. destruct (writable nonceFile s && fits _ s); reflexivity.
Qed.

Lemma state_eta s :
  {| files := files s; may_stat := may_stat s; may_create := may_create s;
     may_read := may_read s; may_write := may_write s; file_limit := file_limit s;
     mutex := mutex s; wire := wire s; server := server s |} = s.
Proof. destruct s; reflexivity. Qed.

Lemma set_mutex_id s b : mutex s = b -> set_mutex b s = s.
Proof. intros <-. apply state_eta. Qed.

#[local] Arguments strconv_ParseUint : simpl never.
#[local] Arguments strconv_FormatUint : simpl never.
#[local] Arguments parseUint_loop : simpl never.

(** A call with the mutex free, the file operations allowed and a counter
    that parses: it returns the stored value plus one, modulo [2^64], and
    the file then holds the decimal text of the value returned. *)
Lemma GetAndIncrementNonce_ok s v :
  mutex s = false -> io_ok s -> counter s = Some v ->
  GetAndIncrementNonce s =
    Ret (wrap64 (v + 1))
        (set_files (<[nonceFile := list_byte_of_string (strconv_FormatUint (wrap64 (v + 1)))]>
                      (files s)) s).
Proof.
  intros Hm (Hs & Hc & Hr & Hw & Hl) Hv.
  unfold GetAndIncrementNonce, defer, Lock. unfold mbind at 1. unfold M_bind at 1.
  rewrite Hm. unfold mbind at 1. unfold M_bind at 1.
  rewrite readNonce_eq. cbn [files set_mutex may_stat may_create may_write may_read].
  unfold counter in Hv.
  destruct (files s !! nonceFile) as [data|] eqn:E.
  - unfold read_existing. cbn [may_read set_mutex]. rewrite Hr.
    destruct (strconv_ParseUint (string_of_list_byte data)) as [n|e]; [|discriminate].
    injection Hv as ->.
    unfold mbind, M_bind. cbv beta. rewrite (incrementNonce_eq v (set_mutex true s)). cbn zeta.
    rewrite (fits_uint64 _ (set_mutex true s) Hl), andb_true_r.
    unfold writable, openable. cbn [may_write set_mutex files may_create]. rewrite Hw, E.
    rewrite bool_decide_eq_true_2 by eauto. cbn [andb orb].
    unfold mret, M_ret, Unlock. rewrite set_files_set_mutex, set_mutex_set_mutex.
    f_equal. apply set_mutex_id. exact Hm.
  - injection Hv as <-. rewrite Hs, Hc, Hw.
    rewrite (fits_one (set_mutex true s) Hl). cbn [andb].
    unfold read_existing. cbn [may_read created set_files set_mutex]. rewrite Hr.
    rewrite string_of_list_byte_of_string.
    change (strconv_ParseUint "1") with (@inl Z error 1).
    unfold mbind, M_bind. cbv beta iota.
    rewrite (incrementNonce_eq 1 (created (set_mutex true s))). cbn zeta.
    rewrite (fits_uint64 _ (created (set_mutex true s)) Hl), andb_true_r.
    unfold writable, openable. cbn [may_write set_mutex files may_create created set_files].
    rewrite Hw, Hc. rewrite orb_true_r. cbn [andb].
    unfold mret, M_ret, Unlock.
    cbn [set_mutex set_files files may_stat may_create may_read may_write file_limit
         mutex wire server].
    rewrite insert_insert_eq. f_equal.
    change (set_files ?f (set_mutex false s)) with (set_mutex false (set_files f s)).
    destruct s; cbn in *. subst. reflexivity.
Qed.

(** [readNonce] neither reads nor changes the mutex, the wire, the
    permissions. *)
Lemma readNonce_frame s :
  match readNonce s with
  | Ret _ s1 | Panic _ s1 | Exit _ s1 | Blocked s1 =>
      mutex s1 = mutex s /\ may_stat s1 = may_stat s /\ may_create s1 = may_create s
      /\ may_read s1 = may_read s /\ may_write s1 = may_write s
      /\ file_limit s1 = file_limit s /\ wire s1 = wire s /\ server s1 = server s
  end.
Proof.
  rewrite readNonce_eq. unfold read_existing.
  destruct (files s !! nonceFile) as [data|].
  - destruct (may_read s) eqn:Hr; [|cbn; repeat split; congruence].
    destruct (strconv_ParseUint (string_of_list_byte data)); cbn; repeat split; congruence.
  - destruct (may_stat s) eqn:Hs; [|cbn; repeat split; congruence].
    destruct (may_create s) eqn:Hc; [|cbn; repeat split; congruence].
    destruct (may_write s && fits (list_byte_of_string "1") s) eqn:Hw.
    + unfold created. cbn [may_read set_files].
      destruct (may_read s) eqn:Hr; [|cbn; repeat split; congruence].
      rewrite string_of_list_byte_of_string.
      change (strconv_ParseUint "1") with (@inl Z error 1).
      cbn; repeat split; congruence.
    + pose proof (failed_write_frame nonceFile (list_byte_of_string "1") (emptied s)) as F.
      cbn zeta in F. cbn [emptied set_files mutex may_stat may_create may_read may_write
                          file_limit wire server] in F.
      destruct F as (F1 & F2 & F3 & F4 & F5 & F6 & F7 & F8).
      repeat split; congruence.
Qed.

Lemma readNonce_set_mutex b s :
  readNonce (set_mutex b s) =
    match readNonce s with
    | Ret v s1 => Ret v (set_mutex b s1)
    | Panic e s1 => Panic e (set_mutex b s1)
    | Exit e s1 => Exit e (set_mutex b s1)
    | Blocked s1 => Blocked (set_mutex b s1)
    end.
Proof.
  rewrite (readNonce_eq s), (readNonce_eq (set_mutex b s)). unfold read_existing.
  cbn [files set_mutex may_stat may_create may_read may_write].
  change (fits (list_byte_of_string "1") (set_mutex b s))
    with (fits (list_byte_of_string "1") s).
  destruct (files s !! nonceFile) as [data|].
  - destruct (may_read s); [|reflexivity].
    destruct (strconv_ParseUint (string_of_list_byte data)); reflexivity.
  - destruct (may_stat s); [|reflexivity].
    destruct (may_create s); [|reflexivity].
    destruct (may_write s && fits (list_byte_of_string "1") s).
    + cbn. destruct (may_read s); [|reflexivity].
      destruct (strconv_ParseUint _); reflexivity.
    + change (emptied (set_mutex b s)) with (set_mutex b (emptied s)).
      rewrite failed_write_set_mutex. reflexivity.
Qed.

(** When [readNonce] returns, the file is there and holds the text of the
    value returned. *)
Lemma readNonce_Ret s v s1 :
  readNonce s = Ret v s1 ->
  counter s = Some v /\ counter s1 = Some v /\ is_Some (files s1 !! nonceFile)
  /\ may_read s = true.
Proof.
  rewrite readNonce_eq. unfold read_existing, counter.
  destruct (files s !! nonceFile) as [data|] eqn:E.
  - destruct (may_read s); [|discriminate].
    destruct (strconv_ParseUint (string_of_list_byte data)) as [n|e] eqn:P; [|discriminate].
    intros [= -> <-]. rewrite E, P. eauto.
  - destruct (may_stat s); [|discriminate].
    destruct (may_create s); [|discriminate].
    destruct (may_write s && fits (list_byte_of_string "1") s); [|discriminate].
    unfold created. cbn [may_read set_files]. destruct (may_read s); [|discriminate].
    rewrite string_of_list_byte_of_string.
    change (strconv_ParseUint "1") with (@inl Z error 1).
    intros [= <- <-]. cbn [files set_files]. rewrite lookup_insert_eq.
    rewrite string_of_list_byte_of_string.
    change (strconv_ParseUint "1") with (@inl Z error 1). eauto.
Qed.

(** [readNonce] returns or panics. *)
Lemma readNonce_ends s :
  match readNonce s with
  | Ret _ _ | Panic _ _ => True
  | Exit _ _ | Blocked _ => False
  end.
Proof.
  rewrite readNonce_eq. unfold read_existing.
  destruct (files s !! nonceFile) as [data|].
  - destruct (may_read s); [destruct (strconv_ParseUint _)|]; exact I.
  - destruct (may_stat s); [|exact I]. destruct (may_create s); [|exact I].
    destruct (may_write s && fits (list_byte_of_string "1") s); [|exact I].
    cbn [may_read created set_files].
    destruct (may_read s); [destruct (strconv_ParseUint _)|]; exact I.
Qed.

(** A first write that fails leaves an empty file. *)
Lemma first_write_fails s :
  may_write s && fits (list_byte_of_string "1") s = false ->
  counter (failed_write nonceFile (list_byte_of_string "1") (emptied s)).2 = None.
Proof.
  intros Hw. unfold failed_write, writable. rewrite openable_emptied, andb_true_r.
  change (may_write (emptied s)) with (may_write s).
  destruct (may_write s); cbn [andb] in Hw.
  - cbn [snd]. unfold counter, cut_short, fits in *. cbn [files set_files emptied file_limit].
    rewrite lookup_insert_eq.
    destruct (file_limit s) as [[|n]|]; [reflexivity|discriminate|discriminate].
  - cbn [snd]. unfold counter, emptied. cbn [files set_files].
    rewrite lookup_insert_eq. reflexivity.
Qed.

(** A panic of [readNonce] leaves the stored value as it was, unless the
    first write to a new file failed: the file is then left with less
    than the text, which is no number. *)
Lemma readNonce_Panic s e s1 :
  readNonce s = Panic e s1 ->
  counter s1 = counter s \/ (files s !! nonceFile = None /\ counter s1 = None).
Proof.
  rewrite readNonce_eq. unfold read_existing.
  destruct (files s !! nonceFile) as [data|] eqn:E.
  - destruct (may_read s).
    + destruct (strconv_ParseUint (string_of_list_byte data)) eqn:P; [discriminate|].
      intros [= _ <-]. left. reflexivity.
    + intros [= _ <-]. left. reflexivity.
  - destruct (may_stat s); [|intros [= _ <-]; left; reflexivity].
    destruct (may_create s); [|intros [= _ <-]; left; reflexivity].
    destruct (may_write s && fits (list_byte_of_string "1") s) eqn:Hw.
    2:{ intros [= _ <-]. right. split; [reflexivity|].
        apply first_write_fails. exact Hw. }
    unfold created. cbn [may_read set_files]. destruct (may_read s).
    + rewrite string_of_list_byte_of_string.
      change (strconv_ParseUint "1") with (@inl Z error 1). discriminate.
    + intros [= _ <-]. left. unfold counter. cbn [files set_files].
      rewrite lookup_insert_eq, E, string_of_list_byte_of_string. reflexivity.
Qed.

(** The whole call, with the mutex free, in terms of its two steps. *)
Lemma GetAndIncrementNonce_eq s :
  mutex s = false ->
  GetAndIncrementNonce s =
    match readNonce s with
    | Ret v s1 =>
        let text := list_byte_of_string (strconv_FormatUint (wrap64 (v + 1))) in
        if may_write s && fits text s
        then Ret (wrap64 (v + 1)) (set_files (<[nonceFile := text]> (files s1)) s1)
        else Panic (failed_write nonceFile text s1).1 (failed_write nonceFile text s1).2
    | o => o
    end.
Proof.
  intros Hm.
  unfold GetAndIncrementNonce, defer, Lock. unfold mbind at 1. unfold M_bind at 1.
  rewrite Hm. unfold mbind at 1. unfold M_bind at 1.
  rewrite readNonce_set_mutex.
  pose proof (readNonce_frame s) as F. pose proof (readNonce_ends s) as En.
  destruct (readNonce s) as [v s1|e s1|e s1|s1] eqn:R; try contradiction;
    destruct F as (F1 & F2 & F3 & F4 & F5 & F6 & F7 & F8).
  - apply readNonce_Ret in R as (_ & _ & [data Hd] & _).
    unfold mbind, M_bind. cbv beta.
    rewrite (incrementNonce_eq v (set_mutex true s1)). cbn zeta.
    unfold writable, openable, fits.
    cbn [may_write set_mutex files may_create file_limit]. rewrite Hd, F5, F6.
    rewrite bool_decide_eq_true_2 by eauto. cbn [orb]. rewrite andb_true_r.
    match goal with |- context [may_write s && ?b] => destruct (may_write s && b) end.
    + unfold mret, M_ret, Unlock. f_equal.
      rewrite set_files_set_mutex, set_mutex_set_mutex.
      apply set_mutex_id. cbn. congruence.
    + rewrite failed_write_set_mutex. cbn [fst snd]. unfold Unlock.
      rewrite set_mutex_set_mutex. f_equal. apply set_mutex_id.
      pose proof (failed_write_frame nonceFile
                    (list_byte_of_string (strconv_FormatUint (wrap64 (v + 1)))) s1) as (G1 & _).
      congruence.
  - unfold Unlock. rewrite set_mutex_set_mutex. f_equal. apply set_mutex_id. congruence.
Qed.

(** A call on a locked mutex waits. *)
Lemma GetAndIncrementNonce_locked s : mutex s = true -> GetAndIncrementNonce s = Blocked s.
Proof.
  intros Hm. unfold GetAndIncrementNonce, defer, Lock, mbind, M_bind. rewrite Hm. reflexivity.
Qed.

Lemma holds_uint64_frame s s' : file_limit s' = file_limit s -> holds_uint64 s -> holds_uint64 s'.
Proof. unfold holds_uint64. intros ->. exact id. Qed.

(** A write that fails where the file has room for the text failed at the
    open. *)
Lemma failed_write_roomy u s :
  room_for u s ->
  writable nonceFile s && fits (list_byte_of_string (strconv_FormatUint u)) s = false ->
  (failed_write nonceFile (list_byte_of_string (strconv_FormatUint u)) s).2 = s.
Proof.
  unfold room_for. intros ->. rewrite andb_true_r. unfold failed_write.
  intros ->. reflexivity.
Qed.

(** What a call leaves behind, whatever its outcome.  A call that panics
    leaves a file that holds no number as it was; where the file has room
    for the next value, it leaves the stored value as it was or, when the
    first write to a new file failed, no number. *)
Lemma GetAndIncrementNonce_inv s :
  mutex s = false ->
  match GetAndIncrementNonce s with
  | Ret n s' =>
      (exists v, counter s = Some v /\ n = wrap64 (v + 1))
      /\ counter s' = Some n
      /\ files s' !! nonceFile = Some (list_byte_of_string (strconv_FormatUint n))
      /\ mutex s' = false
      /\ may_write s = true
  | Panic _ s' =>
      (counter s = None -> counter s' = None)
      /\ (forall v, counter s = Some v -> room_for (wrap64 (v + 1)) s ->
          counter s' = counter s \/ counter s' = None)
      /\ mutex s' = false
  | Exit _ _ => False
  | Blocked _ => False
  end.
Proof.
  intros Hm. rewrite GetAndIncrementNonce_eq by exact Hm.
  pose proof (readNonce_frame s) as F. pose proof (readNonce_ends s) as En.
  destruct (readNonce s) as [v s1|e s1|e s1|s1] eqn:R; try contradiction;
    destruct F as (F1 & F2 & F3 & F4 & F5 & F6 & F7 & F8).
  - apply readNonce_Ret in R as (C0 & C1 & [data Hd] & _). cbn zeta.
    destruct (may_write s && fits _ s) eqn:W.
    + split; [eauto|]. split; [|split; [|split]].
      * apply counter_write. pose proof (wrap64_range (v + 1)). unfold maxUint64. lia.
      * cbn. apply lookup_insert_eq.
      * cbn. congruence.
      * apply andb_true_iff in W as [W _]. exact W.
    + split; [congruence|]. split.
      * intros v0 Hv0 Hl. assert (v0 = v) by congruence. subst v0.
        left. rewrite failed_write_roomy; [congruence| |].
        -- eapply room_for_frame; [exact F6|exact Hl].
        -- unfold writable, openable, fits in *. rewrite F5, F6, Hd.
           rewrite bool_decide_eq_true_2 by eauto. cbn [orb]. rewrite andb_true_r. exact W.
      * pose proof (failed_write_frame nonceFile
                      (list_byte_of_string (strconv_FormatUint (wrap64 (v + 1)))) s1) as (G1 & _).
        congruence.
  - apply readNonce_Panic in R as [R|(R1 & R2)].
    + split; [congruence|]. split; [intros _ _ _; left; exact R|congruence].
    + split; [intros _; exact R2|]. split; [intros _ _ _; right; exact R2|congruence].
Qed.

Lemma counter_range s v : counter s = Some v -> 0 <= v <= maxUint64.
Proof.
  unfold counter. destruct (files s !! nonceFile) as [data|].
  - destruct (strconv_ParseUint (string_of_list_byte data)) as [n|e] eqn:P; [|discriminate].
    intros [= <-]. eapply ParseUint_range. exact P.
  - intros [= <-]. split; [lia|discriminate].
Qed.

Lemma io_ok_fresh srv : io_ok (fresh_state srv).
Proof. repeat split. Qed.

Lemma io_ok_state_with text : io_ok (state_with text).
Proof. repeat split. Qed.

Lemma panics_Panic {A} (e : error) s : panics (@Panic A e s).
Proof. exists e, s. reflexivity. Qed.

Lemma not_panics_Ret {A} (a : A) s : ~ panics (Ret a s).
Proof. intros (e & s' & H). discriminate. Qed.

Lemma panics_not_returns {A} (o : outcome A) : panics o -> ~ returns o.
Proof. intros (e & s & ->) (a & s' & H). discriminate. Qed.

(** ** Sequences of calls *)

(** A call leaves the permissions, the wire and the transport as they
    were. *)
Lemma GetAndIncrementNonce_frame s :
  let s' := final_state (GetAndIncrementNonce s) in
  may_stat s' = may_stat s /\ may_create s' = may_create s /\ may_read s' = may_read s
  /\ may_write s' = may_write s /\ file_limit s' = file_limit s
  /\ wire s' = wire s /\ server s' = server s.
Proof.
  cbn zeta. destruct (mutex s) eqn:Hm.
  { rewrite GetAndIncrementNonce_locked by exact Hm. repeat split. }
  rewrite GetAndIncrementNonce_eq by exact Hm.
  pose proof (readNonce_frame s) as F.
  destruct (readNonce s) as [v s1|e s1|e s1|s1];
    destruct F as (F1 & F2 & F3 & F4 & F5 & F6 & F7 & F8); cbn zeta;
    try (cbn [final_state]; repeat split; assumption).
  destruct (may_write s && fits _ s) eqn:Hw; cbn [final_state].
  - cbn. repeat split; assumption.
  - pose proof (failed_write_frame nonceFile
                  (list_byte_of_string (strconv_FormatUint (wrap64 (v + 1)))) s1) as G.
    cbn zeta in G. destruct G as (G1 & G2 & G3 & G4 & G5 & G6 & G7 & G8).
    repeat split; congruence.
Qed.

Lemma run_corrupt evs : forall s, counter s = None -> run evs s = [].
Proof.
  induction evs as [|[|] evs IH]; intros s Hc; cbn [run].
  - reflexivity.
  - destruct (mutex s) eqn:Hm.
    + rewrite GetAndIncrementNonce_locked by exact Hm. apply IH. exact Hc.
    + pose proof (GetAndIncrementNonce_inv s Hm) as I.
      destruct (GetAndIncrementNonce s) as [n s'|e s'|e s'|s']; cbn [final_state].
      * destruct I as ((v & Hv & _) & _). congruence.
      * apply IH. destruct I as (I & _). exact (I Hc).
      * contradiction.
      * contradiction.
  - apply IH. rewrite <- Hc. apply counter_set_mutex.
Qed.

(** Where the file cannot be written, no call returns. *)
Lemma run_unwritable evs : forall s, may_write s = false -> run evs s = [].
Proof.
  induction evs as [|[|] evs IH]; intros s Hw; cbn [run].
  - reflexivity.
  - pose proof (GetAndIncrementNonce_frame s) as F. cbn zeta in F.
    destruct F as (_ & _ & _ & F & _).
    destruct (mutex s) eqn:Hm.
    + rewrite GetAndIncrementNonce_locked by exact Hm. apply IH. exact Hw.
    + pose proof (GetAndIncrementNonce_inv s Hm) as I.
      destruct (GetAndIncrementNonce s) as [n s'|e s'|e s'|s']; cbn [final_state] in *.
      * destruct I as (_ & _ & _ & _ & I). congruence.
      * apply IH. congruence.
      * contradiction.
      * contradiction.
  - apply IH. exact Hw.
Qed.

Lemma calls_cons_Call evs : calls (Call :: evs) = S (calls evs).
Proof. reflexivity. Qed.

Lemma calls_cons_Restart evs : calls (Restart :: evs) = calls evs.
Proof. reflexivity. Qed.

(** As long as the counter stays below [2^64] and the file has room for
    its text, every nonce returned is above the stored value and above
    the nonces returned before it. *)
Lemma run_increasing evs : forall s v,
  counter s = Some v -> v + Z.of_nat (calls evs) <= maxUint64 ->
  room_for (v + Z.of_nat (calls evs)) s ->
  StronglySorted Z.lt (run evs s) /\ Forall (fun n => v < n) (run evs s).
Proof.
  induction evs as [|[|] evs IH]; intros s v Hv Hb Hl; cbn [run].
  - split; constructor.
  - rewrite calls_cons_Call in Hb, Hl.
    pose proof (counter_range s v Hv) as Hr.
    pose proof (GetAndIncrementNonce_frame s) as F. cbn zeta in F.
    destruct F as (_ & _ & _ & _ & F & _).
    destruct (mutex s) eqn:Hm.
    + rewrite GetAndIncrementNonce_locked by exact Hm. cbn [final_state].
      apply IH; [exact Hv|lia|]. eapply room_for_le; [|exact Hl]. lia.
    + pose proof (GetAndIncrementNonce_inv s Hm) as I.
      destruct (GetAndIncrementNonce s) as [n s'|e s'|e s'|s'] eqn:G; cbn [final_state] in *.
      * destruct I as ((v' & Hv' & Hn) & Hc' & _).
        assert (v' = v) by congruence. subst v'.
        rewrite wrap64_small in Hn by (unfold maxUint64 in *; lia). subst n.
        destruct (IH s' (v + 1) Hc') as (S1 & F1); [lia| |].
        { eapply room_for_frame; [exact F|]. eapply room_for_le; [|exact Hl]. lia. }
        split.
        -- constructor; [exact S1|exact F1].
        -- constructor; [lia|]. eapply Forall_impl; [exact F1|]. cbn. intros; lia.
      * destruct I as (_ & I & _). destruct (I v Hv) as [I1|I1].
        -- rewrite wrap64_small by (unfold maxUint64 in *; lia).
           eapply room_for_le; [|exact Hl]. lia.
        -- apply IH; [congruence|lia|].
           eapply room_for_frame; [exact F|]. eapply room_for_le; [|exact Hl]. lia.
        -- rewrite run_corrupt by exact I1. split; constructor.
      * contradiction.
      * contradiction.
  - rewrite calls_cons_Restart in Hb, Hl. apply IH; [|exact Hb|exact Hl].
    unfold restart. rewrite counter_set_mutex. exact Hv.
Qed.

(** When every file operation is allowed, nothing is skipped either: the
    calls return the stored value plus one, plus two, and so on. *)
Lemma run_exact evs : forall s v,
  mutex s = false -> io_ok s -> counter s = Some v ->
  v + Z.of_nat (calls evs) <= maxUint64 ->
  run evs s = seqZ (v + 1) (Z.of_nat (calls evs)).
Proof.
  induction evs as [|[|] evs IH]; intros s v Hm Hio Hv Hb; cbn [run].
  - reflexivity.
  - rewrite calls_cons_Call in *.
    pose proof (counter_range s v Hv) as Hr.
    rewrite (GetAndIncrementNonce_ok s v Hm Hio Hv).
    rewrite wrap64_small by (unfold maxUint64 in *; lia).
    rewrite Nat2Z.inj_succ, seqZ_cons by lia.
    f_equal. replace (Z.pred (Z.succ (Z.of_nat (calls evs)))) with (Z.of_nat (calls evs)) by lia.
    replace (Z.succ (v + 1)) with (v + 1 + 1) by lia.
    apply IH; [exact Hm|exact Hio| |lia].
    apply counter_write. unfold maxUint64 in *. lia.
  - rewrite calls_cons_Restart in *. apply IH; [reflexivity|exact Hio| |exact Hb].
    unfold restart. rewrite counter_set_mutex. exact Hv.
Qed.

(** ** The claims on the nonce store *)

(** One call from a stored value, and the call after it. *)
Lemma next_call s v :
  mutex s = false -> io_ok s -> counter s = Some v ->
  exists s1,
    GetAndIncrementNonce s = Ret (wrap64 (v + 1)) s1
    /\ files s1 !! nonceFile
       = Some (list_byte_of_string (strconv_FormatUint (wrap64 (v + 1))))
    /\ counter s1 = Some (wrap64 (v + 1))
    /\ mutex s1 = false /\ io_ok s1.
Proof.
  intros Hm Hio Hv.
  eexists. split; [apply GetAndIncrementNonce_ok; assumption|].
  split; [cbn; apply lookup_insert_eq|].
  split; [|split; [exact Hm|exact Hio]].
  apply counter_write. pose proof (wrap64_range (v + 1)). unfold maxUint64. lia.
Qed.

(** C1, as the code has it: with the mutex free, the file operations
    allowed and a stored value [v], one call of [GetAndIncrementNonce]
    returns [v + 1] modulo [2^64], not [v], and the file then holds the
    decimal text of the value returned; when there is no file it is
    created holding [1], so the first call returns [2] and the second [3]. *)
Theorem C1_next_returns_stored_plus_one (s : State) (v : Z)
  (Hm : mutex s = false) (Hio : io_ok s) (Hv : counter s = Some v) :
  exists s1,
    GetAndIncrementNonce s = Ret (wrap64 (v + 1)) s1
    /\ files s1 !! nonceFile
       = Some (list_byte_of_string (strconv_FormatUint (wrap64 (v + 1))))
    /\ counter s1 = Some (wrap64 (v + 1))
    /\ (files s !! nonceFile = None ->
        exists s2, wrap64 (v + 1) = 2 /\ GetAndIncrementNonce s1 = Ret 3 s2).
Proof.
  destruct (next_call s v Hm Hio Hv) as (s1 & G & F & C & Hm1 & Hio1).
  exists s1. repeat (split; [assumption|]).
  intros Habs. unfold counter in Hv. rewrite Habs in Hv. injection Hv as <-.
  destruct (next_call s1 2 Hm1 Hio1 C) as (s2 & G2 & _).
  exists s2. split; [reflexivity|exact G2].
Qed.

Lemma C1_witness :
  exists s1,
    GetAndIncrementNonce (fresh_state no_server) = Ret 2 s1
    /\ files s1 !! nonceFile = Some (list_byte_of_string "2")
    /\ counter s1 = Some 2
    /\ (files (fresh_state no_server) !! nonceFile = None ->
        exists s2, 2 = 2 /\ GetAndIncrementNonce s1 = Ret 3 s2).
Proof.
  exact (C1_next_returns_stored_plus_one (fresh_state no_server) 1
           eq_refl (io_ok_fresh no_server) eq_refl).
Defined.

(** C1 as the specification words it fails: a file holding [5] gives [6],
    and from no file the first two calls give [2] and [3], not [1] and [2]. *)
Lemma C1_counterexample :
  (exists s1, GetAndIncrementNonce (state_with "5") = Ret 6 s1 /\ counter s1 = Some 6)
  /\ (exists s1 s2, GetAndIncrementNonce (fresh_state no_server) = Ret 2 s1
                    /\ GetAndIncrementNonce s1 = Ret 3 s2)
  /\ ~ (exists s1, GetAndIncrementNonce (state_with "5") = Ret 5 s1)
  /\ ~ (exists s1, GetAndIncrementNonce (fresh_state no_server) = Ret 1 s1).
Proof.
  destruct (next_call (state_with "5") 5
              eq_refl (io_ok_state_with "5") eq_refl) as (s1 & G1 & _ & C1 & _).
  destruct (next_call (fresh_state no_server) 1
              eq_refl (io_ok_fresh no_server) eq_refl) as (t1 & G2 & _ & C2 & Hm2 & Hio2).
  destruct (next_call t1 2 Hm2 Hio2 C2) as (t2 & G4 & _).
  split; [exists s1; split; [exact G1|exact C1]|].
  split; [exists t1, t2; split; [exact G2|exact G4]|].
  split.
  - intros (s' & H). rewrite G1 in H. discriminate.
  - intros (s' & H). rewrite G2 in H. discriminate.
Qed.

(** C2, as the code has it: over any sequence of calls and restarts on the
    same disk, as long as the stored value plus the number of calls stays
    within a uint64 and the file has room for its decimal text, every
    nonce returned is strictly greater than all the nonces returned
    before it. *)
Theorem C2_nonces_strictly_increase (evs : list event) (s : State)
  (Hb : forall v, counter s = Some v ->
        v + Z.of_nat (calls evs) <= maxUint64
        /\ room_for (v + Z.of_nat (calls evs)) s) :
  StronglySorted Z.lt (run evs s).
Proof.
  destruct (counter s) as [v|] eqn:Hv.
  - destruct (Hb v eq_refl) as (Hb1 & Hb2).
    apply (run_increasing evs s v Hv Hb1 Hb2).
  - rewrite run_corrupt by exact Hv. constructor.
Qed.

Lemma C2_witness :
  StronglySorted Z.lt (run [Call; Call; Restart; Call] (state_with "41"))
  /\ StronglySorted Z.lt (run [Call; Call] (limited_state 2 "41")).
Proof.
  split; apply C2_nonces_strictly_increase;
    intros v Hv; vm_compute in Hv; injection Hv as <-;
    (split; [vm_compute; discriminate|vm_compute; reflexivity]).
Defined.

(** C2 as worded fails where the counter wraps: from a file holding
    [2^64 - 2], two calls return [2^64 - 1] and then [0].  It fails too
    where the file has no room for the next value: the write is not
    atomic, so with room for two bytes and [98] stored, the first call
    returns [99], the second fails on writing [100] and leaves [10], and
    the third returns [11]. *)
Lemma C2_counterexample :
  run [Call; Call] (state_with "18446744073709551614") = [18446744073709551615; 0]
  /\ ~ StronglySorted Z.lt (run [Call; Call] (state_with "18446744073709551614"))
  /\ run [Call; Call; Call] (limited_state 2 "98") = [99; 11]
  /\ (exists e s1, GetAndIncrementNonce (limited_state 2 "99") = Panic e s1
                   /\ e = PathError "write" nonceFile
                   /\ files s1 !! nonceFile = Some (list_byte_of_string "10")
                   /\ counter s1 = Some 10)
  /\ ~ StronglySorted Z.lt (run [Call; Call; Call] (limited_state 2 "98")).
Proof.
  assert (E : run [Call; Call] (state_with "18446744073709551614")
              = [18446744073709551615; 0]) by (vm_compute; reflexivity).
  assert (E2 : run [Call; Call; Call] (limited_state 2 "98") = [99; 11])
    by (vm_compute; reflexivity).
  split; [exact E|]. split; [|split; [exact E2|split]].
  - rewrite E. intros H. inversion H as [|? ? _ F]; subst.
    inversion F as [|? ? L _]; subst. lia.
  - eexists _, _. split; [vm_compute; reflexivity|].
    split; [reflexivity|]. split; vm_compute; reflexivity.
  - rewrite E2. intros H. inversion H as [|? ? _ F]; subst.
    inversion F as [|? ? L _]; subst. lia.
Qed.

(** C10: the increment is the one of a uint64.  From a stored [2^64 - 1]
    the call returns [0] and writes the text [0]; below that value it
    returns exactly the stored value plus one, which is greater. *)
Theorem C10_increment_wraps_at_max (s : State) (v : Z)
  (Hm : mutex s = false) (Hio : io_ok s) (Hv : counter s = Some v) :
  exists s1,
    GetAndIncrementNonce s = Ret (wrap64 (v + 1)) s1
    /\ (v = maxUint64 ->
        wrap64 (v + 1) = 0
        /\ files s1 !! nonceFile = Some (list_byte_of_string "0")
        /\ ~ v < wrap64 (v + 1))
    /\ (v < maxUint64 ->
        wrap64 (v + 1) = v + 1
        /\ files s1 !! nonceFile = Some (list_byte_of_string (strconv_FormatUint (v + 1)))
        /\ v < wrap64 (v + 1)).
Proof.
  destruct (next_call s v Hm Hio Hv) as (s1 & G & F & _).
  pose proof (counter_range s v Hv) as Hr.
  exists s1. split; [exact G|]. split.
  - intros ->. split; [reflexivity|]. split; [exact F|]. discriminate.
  - intros Hlt.
    assert (W : wrap64 (v + 1) = v + 1)
      by (apply wrap64_small; unfold maxUint64 in *; lia).
    rewrite W in *. split; [reflexivity|]. split; [exact F|lia].
Qed.

Lemma C10_witness :
  exists s1,
    GetAndIncrementNonce (state_with "18446744073709551615") = Ret 0 s1
    /\ files s1 !! nonceFile = Some (list_byte_of_string "0").
Proof.
  destruct (C10_increment_wraps_at_max (state_with "18446744073709551615") maxUint64
              eq_refl (io_ok_state_with _) eq_refl) as (s1 & G & H & _).
  exists s1. split; [exact G|]. apply H. reflexivity.
Defined.

Lemma readNonce_panics_iff s :
  panics (readNonce s) <-> cannot_initialise s \/ may_read s = false \/ corrupt s.
Proof.
  rewrite readNonce_eq. unfold read_existing, cannot_initialise, corrupt.
  destruct (files s !! nonceFile) as [data|] eqn:E.
  - destruct (may_read s) eqn:Hr.
    + destruct (strconv_ParseUint (string_of_list_byte data)) as [n|e] eqn:P.
      * split; [intros H; exfalso; eapply not_panics_Ret; exact H|].
        intros [(H & _)|[H|(d & e & H & P')]]; try discriminate.
        injection H as <-. congruence.
      * split; [|intros _; apply panics_Panic].
        intros _. right. right. eauto.
    + split; [|intros _; apply panics_Panic]. intros _. right. left. reflexivity.
  - destruct (may_stat s) eqn:Hs;
      [|split; [intros _; left; auto|intros _; apply panics_Panic]].
    destruct (may_create s) eqn:Hc;
      [|split; [intros _; left; auto|intros _; apply panics_Panic]].
    destruct (may_write s) eqn:Hw;
      [|split; [intros _; left; auto|intros _; apply panics_Panic]].
    destruct (fits (list_byte_of_string "1") s) eqn:Hf;
      [|split; [intros _; left; auto 6|intros _; apply panics_Panic]].
    cbn [andb]. unfold created. cbn [may_read set_files]. destruct (may_read s) eqn:Hr.
    + rewrite string_of_list_byte_of_string.
      change (strconv_ParseUint "1") with (@inl Z error 1).
      split; [intros H; exfalso; eapply not_panics_Ret; exact H|].
      intros [(_ & [H|[H|[H|H]]])|[H|(d & e & H & _)]]; discriminate.
    + split; [|intros _; apply panics_Panic]. intros _. right. left. reflexivity.
Qed.

Lemma WriteNonce_panics_iff data s :
  panics (WriteNonce data s) <-> writable nonceFile s = false \/ fits data s = false.
Proof.
  rewrite WriteNonce_eq. destruct (writable nonceFile s); [destruct (fits data s)|]; cbn [andb].
  - split; [intros H; exfalso; eapply not_panics_Ret; exact H|intros [H|H]; discriminate].
  - split; [auto|intros _; apply panics_Panic].
  - split; [auto|intros _; apply panics_Panic].
Qed.

(** The next value has no room in the file. *)
Lemma GetAndIncrementNonce_panics_iff s :
  mutex s = false ->
  (panics (GetAndIncrementNonce s)
   <-> panics (readNonce s) \/ may_write s = false
       \/ exists v, counter s = Some v /\ ~ room_for (wrap64 (v + 1)) s).
Proof.
  intros Hm. rewrite GetAndIncrementNonce_eq by exact Hm.
  pose proof (readNonce_ends s) as En.
  destruct (readNonce s) as [v s1|e s1|e s1|s1] eqn:R; try contradiction.
  - apply readNonce_Ret in R as (C0 & _). cbn zeta. unfold room_for.
    destruct (may_write s); [destruct (fits _ s) eqn:Hf|]; cbn [andb].
    + split; [intros H; exfalso; eapply not_panics_Ret; exact H|].
      intros [H|[H|(v' & Hv' & H)]];
        [exfalso; eapply not_panics_Ret; exact H|discriminate|].
      assert (v' = v) by congruence. subst v'. contradiction.
    + split; [|intros _; apply panics_Panic].
      intros _. right. right. exists v. split; [exact C0|]. rewrite Hf. discriminate.
    + split; [auto|intros _; apply panics_Panic].
  - split; [intros _; left|intros _]; apply panics_Panic.
Qed.

(** A panic of the nonce store goes through [callPrivate]: nothing is
    sent. *)
Lemma callPrivate_panics y method args s :
  panics (GetAndIncrementNonce s) ->
  panics (callPrivate y method args s)
  /\ wire (final_state (callPrivate y method args s)) = wire (final_state (GetAndIncrementNonce s)).
Proof.
  intros (e & s' & H). unfold callPrivate, mbind, M_bind. rewrite H.
  split; [apply panics_Panic|reflexivity].
Qed.

(** C9, as the code has it.  [readNonce] panics exactly when the file is
    absent and cannot be set up (its path cannot be looked up, or its
    creation or the first write fails),
    or the file cannot be read, or its contents are not the decimal text
    of a uint64; [WriteNonce] panics exactly when the file cannot be
    opened for writing or has no room for the data.  In each case (the
    read fails, the file may not be written, the next value has no room)
    the call of [GetAndIncrementNonce] panics and
    returns nothing, and so does [callPrivate]; a call that returns
    leaves in the file the decimal text of a uint64, the value returned. *)
Theorem C9_store_failures (s : State) (data : list byte) (Hm : mutex s = false) :
  (panics (readNonce s) <-> cannot_initialise s \/ may_read s = false \/ corrupt s)
  /\ (panics (WriteNonce data s) <-> writable nonceFile s = false \/ fits data s = false)
  /\ (panics (readNonce s) \/ may_write s = false
      \/ (exists v, counter s = Some v /\ ~ room_for (wrap64 (v + 1)) s) ->
      panics (GetAndIncrementNonce s) /\ ~ returns (GetAndIncrementNonce s)
      /\ forall y method args, panics (callPrivate y method args s))
  /\ (forall n s', GetAndIncrementNonce s = Ret n s' ->
      0 <= n <= maxUint64
      /\ files s' !! nonceFile = Some (list_byte_of_string (strconv_FormatUint n))).
Proof.
  split; [apply readNonce_panics_iff|].
  split; [apply WriteNonce_panics_iff|].
  split.
  - intros H. apply (GetAndIncrementNonce_panics_iff s Hm) in H.
    split; [exact H|]. split; [apply panics_not_returns; exact H|].
    intros y method args. apply callPrivate_panics. exact H.
  - intros n s' G. pose proof (GetAndIncrementNonce_inv s Hm) as I.
    rewrite G in I. destruct I as (_ & C & F & _).
    split; [eapply counter_range; exact C|exact F].
Qed.

Lemma C9_witness :
  panics (GetAndIncrementNonce (state_with "12x"))
  /\ ~ returns (GetAndIncrementNonce (state_with "12x")).
Proof.
  destruct (C9_store_failures (state_with "12x") [] eq_refl) as (R & _ & A & _).
  assert (P : panics (readNonce (state_with "12x"))).
  { apply R. right. right.
    exists (list_byte_of_string "12x"), (NumError "ParseUint" "12x" ErrSyntax).
    split; reflexivity. }
  destruct (A (or_introl P)) as (H1 & H2 & _). split; assumption.
Defined.

(** C9 as worded fails where the file is absent.  If an absent file counts
    as unreadable storage, [readNonce] returns all the same when the file
    can be set up; if it does not, [readNonce] panics when the file cannot
    be created, or when the first write fails, although the storage is
    readable and holds no contents that could be ill-formed. *)
Lemma C9_counterexample :
  (files (fresh_state no_server) !! nonceFile = None
   /\ returns (readNonce (fresh_state no_server)))
  /\ (panics (readNonce unwritable_state)
      /\ may_read unwritable_state = true /\ ~ corrupt unwritable_state)
  /\ (panics (readNonce uncreatable_state)
      /\ may_read uncreatable_state = true /\ ~ corrupt uncreatable_state).
Proof.
  split; [split; [reflexivity|eexists _, _; reflexivity]|].
  split; (split; [eexists _, _; reflexivity|]);
    (split; [reflexivity|]); intros (d & e & H & _); discriminate.
Qed.

(** ** The signer *)

#[local] Arguments Sum512 : simpl never.

Lemma length_put_uint64 w : length (put_uint64 w) = 8%nat.
Proof. reflexivity. Qed.

Lemma length_digest_bytes s : length (digest_bytes s) = Size.
Proof.
  unfold digest_bytes. rewrite !length_app, !length_put_uint64. reflexivity.
Qed.

Lemma length_Sum512 data : length (Sum512 data) = Size.
Proof. unfold Sum512. apply length_digest_bytes. Qed.

Lemma copy_into_short n key :
  (length key <= n)%nat -> copy_into n key = key ++ repeat x00 (n - length key).
Proof.
  intros H. unfold copy_into. rewrite firstn_all2 by exact H. reflexivity.
Qed.

(** The streaming code of the library computes the HMAC of RFC 2104. *)
Lemma hmac_Sum_spec key message :
  hmac_Sum (hmac_Write (hmac_New key) message) [] = HMAC_spec Sum512 BlockSize key message.
Proof.
  unfold hmac_Sum, hmac_Write, hmac_New, HMAC_spec, Hash_Sum, Hash_Write, Hash_Reset, sha512_New.
  destruct (BlockSize <? length key)%nat eqn:E; cbn -[BlockSize copy_into xor_byte].
  - rewrite copy_into_short by (rewrite length_Sum512; unfold Size, BlockSize; lia).
    reflexivity.
  - apply Nat.ltb_ge in E. rewrite copy_into_short by exact E. reflexivity.
Qed.

Lemma length_hex_EncodeToString src :
  String.length (hex_EncodeToString src) = (2 * length src)%nat.
Proof.
  induction src as [|v src IH]; cbn [hex_EncodeToString String.length length].
  - reflexivity.
  - rewrite IH. lia.
Qed.

Lemma hex_digits_lower v :
  is_lower_hex (hex_digit (Z.shiftr (Z_of_byte v) 4)) = true
  /\ is_lower_hex (hex_digit (Z.land (Z_of_byte v) 0x0f)) = true.
Proof. destruct v; split; reflexivity. Qed.

Lemma hex_EncodeToString_lower src :
  Forall (fun c => is_lower_hex c = true) (list_ascii_of_string (hex_EncodeToString src)).
Proof.
  induction src as [|v src IH]; cbn [hex_EncodeToString list_ascii_of_string].
  - constructor.
  - destruct (hex_digits_lower v) as (H1 & H2).
    constructor; [exact H1|]. constructor; [exact H2|exact IH].
Qed.

(** Known answers: FIPS 180-4 for the hash, RFC 4231 for the HMAC. *)
Example Sum512_abc :
  hex_EncodeToString (Sum512 (list_byte_of_string "abc")) =
  "ddaf35a193617abacc417349ae20413112e6fa4e89a97ea20a9eeee64b55d39a2192992a274fc1a836ba3c23a3feebbd454d4423643ce80e2a9ac94fa54ca49f".
Proof. vm_compute. reflexivity. Qed.

Example Sum512_empty :
  hex_EncodeToString (Sum512 []) =
  "cf83e1357eefb8bdf1542850d66d8007d620e4050b5715dc83f4a921d36ce9ce47d0d13c5d85f2b0ff8318d2877eec2f63b931bd47417a81a538327af927da3e".
Proof. vm_compute. reflexivity. Qed.

Example hmac_rfc4231_case2 :
  signHmacSha512 (list_byte_of_string "Jefe")
    (list_byte_of_string "what do ya want for nothing?") =
  "164b7a7bfcf819e2e395fbe73b56e0a387bd64222e831fd610270cd7ea2505549758bf75c05a994a6d034f65f8f0e6fdcaeab1a34d4a6b4b636e070a38bce737".
Proof. vm_compute. reflexivity. Qed.

Example hmac_rfc4231_case6 :
  signHmacSha512 (repeat xaa 131)
    (list_byte_of_string "Test Using Larger Than Block-Size Key - Hash Key First") =
  "80b24263c7c1a3ebb71493c1dd7be8b49b46d1f41b4aeec1121b013783f8f3526b56d037e05f2598bd0fd2215d6a1e5295e64f73f63f0aec8b915a985d786598".
Proof. vm_compute. reflexivity. Qed.

(** C4: [signHmacSha512] is the lowercase hexadecimal text of the
    HMAC-SHA512 of the message under the secret: 64 bytes, 128 characters
    among [0-9a-f], computed over the very bytes given; for the secret
    [abc] and the body [method=Trade&nonce=1] it is the known answer. *)
Theorem C4_sign_is_hex_of_hmac_sha512 (secret message : list byte) :
  signHmacSha512 secret message
  = hex_EncodeToString (HMAC_spec Sum512 BlockSize secret message)
  /\ length (HMAC_spec Sum512 BlockSize secret message) = 64%nat
  /\ String.length (signHmacSha512 secret message) = 128%nat
  /\ Forall (fun c => is_lower_hex c = true)
       (list_ascii_of_string (signHmacSha512 secret message))
  /\ signHmacSha512 (list_byte_of_string "abc") (list_byte_of_string "method=Trade&nonce=1")
     = "ae816dd0aea9c56278e2e48ec9b4228dd05ccde4ff01ba111b10e48e55539f36a7d7c855d35f982cfc8e131c8cd99f2f1f82b1340559baa1f2630053a354c380".
Proof.
  assert (E : signHmacSha512 secret message
              = hex_EncodeToString (HMAC_spec Sum512 BlockSize secret message)).
  { unfold signHmacSha512. rewrite hmac_Sum_spec. reflexivity. }
  assert (L : length (HMAC_spec Sum512 BlockSize secret message) = 64%nat).
  { unfold HMAC_spec. apply length_Sum512. }
  split; [exact E|]. split; [exact L|].
  split; [rewrite E, length_hex_EncodeToString, L; reflexivity|].
  split; [rewrite E; apply hex_EncodeToString_lower|].
  vm_compute. reflexivity.
Qed.

(** ** The form body *)

#[local] Arguments QueryEscape : simpl never.

Lemma render_pair_nonempty p : render_pair p <> "".
Proof.
  unfold render_pair. destruct (QueryEscape p.1); cbn; discriminate.
Qed.

Lemma append_nonempty_l (a b : string) : a <> "" -> a +:+ b <> "".
Proof. destruct a; [congruence|cbn; discriminate]. Qed.

Lemma encode_step_nonempty buf p :
  buf <> "" -> encode_step buf p = (buf +:+ "&") +:+ render_pair p.
Proof. unfold encode_step. destruct buf; [congruence|reflexivity]. Qed.

Lemma encode_inner_loop k : forall vs buf,
  fold_left (fun buf x =>
      let buf := if (0 <? String.length buf)%nat then buf +:+ "&" else buf in
      buf +:+ (QueryEscape k +:+ "=") +:+ QueryEscape x) vs buf
  = fold_left encode_step (pair k <$> vs) buf.
Proof.
  induction vs as [|x vs IH]; intros buf; [reflexivity|].
  cbn [fold_left fmap list_fmap]. rewrite IH. reflexivity.
Qed.

Lemma encode_outer_loop (v : gmap string (list string)) : forall ks buf,
  fold_left (fun buf k =>
      fold_left (fun buf x =>
          let buf := if (0 <? String.length buf)%nat then buf +:+ "&" else buf in
          buf +:+ (QueryEscape k +:+ "=") +:+ QueryEscape x) (v !!! k) buf) ks buf
  = fold_left encode_step (ks ≫= fun k => pair k <$> v !!! k) buf.
Proof.
  induction ks as [|k ks IH]; intros buf; [reflexivity|].
  cbn [fold_left mbind list_bind]. rewrite fold_left_app.
  rewrite <- IH. f_equal. apply encode_inner_loop.
Qed.

Lemma Values_Encode_fold v :
  Values_Encode v = fold_left encode_step (Values_pairs v) "".
Proof. apply encode_outer_loop. Qed.

Lemma fold_encode_step_nonempty : forall l buf,
  buf <> "" ->
  fold_left encode_step l buf
  = fold_left (fun buf q => (buf +:+ "&") +:+ q) (render_pair <$> l) buf.
Proof.
  induction l as [|p l IH]; intros buf Hb; [reflexivity|].
  cbn [fold_left fmap list_fmap]. rewrite encode_step_nonempty by exact Hb.
  apply IH. apply append_nonempty_l, append_nonempty_l. exact Hb.
Qed.

(** [Values.Encode] writes the pairs joined by [&]. *)
Lemma Values_Encode_join v :
  Values_Encode v = join_amp (render_pair <$> Values_pairs v).
Proof.
  rewrite Values_Encode_fold. destruct (Values_pairs v) as [|p l]; [reflexivity|].
  cbn [fold_left fmap list_fmap join_amp].
  apply fold_encode_step_nonempty. apply render_pair_nonempty.
Qed.

(** *** The order of the pairs *)

Lemma sorted_keys_sorted v : StronglySorted String.le (sorted_keys v).
Proof. apply StronglySorted_merge_sort; apply _. Qed.

Lemma sorted_keys_perm v : sorted_keys v ≡ₚ (map_to_list v).*1.
Proof. apply merge_sort_Permutation. Qed.

Lemma pairs_sorted (f : string -> list string) : forall ks,
  StronglySorted String.le ks ->
  StronglySorted by_name (ks ≫= fun k => pair k <$> f k).
Proof.
  induction ks as [|k ks IH]; intros Hs; [constructor|].
  apply StronglySorted_inv in Hs as (Hs & Hk).
  cbn [mbind list_bind]. apply StronglySorted_app_2; [| |].
  - intros p q Hp Hq.
    apply list_elem_of_fmap in Hp as (x & -> & _).
    apply list_elem_of_bind in Hq as (k' & Hq & Hk').
    apply list_elem_of_fmap in Hq as (x' & -> & _).
    unfold by_name. cbn. rewrite Forall_forall in Hk. apply Hk. exact Hk'.
  - induction (f k) as [|x xs IHx]; [constructor|].
    cbn. constructor; [exact IHx|].
    apply Forall_fmap, Forall_forall. intros y _. unfold by_name. cbn. reflexivity.
  - apply IH. exact Hs.
Qed.

Lemma Values_pairs_sorted v : StronglySorted by_name (Values_pairs v).
Proof. apply pairs_sorted, sorted_keys_sorted. Qed.

Lemma bind_fst_entries (v : gmap string (list string)) (l : list (string * list string)) :
  (forall k vs, (k, vs) ∈ l -> v !!! k = vs) ->
  l.*1 ≫= (fun k => pair k <$> v !!! k) = pairs_of_entries l.
Proof.
  unfold pairs_of_entries. induction l as [|[k vs] l IH]; intros H; [reflexivity|].
  cbn [fmap list_fmap mbind list_bind fst snd].
  rewrite (H k vs) by left. f_equal. apply IH. intros k' vs' Hin. apply H. right. exact Hin.
Qed.

Lemma Values_pairs_perm v : Values_pairs v ≡ₚ pairs_of_entries (map_to_list v).
Proof.
  unfold Values_pairs. rewrite sorted_keys_perm.
  rewrite bind_fst_entries; [reflexivity|].
  intros k vs Hin. apply elem_of_map_to_list in Hin.
  apply lookup_total_correct. exact Hin.
Qed.

Lemma pairs_of_entries_cons k vs l :
  pairs_of_entries ((k, vs) :: l) = (pair k <$> vs) ++ pairs_of_entries l.
Proof. reflexivity. Qed.

Lemma pairs_of_entries_perm l1 l2 :
  l1 ≡ₚ l2 -> pairs_of_entries l1 ≡ₚ pairs_of_entries l2.
Proof. intros H. unfold pairs_of_entries. rewrite H. reflexivity. Qed.

(** [Values.Add] adds one pair and keeps the others. *)
Lemma pairs_Values_Add v k x :
  pairs_of_entries (map_to_list (Values_Add v k x))
  ≡ₚ pairs_of_entries (map_to_list v) ++ [(k, x)].
Proof.
  unfold Values_Add. rewrite lookup_total_alt.
  destruct (v !! k) as [vs|] eqn:E; cbn [default].
  - rewrite <- insert_delete_eq.
    rewrite (pairs_of_entries_perm _ _ (map_to_list_insert (delete k v) k (vs ++ [x])
                                          (lookup_delete_eq v k))).
    rewrite <- (pairs_of_entries_perm _ _ (map_to_list_delete v k vs E)).
    rewrite !pairs_of_entries_cons, fmap_app. cbn [fmap list_fmap].
    rewrite <- !app_assoc. apply Permutation_app_head. apply Permutation_app_comm.
  - rewrite (pairs_of_entries_perm _ _ (map_to_list_insert v k ([] ++ [x]) E)).
    rewrite pairs_of_entries_cons. cbn [app fmap list_fmap].
    apply Permutation_cons_append.
Qed.

Lemma pairs_fold_Add args : forall form,
  pairs_of_entries (map_to_list
    (fold_left (fun form arg => Values_Add form (name arg) (value arg)) args form))
  ≡ₚ pairs_of_entries (map_to_list form) ++ args_pairs args.
Proof.
  induction args as [|arg args IH]; intros form; cbn [fold_left args_pairs map].
  - rewrite app_nil_r. reflexivity.
  - rewrite IH, pairs_Values_Add, <- app_assoc. reflexivity.
Qed.

(** The form holds the method, the nonce and the arguments, and nothing
    else. *)
Lemma form_of_pairs method nonce args :
  Values_pairs (form_of method nonce args)
  ≡ₚ ("method", method) :: ("nonce", strconv_FormatUint nonce) :: args_pairs args.
Proof.
  rewrite Values_pairs_perm. unfold form_of. rewrite pairs_fold_Add.
  change (("method", method) :: ("nonce", strconv_FormatUint nonce) :: args_pairs args)
    with ([("method", method); ("nonce", strconv_FormatUint nonce)] ++ args_pairs args).
  apply Permutation_app_tail.
  assert (Hne : ({[ "nonce" := [strconv_FormatUint nonce] ]} : gmap string (list string))
                !! "method" = None) by (apply lookup_singleton_ne; discriminate).
  rewrite (pairs_of_entries_perm _ _
             (map_to_list_insert {[ "nonce" := [strconv_FormatUint nonce] ]} "method" [method]
                Hne)).
  rewrite map_to_list_singleton. reflexivity.
Qed.

(** ** The authenticated call *)

Lemma request_of_header y method nonce args :
  let req := request_of y method nonce args in
  Header req !! "Sign"
  = Some [signHmacSha512 (list_byte_of_string (Secret (credential y)))
            (list_byte_of_string (Body req))]
  /\ Header req !! "Key" = Some [Key (credential y)]
  /\ Header req !! "Content-Type" = Some ["application/x-www-form-urlencoded"].
Proof.
  cbn zeta. unfold request_of. cbn [Header Body]. unfold Header_Add.
  change (CanonicalMIMEHeaderKey "Content-type") with "Content-Type".
  change (CanonicalMIMEHeaderKey "Key") with "Key".
  change (CanonicalMIMEHeaderKey "Sign") with "Sign".
  rewrite !lookup_total_alt.
  split; [|split]; reflexivity.
Qed.

(** After the nonce is drawn, [callPrivate] builds the request and hands
    it to the transport. *)
Lemma callPrivate_eq y method args s :
  callPrivate y method args s =
    match GetAndIncrementNonce s with
    | Ret nonce s1 => query y (request_of y method nonce args) s1
    | Panic e s1 => Panic e s1
    | Exit e s1 => Exit e s1
    | Blocked s1 => Blocked s1
    end.
Proof. reflexivity. Qed.

Lemma query_wire y req s :
  wire (final_state (query y req s)) = wire s ++ [req].
Proof.
  unfold query, client_Do, fatal, mbind, M_bind, mret, M_ret.
  destruct (server s (wire s ++ [req])) as [[code body]|]; [|reflexivity].
  destruct (negb (code =? StatusOK)); reflexivity.
Qed.

(** The request of a call whose nonce store works: it is the request
    built for the stored value plus one, and it goes on the wire whatever
    the transport answers. *)
Lemma callPrivate_sends y method args s v :
  mutex s = false -> io_ok s -> counter s = Some v ->
  wire (final_state (callPrivate y method args s))
  = wire s ++ [request_of y method (wrap64 (v + 1)) args].
Proof.
  intros Hm Hio Hv. rewrite callPrivate_eq.
  rewrite (GetAndIncrementNonce_ok s v Hm Hio Hv).
  rewrite query_wire. reflexivity.
Qed.

Example example_body :
  Body (request_of example_yobit "Trade" 2 example_args)
  = "amount=1.00000000&method=Trade&nonce=2&pair=ltc_btc&rate=0.10000000&type=buy".
Proof. vm_compute. reflexivity. Qed.

(** ** The response decoder *)

Lemma unmarshal_ok {T} `{Decode T} data (obj obj' : T) :
  json_Unmarshal data obj = (obj', None) -> unmarshal data obj = (obj', None).
Proof. intros E. unfold unmarshal. rewrite E. reflexivity. Qed.

Lemma unmarshal_fallback {T} `{Decode T} data (obj obj' : T) e er :
  json_Unmarshal data obj = (obj', Some e) ->
  json_Unmarshal data zero_ErrorResponse = (er, None) ->
  unmarshal data obj = (obj', Some (ErrorString (Error er))).
Proof. intros E1 E2. unfold unmarshal. rewrite E1, E2. reflexivity. Qed.

Lemma unmarshal_no_fallback {T} `{Decode T} data (obj obj' : T) e er e2 :
  json_Unmarshal data obj = (obj', Some e) ->
  json_Unmarshal data zero_ErrorResponse = (er, Some e2) ->
  unmarshal data obj
  = (obj', Some (ErrorString ("unmarshaling failed. " +:+ string_of_list_byte data +:+ " "
                              +:+ err_Error e))).
Proof. intros E1 E2. unfold unmarshal. rewrite E1, E2. reflexivity. Qed.

Example invalid_nonce_body_text :
  string_of_list_byte invalid_nonce_body
  = String "{" (String "034" ("success" +:+ String "034" (":0," +:+ String "034" ("error"
      +:+ String "034" (":" +:+ String "034" ("invalid nonce" +:+ String "034" "}")))))).
Proof. reflexivity. Qed.

Lemma invalid_nonce_body_ErrorResponse :
  json_Unmarshal invalid_nonce_body zero_ErrorResponse
  = ({| Success := 0; Error := "invalid nonce" |}, None).
Proof. vm_compute. reflexivity. Qed.

(** The body of the exchange does not fit the target of [Tickers24]. *)
Lemma invalid_nonce_body_Tickers :
  (json_Unmarshal invalid_nonce_body (∅ : gmap string Ticker)).2
  = Some (UnmarshalTypeError "number" "yobit.Ticker").
Proof. vm_compute. reflexivity. Qed.

(** C8: when the body does not decode into the target, [unmarshal] decodes
    it into an [ErrorResponse], and when that works its error is the
    [error] text of the server and nothing else; so for the body
    [{"success":0,"error":"invalid nonce"}] the error reads
    [invalid nonce], not the failure of the JSON decoder. *)
Theorem C8_unmarshal_falls_back_to_server_error (T : Type) (D : Decode T)
  (data : list byte) (obj : T) (e : error)
  (Hfail : (json_Unmarshal data obj).2 = Some e) :
  (forall er, json_Unmarshal data zero_ErrorResponse = (er, None) ->
     (unmarshal data obj).2 = Some (ErrorString (Error er))
     /\ err_Error (ErrorString (Error er)) = Error er)
  /\ (data = invalid_nonce_body ->
      (unmarshal data obj).2 = Some (ErrorString "invalid nonce")
      /\ err_Error (ErrorString "invalid nonce") = "invalid nonce").
Proof.
  destruct (json_Unmarshal data obj) as [obj' oe] eqn:E1. cbn in Hfail. subst oe.
  split.
  - intros er E2. rewrite (unmarshal_fallback data obj obj' e er E1 E2).
    split; reflexivity.
  - intros ->.
    rewrite (unmarshal_fallback _ obj obj' e _ E1 invalid_nonce_body_ErrorResponse).
    split; reflexivity.
Qed.

Lemma C8_witness :
  (unmarshal invalid_nonce_body (∅ : gmap string Ticker)).2
  = Some (ErrorString "invalid nonce").
Proof.
  exact (proj1 (proj2 (C8_unmarshal_falls_back_to_server_error (gmap string Ticker) _
                        invalid_nonce_body ∅ _ invalid_nonce_body_Tickers) eq_refl)).
Defined.

(** ** Calls at the same time *)

Lemma readNonce_ok s c :
  io_ok s -> counter s = Some c ->
  exists s1, readNonce s = Ret c s1 /\ counter s1 = Some c /\ io_ok s1 /\ mutex s1 = mutex s.
Proof.
  intros (Hs & Hc & Hr & Hw & Hl) Hv. rewrite readNonce_eq. unfold read_existing, counter in *.
  destruct (files s !! nonceFile) as [data|] eqn:E.
  - rewrite Hr. destruct (strconv_ParseUint (string_of_list_byte data)) as [n|e] eqn:P;
      [|discriminate].
    injection Hv as ->. exists s. rewrite E, P. repeat split; assumption.
  - injection Hv as <-. rewrite Hs, Hc, Hw, (fits_one s Hl). cbn [andb].
    unfold created. cbn [may_read set_files].
    rewrite Hr, string_of_list_byte_of_string.
    change (strconv_ParseUint "1") with (@inl Z error 1).
    eexists. split; [reflexivity|]. cbn [files set_files]. rewrite lookup_insert_eq.
    rewrite string_of_list_byte_of_string.
    change (strconv_ParseUint "1") with (@inl Z error 1).
    repeat split; assumption.
Qed.

Lemma incrementNonce_ok n s :
  io_ok s ->
  exists s1, incrementNonce n s = Ret (wrap64 (n + 1)) s1
             /\ counter s1 = Some (wrap64 (n + 1)) /\ io_ok s1 /\ mutex s1 = mutex s.
Proof.
  intros (Hs & Hc & Hr & Hw & Hl). rewrite incrementNonce_eq. cbn zeta.
  rewrite (fits_uint64 _ s Hl). unfold writable, openable.
  rewrite Hw, Hc, orb_true_r. cbn [andb].
  eexists. split; [reflexivity|]. split; [|repeat split; assumption].
  apply counter_write. pose proof (wrap64_range (n + 1)). unfold maxUint64. lia.
Qed.

Lemma wrap64_succ a : wrap64 (wrap64 a + 1) = wrap64 (a + 1).
Proof. unfold wrap64. apply Zplus_mod_idemp_l. Qed.

Lemma nonces_from_S v0 k :
  nonces_from v0 (S k) = nonces_from v0 k ++ [wrap64 (v0 + Z.of_nat (S k))].
Proof.
  unfold nonces_from. rewrite seqZ_S, fmap_app. cbn [fmap list_fmap].
  do 3 f_equal. lia.
Qed.

(** The list before and after goroutine [i] moves. *)
Lemma list_insert_split {A} (l : list A) i x y :
  l !! i = Some x ->
  exists l1 l2, l = l1 ++ x :: l2 /\ <[i := y]> l = l1 ++ y :: l2.
Proof.
  intros H. exists (take i l), (drop (S i) l). split.
  - symmetry. apply take_drop_middle. exact H.
  - apply insert_take_drop. eapply lookup_lt_Some. exact H.
Qed.

Lemma sum_lock_weight_zero l :
  sum_list_with lock_weight l = 0%nat -> Forall (fun p => holds_lock p = false) l.
Proof.
  induction l as [|p l IH]; cbn [sum_list_with]; intros H; constructor.
  - unfold lock_weight in H. destruct (holds_lock p); [lia|reflexivity].
  - apply IH. lia.
Qed.

Lemma thread_ok_idle c c' p : holds_lock p = false -> thread_ok c p -> thread_ok c' p.
Proof. destruct p; cbn; try discriminate; auto. Qed.

Lemma Forall_thread_ok_idle c c' l :
  Forall (fun p => holds_lock p = false) l ->
  Forall (thread_ok c) l -> Forall (thread_ok c') l.
Proof.
  intros H1 H2. induction H1 as [|p l Hp _ IH]; [constructor|].
  apply Forall_cons in H2 as (H2 & H3).
  constructor; [eapply thread_ok_idle; eassumption|apply IH; exact H3].
Qed.

Section goroutines.
Variable v0 : Z.

Lemma Inv_initial N s :
  mutex s = false -> io_ok s -> counter s = Some v0 -> Inv v0 (initial N s).
Proof.
  intros Hm Hio Hv.
  assert (W : omap has_written (replicate N Start) = []).
  { induction N as [|N IH]; [reflexivity|]. cbn. exact IH. }
  assert (L : sum_list_with lock_weight (replicate N Start) = 0%nat).
  { clear W. induction N as [|N IH]; [reflexivity|]. cbn. exact IH. }
  constructor; cbn [fst snd initial]; rewrite ?W; cbn [length].
  - exact Hio.
  - rewrite Hm. exact L.
  - rewrite Z.add_0_r, wrap64_small; [exact Hv|].
    pose proof (counter_range s v0 Hv). unfold maxUint64 in *. lia.
  - reflexivity.
  - apply Forall_replicate. exact I.
Qed.

(** Every step keeps the invariant. *)
Lemma Inv_step i sys sys' : Inv v0 sys -> sys_step i sys = Some sys' -> Inv v0 sys'.
Proof.
  destruct sys as [ts s]. intros [Hio Hlock Hcnt Hwr Hth]. cbn [fst snd] in *.
  unfold sys_step. cbn [fst snd].
  destruct (ts !! i) as [p|] eqn:Hi; [|discriminate].
  destruct (thread_step p s) as [[p' s']|] eqn:Hstep; [|discriminate].
  intros [= <-].
  destruct (list_insert_split ts i p p' Hi) as (l1 & l2 & -> & ->).
  rewrite !omap_app in *. rewrite !sum_list_with_app in Hlock.
  apply Forall_app in Hth as (Hth1 & Hth2).
  apply Forall_cons in Hth2 as (Hp & Hth2).
  destruct p as [| |n|n|n|e]; cbn [thread_step] in Hstep.
  - (* Lock *)
    unfold Lock in Hstep. destruct (mutex s) eqn:Hm; [discriminate|].
    injection Hstep as <- <-.
    constructor; cbn [fst snd]; rewrite ?omap_app, ?sum_list_with_app;
      cbn [omap list_omap has_written sum_list_with lock_weight holds_lock mutex set_mutex] in *.
    + exact Hio.
    + lia.
    + exact Hcnt.
    + exact Hwr.
    + apply Forall_app. split; [exact Hth1|]. constructor; [exact I|exact Hth2].
  - (* readNonce *)
    destruct (readNonce_ok s _ Hio Hcnt) as (s1 & R & C1 & Hio1 & Hm1).
    rewrite R in Hstep. injection Hstep as <- <-.
    constructor; cbn [fst snd]; rewrite ?omap_app, ?sum_list_with_app;
      cbn [omap list_omap has_written sum_list_with lock_weight holds_lock] in *.
    + exact Hio1.
    + rewrite Hm1. exact Hlock.
    + exact C1.
    + exact Hwr.
    + apply Forall_app. split; [exact Hth1|]. constructor; [reflexivity|exact Hth2].
  - (* incrementNonce *)
    destruct (incrementNonce_ok n s Hio) as (s1 & R & C1 & Hio1 & Hm1).
    rewrite R in Hstep. injection Hstep as <- <-.
    cbn [omap list_omap has_written sum_list_with lock_weight holds_lock thread_ok] in *.
    assert (Hm : mutex s = true) by (destruct (mutex s); [reflexivity|lia]).
    rewrite Hm in Hlock.
    assert (Z1 : sum_list_with lock_weight l1 = 0%nat) by lia.
    assert (Z2 : sum_list_with lock_weight l2 = 0%nat) by lia.
    apply sum_lock_weight_zero in Z1, Z2.
    rewrite length_app in *.
    set (k := (length (omap has_written l1) + length (omap has_written l2))%nat) in *.
    assert (Hn : wrap64 (n + 1) = wrap64 (v0 + Z.of_nat (S k))).
    { subst n. rewrite wrap64_succ. f_equal. lia. }
    constructor; cbn [fst snd]; rewrite ?omap_app, ?sum_list_with_app, ?length_app;
      cbn [omap list_omap has_written sum_list_with lock_weight holds_lock length].
    + exact Hio1.
    + rewrite Hm1, Hm. lia.
    + rewrite C1, Hn. do 3 f_equal. lia.
    + replace (length (omap has_written l1) + S (length (omap has_written l2)))%nat
        with (S k) by lia.
      rewrite nonces_from_S, <- Hn, <- Hwr.
      rewrite <- Permutation_middle. apply Permutation_cons_append.
    + replace (length (omap has_written l1) + S (length (omap has_written l2)))%nat
        with (S k) by lia.
      apply Forall_app. split; [|constructor; [exact I|]].
      * eapply Forall_thread_ok_idle; eassumption.
      * eapply Forall_thread_ok_idle; eassumption.
  - (* return, Unlock *)
    injection Hstep as <- <-.
    cbn [omap list_omap has_written sum_list_with lock_weight holds_lock thread_ok] in *.
    assert (Hm : mutex s = true) by (destruct (mutex s); [reflexivity|lia]).
    rewrite Hm in Hlock.
    constructor; cbn [fst snd]; rewrite ?omap_app, ?sum_list_with_app;
      cbn [omap list_omap has_written sum_list_with lock_weight holds_lock].
    + exact Hio.
    + cbn. lia.
    + unfold Unlock. rewrite counter_set_mutex. exact Hcnt.
    + exact Hwr.
    + apply Forall_app. split; [exact Hth1|]. constructor; [exact I|exact Hth2].
  - discriminate.
  - discriminate.
Qed.
End goroutines.

Lemma sys_step_length i sys sys' : sys_step i sys = Some sys' -> length sys'.1 = length sys.1.
Proof.
  unfold sys_step. destruct (sys.1 !! i); [|discriminate].
  destruct (thread_step p sys.2) as [[p' s']|]; [|discriminate].
  intros [= <-]. cbn. apply length_insert.
Qed.

Lemma Inv_reachable v0 N s sys :
  mutex s = false -> io_ok s -> counter s = Some v0 ->
  rtc step (initial N s) sys -> Inv v0 sys /\ length sys.1 = N.
Proof.
  intros Hm Hio Hv Hr. revert sys Hr. apply rtc_ind_r.
  - split; [apply Inv_initial; assumption|]. cbn. apply length_replicate.
  - intros sys1 sys2 _ (i & Hs) (IH1 & IH2). split; [eapply Inv_step; eassumption|].
    rewrite (sys_step_length _ _ _ Hs). exact IH2.
Qed.

(** What a schedule leads to can be reached. *)
Lemma exec_reachable sched : forall sys, rtc step sys (exec sched sys).
Proof.
  induction sched as [|i sched IH]; intros sys; cbn [exec]; [reflexivity|].
  destruct (sys_step i sys) as [sys'|] eqn:E; [|apply IH].
  eapply rtc_l; [exists i; exact E|apply IH].
Qed.

Lemma all_returned_results ts :
  all_returned ts -> omap has_written ts = results ts /\ length (results ts) = length ts.
Proof.
  unfold all_returned, results. induction 1 as [|p ts [n Hp] _ (IH1 & IH2)]; [split; reflexivity|].
  destruct p; try discriminate. cbn. rewrite IH1, IH2. split; reflexivity.
Qed.

Lemma NoDup_nonces_from v0 k : Z.of_nat k <= uint64_modulus -> NoDup (nonces_from v0 k).
Proof.
  intros Hk. unfold nonces_from. apply NoDup_fmap_2_strong; [|apply NoDup_seqZ].
  intros x y Hx Hy E. apply elem_of_seqZ in Hx, Hy. unfold wrap64 in E.
  assert (Hu : uint64_modulus = 18446744073709551616) by reflexivity.
  rewrite Hu in *.
  pose proof (Z.div_mod (v0 + x) 18446744073709551616 ltac:(lia)) as Dx.
  pose proof (Z.div_mod (v0 + y) 18446744073709551616 ltac:(lia)) as Dy.
  rewrite E in Dx.
  assert (x - y = 18446744073709551616
                  * ((v0 + x) / 18446744073709551616 - (v0 + y) / 18446744073709551616)) by lia.
  assert (- 18446744073709551616 < x - y < 18446744073709551616) by lia.
  assert ((v0 + x) / 18446744073709551616 - (v0 + y) / 18446744073709551616 = 0) by nia.
  lia.
Qed.

Lemma nonces_from_no_wrap v0 k :
  0 <= v0 -> v0 + Z.of_nat k <= maxUint64 -> nonces_from v0 k = seqZ (v0 + 1) (Z.of_nat k).
Proof.
  intros H0 Hk. unfold nonces_from. rewrite <- fmap_add_seqZ.
  apply Forall_fmap_ext_1, Forall_seqZ. intros i Hi. apply wrap64_small.
  unfold maxUint64 in *. lia.
Qed.

Lemma seqZ_sorted_le k : forall m, StronglySorted Z.le (seqZ m (Z.of_nat k)).
Proof.
  induction k as [|k IH]; intros m; [constructor|].
  rewrite seqZ_cons by lia.
  replace (Z.pred (Z.of_nat (S k))) with (Z.of_nat k) by lia.
  constructor; [apply IH|]. apply Forall_seqZ. intros; lia.
Qed.

Lemma sorted_le_NoDup_lt l : StronglySorted Z.le l -> NoDup l -> StronglySorted Z.lt l.
Proof.
  induction 1 as [|x l Hs IH Hx]; intros Hn; [constructor|].
  apply NoDup_cons in Hn as (Hin & Hn).
  constructor; [apply IH; exact Hn|].
  rewrite Forall_forall in *. intros y Hy.
  assert (x <> y) by (intros ->; contradiction).
  specialize (Hx y Hy). lia.
Qed.

Lemma merge_sort_strict l : NoDup l -> StronglySorted Z.lt (merge_sort Z.le l).
Proof.
  intros Hn. apply sorted_le_NoDup_lt.
  - apply StronglySorted_merge_sort; apply _.
  - rewrite merge_sort_Permutation. exact Hn.
Qed.

Lemma merge_sort_seqZ l m k : l ≡ₚ seqZ m (Z.of_nat k) -> merge_sort Z.le l = seqZ m (Z.of_nat k).
Proof.
  intros Hp. apply (Sorted_unique Z.le).
  - apply Sorted_merge_sort; apply _.
  - apply StronglySorted_Sorted, seqZ_sorted_le.
  - rewrite merge_sort_Permutation. exact Hp.
Qed.

(** The goroutine that holds the mutex can move, and when nobody holds
    it a goroutine that has not started can. *)
Lemma Inv_progress v0 sys :
  Inv v0 sys -> all_returned sys.1 \/ exists i sys', sys_step i sys = Some sys'.
Proof.
  destruct sys as [ts s]. intros [Hio Hlock Hcnt Hwr Hth]. cbn [fst snd] in *.
  destruct (decide (all_returned ts)) as [Hall|Hnot]; [left; exact Hall|right].
  destruct (mutex s) eqn:Hm.
  - assert (E : Exists (fun p => holds_lock p = true) ts).
    { apply not_Forall_Exists in Hnot; [|intros p; apply _]. clear Hnot.
      destruct (decide (Exists (fun p => holds_lock p = true) ts)) as [E|E]; [exact E|].
      exfalso. apply not_Exists_Forall in E; [|intros p; apply _].
      assert (sum_list_with lock_weight ts = 0%nat); [|lia].
      clear -E. induction E as [|p l Hp _ IH]; [reflexivity|].
      cbn [sum_list_with]. rewrite IH. unfold lock_weight. cbn in Hp.
      destruct (holds_lock p); [contradiction|reflexivity]. }
    apply Exists_exists in E as (p & Hin & Hp).
    apply list_elem_of_lookup in Hin as (i & Hi).
    exists i. unfold sys_step. cbn [fst snd]. rewrite Hi.
    rewrite Forall_forall in Hth.
    pose proof (Hth p ltac:(eapply list_elem_of_lookup_2; exact Hi)) as Hok.
    destruct p as [| |n|n|n|e]; try discriminate; cbn [thread_step].
    + destruct (readNonce_ok s _ Hio Hcnt) as (s1 & R & _). rewrite R. eauto.
    + destruct (incrementNonce_ok n s Hio) as (s1 & R & _). rewrite R. eauto.
    + eauto.
  - apply not_Forall_Exists in Hnot; [|intros p; apply _].
    apply Exists_exists in Hnot as (p & Hin & Hp).
    apply list_elem_of_lookup in Hin as (i & Hi).
    exists i. unfold sys_step. cbn [fst snd]. rewrite Hi.
    apply sum_lock_weight_zero in Hlock. rewrite Forall_forall in Hlock, Hth.
    pose proof (Hlock p ltac:(eapply list_elem_of_lookup_2; exact Hi)) as Hidle.
    pose proof (Hth p ltac:(eapply list_elem_of_lookup_2; exact Hi)) as Hok.
    destruct p as [| |n|n|n|e]; try discriminate; cbn [thread_step].
    + unfold Lock. rewrite Hm. eauto.
    + exfalso. apply Hp. cbn. eauto.
    + contradiction.
Qed.

Lemma sys_step_remaining i sys sys' :
  sys_step i sys = Some sys' ->
  (sum_list_with remaining sys'.1 < sum_list_with remaining sys.1)%nat.
Proof.
  destruct sys as [ts s]. unfold sys_step. cbn [fst snd].
  destruct (ts !! i) as [p|] eqn:Hi; [|discriminate].
  destruct (thread_step p s) as [[p' s']|] eqn:Hstep; [|discriminate].
  intros [= <-]. cbn [fst].
  destruct (list_insert_split ts i p p' Hi) as (l1 & l2 & -> & ->).
  rewrite !sum_list_with_app. cbn [sum_list_with].
  assert (remaining p' < remaining p)%nat; [|lia].
  destruct p; cbn [thread_step] in Hstep.
  - destruct (Lock s); try discriminate. injection Hstep as <- _. cbn. lia.
  - destruct (readNonce s); try discriminate; injection Hstep as <- _; cbn; lia.
  - destruct (incrementNonce nonce s); try discriminate; injection Hstep as <- _; cbn; lia.
  - injection Hstep as <- _. cbn. lia.
  - discriminate.
  - discriminate.
Qed.

(** From wherever the goroutines are, they can all be brought to return. *)
Lemma Inv_completes v0 : forall n sys,
  (sum_list_with remaining sys.1 <= n)%nat -> Inv v0 sys ->
  exists sys', rtc step sys sys' /\ all_returned sys'.1.
Proof.
  induction n as [|n IH]; intros sys Hn Hinv.
  - destruct (Inv_progress v0 sys Hinv) as [Hall|(i & sys' & Hs)].
    + exists sys. split; [reflexivity|exact Hall].
    + apply sys_step_remaining in Hs. lia.
  - destruct (Inv_progress v0 sys Hinv) as [Hall|(i & sys' & Hs)].
    + exists sys. split; [reflexivity|exact Hall].
    + destruct (IH sys') as (sys'' & Hr & Hall).
      * apply sys_step_remaining in Hs. lia.
      * eapply Inv_step; eassumption.
      * exists sys''. split; [|exact Hall]. eapply rtc_l; [exists i; exact Hs|exact Hr].
Qed.

(** One goroutine alone takes the steps of the function and ends as the
    function does. *)
Lemma incrementNonce_ends n s :
  match incrementNonce n s with
  | Ret _ _ | Panic _ _ => True
  | Exit _ _ | Blocked _ => False
  end.
Proof. rewrite incrementNonce_eq. cbn zeta. destruct (writable nonceFile s && fits _ s); exact I. Qed.

Lemma exec_alone s :
  mutex s = false ->
  exists p s', exec [0; 0; 0; 0]%nat ([Start], s) = ([p], s')
               /\ outcome_at p s' = Some (GetAndIncrementNonce s).
Proof.
  intros Hm. unfold GetAndIncrementNonce, defer. unfold mbind at 1. unfold M_bind at 1.
  cbn [exec sys_step fst snd lookup list_lookup thread_step].
  unfold Lock. rewrite Hm.
  cbn [insert list_insert exec sys_step fst snd lookup list_lookup thread_step].
  unfold mbind at 1. unfold M_bind at 1.
  pose proof (readNonce_ends (set_mutex true s)) as En.
  destruct (readNonce (set_mutex true s)) as [v s2|e s2| |] eqn:R; try contradiction.
  - cbn [insert list_insert exec sys_step fst snd lookup list_lookup thread_step].
    unfold mbind at 1. unfold M_bind at 1.
    pose proof (incrementNonce_ends v s2) as Ei.
    destruct (incrementNonce v s2) as [v' s3|e s3| |] eqn:I; try contradiction.
    + cbn [insert list_insert exec sys_step fst snd lookup list_lookup thread_step].
      eexists _, _. split; reflexivity.
    + cbn [insert list_insert exec sys_step fst snd lookup list_lookup thread_step].
      eexists _, _. split; reflexivity.
  - cbn [insert list_insert exec sys_step fst snd lookup list_lookup thread_step].
    eexists _, _. split; reflexivity.
Qed.

(** *** Several [Yobit] values

    Goroutines that all call on the [Yobit] value [k] move as the system
    that value sees. *)

Lemma process_step_flat k i P :
  all_on k P ->
  match process_step i P with
  | Some P' => sys_step i (flat k P) = Some (flat k P') /\ all_on k P'
  | None => sys_step i (flat k P) = None
  end.
Proof.
  intros Hk. unfold process_step, sys_step, flat, pcs. cbn [fst snd].
  rewrite list_lookup_fmap.
  destruct (goroutines P !! i) as [g|] eqn:Hi; cbn [fmap option_fmap option_map];
    [|reflexivity].
  assert (Hg : receiver g = k).
  { unfold all_on in Hk. rewrite Forall_forall in Hk. apply Hk.
    eapply list_elem_of_lookup_2. exact Hi. }
  rewrite Hg.
  destruct (thread_step (at_pc g) (seen_by k P)) as [[p' s']|]; [|reflexivity].
  split.
  - f_equal. unfold seen_by. cbn [goroutines mutexes world].
    rewrite decide_True by reflexivity. rewrite set_mutex_id by reflexivity.
    rewrite list_fmap_insert. reflexivity.
  - unfold all_on. cbn [goroutines]. apply Forall_insert; [exact Hk|reflexivity].
Qed.

Lemma moves_flat k P P' :
  all_on k P -> moves P P' -> step (flat k P) (flat k P') /\ all_on k P'.
Proof.
  intros Hk (i & Hs). pose proof (process_step_flat k i P Hk) as F. rewrite Hs in F.
  destruct F as (F1 & F2). split; [exists i; exact F1|exact F2].
Qed.

Lemma reach_flat k P P' :
  all_on k P -> rtc moves P P' -> rtc step (flat k P) (flat k P') /\ all_on k P'.
Proof.
  intros Hk Hr. induction Hr as [P|P P1 P2 Hm _ IH]; [split; [reflexivity|exact Hk]|].
  destruct (moves_flat k P P1 Hk Hm) as (S1 & K1).
  destruct (IH K1) as (S2 & K2). split; [eapply rtc_l; eassumption|exact K2].
Qed.

Lemma step_unflat k P sys' :
  all_on k P -> step (flat k P) sys' -> exists P', moves P P' /\ flat k P' = sys'.
Proof.
  intros Hk (i & Hs). pose proof (process_step_flat k i P Hk) as F.
  destruct (process_step i P) as [P'|] eqn:E.
  - destruct F as (F1 & _). exists P'. split; [exists i; exact E|congruence].
  - congruence.
Qed.

Lemma reach_unflat k sys sys' :
  rtc step sys sys' ->
  forall P, all_on k P -> flat k P = sys -> exists P', rtc moves P P' /\ flat k P' = sys'.
Proof.
  induction 1 as [sys|sys sys1 sys2 Hs _ IH]; intros P Hk E.
  - exists P. split; [reflexivity|exact E].
  - subst sys. destruct (step_unflat k P sys1 Hk Hs) as (P1 & M1 & E1).
    destruct (moves_flat k P P1 Hk M1) as (_ & K1).
    destruct (IH P1 K1 E1) as (P2 & M2 & E2).
    exists P2. split; [eapply rtc_l; eassumption|exact E2].
Qed.

Lemma play_flat k sched : forall P,
  all_on k P -> flat k (play sched P) = exec sched (flat k P).
Proof.
  induction sched as [|i sched IH]; intros P Hk; cbn [play exec]; [reflexivity|].
  pose proof (process_step_flat k i P Hk) as F.
  destruct (process_step i P) as [P'|].
  - destruct F as (F1 & F2). rewrite F1. apply IH. exact F2.
  - rewrite F. apply IH. exact Hk.
Qed.

(** What a schedule leads to can be reached. *)
Lemma play_reachable sched : forall P, rtc moves P (play sched P).
Proof.
  induction sched as [|i sched IH]; intros P; cbn [play]; [reflexivity|].
  destruct (process_step i P) as [P'|] eqn:E; [|apply IH].
  eapply rtc_l; [exists i; exact E|apply IH].
Qed.

Lemma all_on_start k N s : all_on k (start (replicate N k) s).
Proof.
  unfold all_on, start. cbn [goroutines]. apply Forall_fmap, Forall_replicate.
  reflexivity.
Qed.

Lemma flat_start k N s :
  mutex s = false -> flat k (start (replicate N k) s) = initial N s.
Proof.
  intros Hm. unfold flat, start, initial, pcs, seen_by. cbn [goroutines mutexes world].
  rewrite set_mutex_id by exact Hm. f_equal.
  rewrite <- list_fmap_compose, fmap_replicate. reflexivity.
Qed.

(** [N] calls one after the other return the [N] values that follow the
    stored one. *)
Lemma nonces_from_cons v0 k :
  nonces_from v0 (S k) = wrap64 (v0 + 1) :: nonces_from (wrap64 (v0 + 1)) k.
Proof.
  unfold nonces_from. rewrite Nat2Z.inj_succ, seqZ_cons by lia.
  rewrite fmap_cons. f_equal.
  replace (Z.pred (Z.succ (Z.of_nat k))) with (Z.of_nat k) by lia.
  change (Z.succ 1) with (1 + 1). rewrite <- fmap_add_seqZ, <- list_fmap_compose.
  apply list_fmap_ext. intros _ i _. cbn. unfold wrap64.
  rewrite Zplus_mod_idemp_l. f_equal. lia.
Qed.

Lemma run_replicate N : forall s v0,
  mutex s = false -> io_ok s -> counter s = Some v0 ->
  run (replicate N Call) s = nonces_from v0 N.
Proof.
  induction N as [|N IH]; intros s v0 Hm Hio Hv; [reflexivity|].
  cbn [replicate run].
  destruct (next_call s v0 Hm Hio Hv) as (s1 & G & _ & C1 & M1 & I1).
  rewrite G, nonces_from_cons. f_equal. apply IH; assumption.
Qed.

(** C5, as the code has it.  The mutex is a field of the [Yobit] value,
    the nonce file is one for the process.  [N] goroutines call
    [GetAndIncrementNonce] on the same [Yobit] value [k], from a stored
    value [v0], with the file operations allowed.  However their steps
    interleave, at most one goroutine is between [Lock] and [Unlock];
    the goroutines can always all be brought to return; and once all
    have returned, the nonces returned are those that [N] calls of
    [GetAndIncrementNonce] one after the other return, the [N] values
    that follow [v0] (as uint64), none twice and none left out: sorted,
    they increase strictly, and they are [v0 + 1 .. v0 + N] when that
    stays within a uint64.  The steps are those of the function: a
    goroutine left alone ends as [GetAndIncrementNonce] does. *)
Theorem C5_concurrent_calls_are_serialized (N k : nat) (s : State) (v0 : Z) (P : process)
  (HN : Z.of_nat N <= uint64_modulus)
  (Hm : mutex s = false) (Hio : io_ok s) (Hv : counter s = Some v0)
  (Hreach : rtc moves (start (replicate N k) s) P) :
  (sum_list_with lock_weight (pcs P) <= 1)%nat
  /\ (exists P', rtc moves P P' /\ all_returned (pcs P'))
  /\ (all_returned (pcs P) ->
      results (pcs P) ≡ₚ run (replicate N Call) s
      /\ results (pcs P) ≡ₚ nonces_from v0 N
      /\ NoDup (results (pcs P))
      /\ StronglySorted Z.lt (merge_sort Z.le (results (pcs P)))
      /\ (v0 + Z.of_nat N <= maxUint64 ->
          merge_sort Z.le (results (pcs P)) = seqZ (v0 + 1) (Z.of_nat N)))
  /\ (forall s0, mutex s0 = false ->
      let P1 := play [0; 0; 0; 0]%nat (start [k] s0) in
      exists p, pcs P1 = [p]
                /\ outcome_at p (seen_by k P1) = Some (GetAndIncrementNonce s0)).
Proof.
  destruct (reach_flat k _ P (all_on_start k N s) Hreach) as (Hflat & Hk).
  rewrite (flat_start k N s Hm) in Hflat.
  destruct (Inv_reachable v0 N s (flat k P) Hm Hio Hv Hflat) as (Hinv & Hlen).
  change ((flat k P).1) with (pcs P) in Hlen.
  split; [|split; [|split]].
  - change (pcs P) with ((flat k P).1).
    rewrite (inv_lock _ _ Hinv). destruct (mutex (flat k P).2); lia.
  - destruct (Inv_completes v0 _ (flat k P) (le_n _) Hinv) as (sys' & Hr & Hall).
    destruct (reach_unflat k _ _ Hr P Hk eq_refl) as (P' & Hr' & E).
    exists P'. split; [exact Hr'|]. rewrite <- E in Hall. exact Hall.
  - intros Hall. destruct (all_returned_results _ Hall) as (E & L).
    pose proof (inv_written _ _ Hinv) as Hw.
    change ((flat k P).1) with (pcs P) in Hw. rewrite E, L, Hlen in Hw.
    assert (Hnd : NoDup (results (pcs P))).
    { rewrite Hw. apply NoDup_nonces_from. exact HN. }
    split; [rewrite (run_replicate N s v0 Hm Hio Hv); exact Hw|].
    split; [exact Hw|]. split; [exact Hnd|]. split; [apply merge_sort_strict; exact Hnd|].
    intros Hb. apply merge_sort_seqZ. rewrite Hw.
    rewrite nonces_from_no_wrap; [reflexivity| |exact Hb].
    apply (counter_range s v0 Hv).
  - intros s0 Hm0. cbn zeta.
    pose proof (play_flat k [0; 0; 0; 0]%nat (start [k] s0) (all_on_start k 1 s0)) as F.
    pose proof (flat_start k 1 s0 Hm0) as Fs.
    change (replicate 1 k) with [k] in Fs. rewrite Fs in F.
    destruct (exec_alone s0 Hm0) as (p & s' & E & O).
    change (initial 1 s0) with ([Start], s0) in F. rewrite E in F.
    remember (play [0; 0; 0; 0]%nat (start [k] s0)) as P1 eqn:EP.
    pose proof (f_equal fst F) as F1. pose proof (f_equal snd F) as F2.
    unfold flat in F1, F2. cbn [fst snd] in F1, F2.
    exists p. split; [exact F1|]. rewrite F2. exact O.
Qed.

Lemma C5_witness :
  let P := play [1; 0; 2; 1; 1; 1; 0; 2; 0; 0; 0; 0; 2; 2; 2; 2]%nat
             (start [0; 0; 0]%nat (fresh_state no_server)) in
  results (pcs P) = [3; 2; 4]
  /\ results (pcs P) ≡ₚ run [Call; Call; Call] (fresh_state no_server)
  /\ NoDup (results (pcs P))
  /\ merge_sort Z.le (results (pcs P)) = [2; 3; 4].
Proof.
  cbv zeta.
  set (P := play [1; 0; 2; 1; 1; 1; 0; 2; 0; 0; 0; 0; 2; 2; 2; 2]%nat
              (start [0; 0; 0]%nat (fresh_state no_server))).
  assert (Hall : all_returned (pcs P)).
  { vm_compute. repeat constructor; eexists; reflexivity. }
  destruct (C5_concurrent_calls_are_serialized 3 0 (fresh_state no_server) 1 P
              ltac:(vm_compute; discriminate) eq_refl (io_ok_fresh no_server) eq_refl
              (play_reachable _ _)) as (_ & _ & H & _).
  destruct (H Hall) as (Hrun & _ & Hnd & _ & Hs).
  split; [vm_compute; reflexivity|]. split; [exact Hrun|]. split; [exact Hnd|].
  apply Hs. vm_compute. discriminate.
Defined.

(** C5 as worded fails within one process: two goroutines that call on
    two [Yobit] values lock two mutexes, so both are between [Lock] and
    [Unlock] at once; both read the stored [5], both write [6] and both
    return [6]. *)
Lemma C5_counterexample :
  let P0 := start [0; 1]%nat (state_with "5") in
  let P := play [0; 1; 0; 1; 0; 1; 0; 1]%nat P0 in
  sum_list_with lock_weight (pcs (play [0; 1]%nat P0)) = 2%nat
  /\ all_returned (pcs P)
  /\ results (pcs P) = [6; 6]
  /\ ~ NoDup (results (pcs P))
  /\ counter (world P) = Some 6.
Proof.
  cbv zeta.
  assert (E : results (pcs (play [0; 1; 0; 1; 0; 1; 0; 1]%nat
                              (start [0; 1]%nat (state_with "5")))) = [6; 6])
    by (vm_compute; reflexivity).
  split; [vm_compute; reflexivity|].
  split; [vm_compute; repeat constructor; eexists; reflexivity|].
  split; [exact E|]. split; [|vm_compute; reflexivity].
  rewrite E. intros H. apply NoDup_cons in H as (H & _). apply H. left.
Qed.

(** ** Further facts on the signer and on two calls in a row

    The signer is a function of its two arguments and of nothing else.
    That two different bodies, or two different secrets, never get the
    same signature is a property of HMAC-SHA512 no proof is known of; what
    is certain is below. *)

Lemma sign_deterministic secret secret' message message' :
  secret = secret' -> message = message' ->
  signHmacSha512 secret message = signHmacSha512 secret' message'.
Proof. intros -> ->. reflexivity. Qed.

(** A secret shorter than a block and the same secret followed by a zero
    byte sign alike: the key is filled with zeros up to the block size. *)
Lemma sign_zero_padded_secret secret message :
  (length secret < BlockSize)%nat ->
  signHmacSha512 (secret ++ [x00]) message = signHmacSha512 secret message.
Proof.
  intros Hl. unfold signHmacSha512. rewrite !hmac_Sum_spec. unfold HMAC_spec.
  rewrite length_app. cbn [length].
  replace (BlockSize <? length secret + 1)%nat with false
    by (symmetry; apply Nat.ltb_ge; lia).
  replace (BlockSize <? length secret)%nat with false
    by (symmetry; apply Nat.ltb_ge; lia).
  rewrite length_app. cbn [length].
  replace (BlockSize - length secret)%nat with (S (BlockSize - (length secret + 1))) by lia.
  cbn [repeat]. rewrite <- app_assoc. reflexivity.
Qed.

Example sign_changes_on_examples :
  let sign s m := signHmacSha512 (list_byte_of_string s) (list_byte_of_string m) in
  sign "abc" "method=Trade&nonce=1" <> sign "abc" "method=Trade&nonce=2"
  /\ sign "abc" "method=Trade&nonce=1" <> sign "abd" "method=Trade&nonce=1".
Proof. split; vm_compute; discriminate. Qed.

Lemma wrap64_succ_neq n : wrap64 (n + 1) <> wrap64 n.
Proof.
  unfold wrap64. assert (Hu : uint64_modulus = 18446744073709551616) by reflexivity.
  rewrite Hu. intros E.
  pose proof (Z.div_mod (n + 1) 18446744073709551616 ltac:(lia)) as D1.
  pose proof (Z.div_mod n 18446744073709551616 ltac:(lia)) as D2.
  rewrite E in D1.
  assert (1 = 18446744073709551616
              * ((n + 1) / 18446744073709551616 - n / 18446744073709551616)) by lia.
  nia.
Qed.

(** What [query] leaves of the state: one more request on the wire. *)
Lemma query_Ret y req s body s' :
  query y req s = Ret body s' -> s' = set_wire (wire s ++ [req]) s.
Proof.
  unfold query, client_Do, fatal, mbind, M_bind, mret, M_ret.
  destruct (server s (wire s ++ [req])) as [[code b]|]; [|discriminate].
  destruct (negb (code =? StatusOK)); [discriminate|]. intros [= _ <-]. reflexivity.
Qed.

(** Two calls in a row, the first of which returns: each request carries
    the nonce drawn for it, signed with its body, and the two nonces
    differ. *)
Lemma callPrivate_twice y method args s v body s' :
  mutex s = false -> io_ok s -> counter s = Some v ->
  callPrivate y method args s = Ret body s' ->
  let n1 := wrap64 (v + 1) in
  let n2 := wrap64 (n1 + 1) in
  wire (final_state (callPrivate y method args s'))
  = wire s ++ [request_of y method n1 args; request_of y method n2 args]
  /\ n1 <> n2.
Proof.
  intros Hm Hio Hv Hcall. cbn zeta.
  rewrite callPrivate_eq in Hcall.
  destruct (next_call s v Hm Hio Hv) as (s1 & G & _ & C1 & Hm1 & Hio1).
  rewrite G in Hcall. apply query_Ret in Hcall. subst s'.
  assert (W1 : wire s1 = wire s).
  { rewrite (GetAndIncrementNonce_ok s v Hm Hio Hv) in G. injection G as <-. reflexivity. }
  split.
  - rewrite (callPrivate_sends y method args _ (wrap64 (v + 1))).
    + cbn [wire set_wire]. rewrite W1, <- app_assoc. reflexivity.
    + exact Hm1.
    + exact Hio1.
    + exact C1.
  - intros E. symmetry in E. rewrite wrap64_succ in E.
    replace (v + 1 + 1) with ((v + 1) + 1) in E by lia.
    exact (wrap64_succ_neq (v + 1) E).
Qed.

Example callPrivate_twice_example :
  let sign nonce :=
    Header (request_of example_yobit "Trade" nonce example_args) !! "Sign" in
  sign 2 <> sign 3.
Proof. vm_compute. discriminate. Qed.

(** * The rest of the package *)

(** ** What [readNonce] accepts *)

Lemma is_digit_value c : is_digit c = true -> 0 <= digit_value c <= 9.
Proof.
  unfold is_digit, digit_value. change (code "0"%char) with 48. change (code "9"%char) with 57.
  intros H. apply andb_true_iff in H as (H1 & H2).
  apply Z.leb_le in H1, H2. lia.
Qed.

Lemma decimal_value_from_ge s : forall n,
  0 <= n -> all_digits s = true -> n <= decimal_value_from n s.
Proof.
  induction s as [|c s IH]; intros n Hn Hd; cbn [decimal_value_from]; [lia|].
  unfold all_digits in Hd. cbn [list_ascii_of_string forallb] in Hd.
  apply andb_true_iff in Hd as (Hc & Hd).
  pose proof (is_digit_value c Hc).
  etransitivity; [|apply IH; [lia|exact Hd]]. lia.
Qed.

(** The loop of [ParseUint] returns exactly on the texts of digits whose
    value fits a uint64, and then returns that value. *)
Lemma parseUint_loop_spec s : forall n v,
  0 <= n <= maxUint64 ->
  parseUint_loop s n = inl v
  <-> all_digits s = true /\ decimal_value_from n s = v /\ v <= maxUint64.
Proof.
  assert (Hc : cutoff = 1844674407370955162) by reflexivity.
  assert (Hm : maxUint64 = 18446744073709551615) by reflexivity.
  assert (Hu : uint64_modulus = 18446744073709551616) by reflexivity.
  induction s as [|c s IH]; intros n v Hn.
  - cbn. split; [intros [= <-]; repeat split; lia|intros (_ & <- & _); reflexivity].
  - unfold all_digits. cbn [list_ascii_of_string forallb decimal_value_from].
    change (parseUint_loop (String c s) n) with
      (if (code "0"%char <=? code c) && (code c <=? code "9"%char) then
         let d := code c - code "0"%char in
         if cutoff <=? n then inr ErrRange
         else
           let n0 := wrap64 (n * 10) in
           let n1 := wrap64 (n0 + d) in
           if (n1 <? n0) || (maxUint64 <? n1) then inr ErrRange
           else parseUint_loop s n1
       else @inr Z numErr ErrSyntax).
    change ((code "0"%char <=? code c) && (code c <=? code "9"%char)) with (is_digit c).
    destruct (is_digit c) eqn:Hd; cbn [andb];
      [|split; [discriminate|intros (H & _); discriminate]].
    pose proof (is_digit_value c Hd) as Hv. unfold digit_value in *.
    cbn zeta. fold (all_digits s).
    destruct (cutoff <=? n) eqn:Hcut.
    + apply Z.leb_le in Hcut. split; [discriminate|].
      intros (Hs & <- & Hle). exfalso.
      pose proof (decimal_value_from_ge s (n * 10 + (code c - code "0"%char))
                    ltac:(lia) Hs). lia.
    + apply Z.leb_gt in Hcut. rewrite (wrap64_small (n * 10)) by lia.
      destruct (Z_le_gt_dec (n * 10 + (code c - code "0"%char)) maxUint64) as [Hfit|Hover].
      * rewrite wrap64_small by lia.
        replace (n * 10 + (code c - code "0"%char) <? n * 10) with false
          by (symmetry; apply Z.ltb_ge; lia).
        replace (maxUint64 <? n * 10 + (code c - code "0"%char)) with false
          by (symmetry; apply Z.ltb_ge; lia).
        cbn [orb]. apply IH. lia.
      * replace (wrap64 (n * 10 + (code c - code "0"%char)))
          with (n * 10 + (code c - code "0"%char) - uint64_modulus).
        2:{ unfold wrap64. apply Z.mod_unique with (q := 1); lia. }
        replace (n * 10 + (code c - code "0"%char) - uint64_modulus <? n * 10) with true
          by (symmetry; apply Z.ltb_lt; lia).
        cbn [orb]. split; [discriminate|].
        intros (Hs & <- & Hle). exfalso.
        pose proof (decimal_value_from_ge s (n * 10 + (code c - code "0"%char))
                      ltac:(lia) Hs). lia.
Qed.

Lemma ParseUint_spec s v :
  strconv_ParseUint s = inl v
  <-> s <> "" /\ all_digits s = true /\ decimal_value s = v /\ v <= maxUint64.
Proof.
  unfold strconv_ParseUint, decimal_value. destruct s as [|c s].
  - split; [discriminate|intros (H & _); congruence].
  - pose proof (parseUint_loop_spec (String c s) 0) as L.
    destruct (parseUint_loop (String c s) 0) as [n|e].
    + split.
      * intros [= <-]. split; [discriminate|]. apply L; [split; [lia|discriminate]|reflexivity].
      * intros (_ & H). f_equal. symmetry.
        assert (E : @inl Z numErr n = inl v); [|congruence].
        apply L; [split; [lia|discriminate]|exact H].
    + split; [discriminate|]. intros (_ & H).
      apply L in H; [discriminate|split; [lia|discriminate]].
Qed.

(** X1.  On a nonce file that is there and can be read, [readNonce]
    returns [v], leaving everything as it is, exactly when the contents
    are a non-empty text of decimal digits whose value is [v] and fits a
    uint64; zeros in front are accepted, a sign, a space or a line end
    is not. *)
Theorem readNonce_accepts_decimal_digits (s : State) (data : list byte) (v : Z)
  (Hfile : files s !! nonceFile = Some data) (Hread : may_read s = true) :
  readNonce s = Ret v s
  <-> string_of_list_byte data <> ""
      /\ all_digits (string_of_list_byte data) = true
      /\ decimal_value (string_of_list_byte data) = v
      /\ v <= maxUint64.
Proof.
  rewrite readNonce_eq, Hfile. unfold read_existing. rewrite Hread.
  rewrite <- ParseUint_spec.
  destruct (strconv_ParseUint (string_of_list_byte data)) as [n|e].
  - split; [intros [= <-]; reflexivity|intros [= <-]; reflexivity].
  - split; discriminate.
Qed.

Lemma readNonce_accepts_decimal_digits_witness :
  readNonce (state_with "007") = Ret 7 (state_with "007")
  /\ ~ readNonce (state_with "+7") = Ret 7 (state_with "+7").
Proof.
  split.
  - apply (readNonce_accepts_decimal_digits (state_with "007") (list_byte_of_string "007") 7
             eq_refl eq_refl).
    repeat split; [discriminate|discriminate].
  - intros H.
    apply (readNonce_accepts_decimal_digits (state_with "+7") (list_byte_of_string "+7") 7
             eq_refl eq_refl) in H.
    destruct H as (_ & H & _). discriminate.
Defined.

(** ** The nonce file between calls *)

(** X2.  What [incrementNonce] writes, [readNonce] reads back: after
    [incrementNonce] has returned [n'] (the old value plus one, as a
    uint64), [readNonce] returns [n'] and changes nothing. *)
Theorem incrementNonce_then_readNonce (n n' : Z) (s s1 : State)
  (Hinc : incrementNonce n s = Ret n' s1) (Hread : may_read s = true) :
  n' = wrap64 (n + 1) /\ readNonce s1 = Ret n' s1.
Proof.
  rewrite incrementNonce_eq in Hinc. cbn zeta in Hinc.
  destruct (writable nonceFile s && fits _ s); [|discriminate].
  injection Hinc as <- <-. split; [reflexivity|].
  rewrite readNonce_eq. cbn [files set_files]. rewrite lookup_insert_eq.
  unfold read_existing. cbn [may_read set_files]. rewrite Hread.
  rewrite string_of_list_byte_of_string, ParseUint_FormatUint; [reflexivity|].
  pose proof (wrap64_range (n + 1)). unfold maxUint64. lia.
Qed.

Lemma incrementNonce_then_readNonce_witness :
  exists s1, incrementNonce 41 (fresh_state no_server) = Ret 42 s1
             /\ readNonce s1 = Ret 42 s1.
Proof.
  eexists. split; [reflexivity|].
  exact (proj2 (incrementNonce_then_readNonce 41 42 (fresh_state no_server) _
                  eq_refl eq_refl)).
Defined.

(** X3.  The exported [WriteNonce] sets the counter: after it has written
    the decimal text of [u], the next call of [GetAndIncrementNonce]
    returns [u + 1] (as a uint64), whatever was issued before. *)
Theorem WriteNonce_sets_the_counter (u : Z) (s : State)
  (Hu : 0 <= u <= maxUint64) (Hm : mutex s = false) (Hio : io_ok s) :
  exists s1 s2,
    WriteNonce (list_byte_of_string (strconv_FormatUint u)) s = Ret tt s1
    /\ GetAndIncrementNonce s1 = Ret (wrap64 (u + 1)) s2.
Proof.
  destruct Hio as (Hs & Hc & Hr & Hw & Hl).
  rewrite WriteNonce_eq, (fits_uint64 _ s Hl). unfold writable, openable.
  rewrite Hw, Hc, orb_true_r. cbn [andb].
  eexists. eexists. split; [reflexivity|].
  apply GetAndIncrementNonce_ok; [exact Hm|repeat split; assumption|].
  apply counter_write. exact Hu.
Qed.

Lemma WriteNonce_sets_the_counter_witness :
  exists s1 s2,
    WriteNonce (list_byte_of_string "5") (state_with "1000") = Ret tt s1
    /\ GetAndIncrementNonce s1 = Ret 6 s2.
Proof.
  exact (WriteNonce_sets_the_counter 5 (state_with "1000")
           ltac:(split; [lia|discriminate]) eq_refl (io_ok_state_with "1000")).
Defined.

(** X4.  [CreateNonceFileIfNotExists] never overwrites: when it returns, a
    file that was there is as it was; a file that was not there holds the
    text [1], unless its path could not be looked up, in which case
    nothing was created and nothing has changed; no other file has
    changed, and running it again changes nothing. *)
Theorem CreateNonceFileIfNotExists_keeps_existing (s s1 : State)
  (Hret : CreateNonceFileIfNotExists s = Ret tt s1) :
  (is_Some (files s !! nonceFile) -> s1 = s)
  /\ (files s !! nonceFile = None -> may_stat s = true ->
      files s1 = <[nonceFile := list_byte_of_string "1"]> (files s))
  /\ (may_stat s = false -> s1 = s)
  /\ (forall path, path <> nonceFile -> files s1 !! path = files s !! path)
  /\ CreateNonceFileIfNotExists s1 = Ret tt s1.
Proof.
  rewrite CreateNonceFileIfNotExists_eq in Hret.
  rewrite CreateNonceFileIfNotExists_eq.
  destruct (may_stat s) eqn:Hs.
  - destruct (files s !! nonceFile) as [data|] eqn:E.
    + injection Hret as <-. rewrite Hs, E.
      split; [reflexivity|]. split; [discriminate|]. split; [discriminate|].
      split; reflexivity.
    + destruct (may_create s); [|discriminate].
      destruct (may_write s && fits _ s); [|discriminate].
      injection Hret as <-. unfold created. cbn [files set_files may_stat].
      rewrite Hs, lookup_insert_eq.
      split; [intros [x Hx]; discriminate|]. split; [reflexivity|].
      split; [discriminate|]. split; [|reflexivity].
      intros path Hp. apply lookup_insert_ne. congruence.
  - injection Hret as <-. rewrite Hs.
    split; [reflexivity|]. split; [discriminate|]. split; [reflexivity|].
    split; reflexivity.
Qed.

Lemma CreateNonceFileIfNotExists_keeps_existing_witness :
  CreateNonceFileIfNotExists (state_with "77") = Ret tt (state_with "77")
  /\ (exists s1, CreateNonceFileIfNotExists (fresh_state no_server) = Ret tt s1
                 /\ files s1 !! nonceFile = Some (list_byte_of_string "1"))
  /\ CreateNonceFileIfNotExists refusing_state = Ret tt refusing_state.
Proof.
  split; [|split].
  - destruct (CreateNonceFileIfNotExists_keeps_existing (state_with "77") (state_with "77")
                eq_refl) as (_ & _ & _ & _ & H).
    exact H.
  - eexists. split; [reflexivity|].
    destruct (CreateNonceFileIfNotExists_keeps_existing (fresh_state no_server) _ eq_refl)
      as (_ & H & _).
    rewrite (H eq_refl eq_refl). apply lookup_insert_eq.
  - destruct (CreateNonceFileIfNotExists_keeps_existing refusing_state refusing_state
                eq_refl) as (_ & _ & _ & _ & H).
    exact H.
Defined.

(** X5.  [GetAndIncrementNonce] gives the mutex back however it ends: it
    returns or panics only from an unlocked mutex and leaves it unlocked;
    on a locked mutex it waits and touches nothing; it never ends the
    process. *)
Theorem GetAndIncrementNonce_releases_mutex (s : State) :
  match GetAndIncrementNonce s with
  | Ret _ s' | Panic _ s' => mutex s = false /\ mutex s' = false
  | Blocked s' => mutex s = true /\ s' = s
  | Exit _ _ => False
  end.
Proof.
  destruct (mutex s) eqn:Hm.
  - rewrite GetAndIncrementNonce_locked by exact Hm. split; reflexivity.
  - pose proof (GetAndIncrementNonce_inv s Hm) as I.
    destruct (GetAndIncrementNonce s) as [n s'|e s'|e s'|s'].
    + split; [reflexivity|]. apply I.
    + split; [reflexivity|]. apply I.
    + exact I.
    + contradiction.
Qed.

Lemma readNonce_files s :
  let s1 := final_state (readNonce s) in
  (forall path, path <> nonceFile -> files s1 !! path = files s !! path)
  /\ (is_Some (files s !! nonceFile) -> s1 = s).
Proof.
  cbn zeta. rewrite readNonce_eq. unfold read_existing.
  destruct (files s !! nonceFile) as [data|] eqn:E.
  - destruct (may_read s); [destruct (strconv_ParseUint (string_of_list_byte data))|];
      cbn [final_state]; split; reflexivity || (intros _; reflexivity).
  - assert (N : forall x path, path <> nonceFile ->
                <[nonceFile := x]> (files s) !! path = files s !! path).
    { intros x path Hp. apply lookup_insert_ne. congruence. }
    destruct (may_stat s);
      [|cbn [final_state]; split; [reflexivity|intros [x Hx]; discriminate]].
    destruct (may_create s); [destruct (may_write s && fits _ s)|].
    + unfold created. cbn [may_read set_files].
      destruct (may_read s);
        [rewrite string_of_list_byte_of_string;
         change (strconv_ParseUint "1") with (@inl Z error 1)|];
        cbn [final_state files set_files];
        (split; [apply N|intros [x Hx]; discriminate]).
    + cbn [final_state]. split; [|intros [x Hx]; discriminate].
      intros path Hp.
      destruct (failed_write_files nonceFile (list_byte_of_string "1") (emptied s))
        as (Q & _).
      rewrite (Q path Hp). apply N. exact Hp.
    + cbn [final_state]. split; [reflexivity|intros [x Hx]; discriminate].
Qed.

(** X6.  A call touches the nonce file and nothing else: the other files,
    the permissions, the limit on the size of a file, the wire and the
    transport are as before.  A call that does not return leaves a nonce
    file that was there as it was, but for one case: when the file has no
    room for the text of the new value, the write fails after the file
    was opened, and the file holds the beginning of the new text that
    went in.  Where the file has room for the new value, a call that does
    not return leaves every file as it was. *)
Theorem GetAndIncrementNonce_touches_only_the_nonce_file (s : State) :
  let s' := final_state (GetAndIncrementNonce s) in
  (forall path, path <> nonceFile -> files s' !! path = files s !! path)
  /\ may_stat s' = may_stat s /\ may_create s' = may_create s
  /\ may_read s' = may_read s /\ may_write s' = may_write s
  /\ file_limit s' = file_limit s /\ wire s' = wire s /\ server s' = server s
  /\ (forall data, files s !! nonceFile = Some data -> ~ returns (GetAndIncrementNonce s) ->
      files s' = files s
      \/ exists v,
           counter s = Some v /\ ~ room_for (wrap64 (v + 1)) s
           /\ files s' !! nonceFile
              = Some (cut_short (list_byte_of_string (strconv_FormatUint (wrap64 (v + 1)))) s))
  /\ (forall v, counter s = Some v -> is_Some (files s !! nonceFile) ->
      ~ returns (GetAndIncrementNonce s) -> room_for (wrap64 (v + 1)) s ->
      files s' = files s).
Proof.
  cbn zeta.
  pose proof (GetAndIncrementNonce_frame s) as Fr. cbn zeta in Fr.
  destruct Fr as (A1 & A2 & A3 & A4 & A5 & A6 & A7).
  destruct (mutex s) eqn:Hm.
  { rewrite GetAndIncrementNonce_locked by exact Hm. cbn [final_state].
    split; [reflexivity|]. do 7 (split; [reflexivity|]).
    split; [intros; left; reflexivity|reflexivity]. }
  revert A1 A2 A3 A4 A5 A6 A7. rewrite GetAndIncrementNonce_eq by exact Hm.
  pose proof (readNonce_files s) as (P1 & P2). pose proof (readNonce_ends s) as En.
  pose proof (readNonce_frame s) as F.
  destruct (readNonce s) as [v s1|e s1|e s1|s1] eqn:R; try contradiction;
    cbn [final_state] in *; cbn zeta; intros A1 A2 A3 A4 A5 A6 A7.
  - apply readNonce_Ret in R as (C0 & _ & [d1 Hd1] & _).
    destruct F as (_ & _ & F3 & _ & F5 & F6 & _).
    destruct (may_write s && fits _ s) eqn:Hw; cbn [final_state] in *.
    + split.
      { intros path Hp. cbn [files set_files]. rewrite lookup_insert_ne by congruence.
        apply P1. exact Hp. }
      do 7 (split; [assumption|]).
      split; intros; exfalso; match goal with H : ~ returns _ |- _ => apply H end;
        eexists _, _; reflexivity.
    + destruct (failed_write_files nonceFile
                  (list_byte_of_string (strconv_FormatUint (wrap64 (v + 1)))) s1)
        as (Q1 & Q2).
      split; [intros path Hp; rewrite (Q1 path Hp); apply P1; exact Hp|].
      do 7 (split; [assumption|]).
      assert (W : writable nonceFile s1 = may_write s).
      { unfold writable, openable. rewrite F5, Hd1.
        rewrite bool_decide_eq_true_2 by eauto. apply andb_true_r. }
      split.
      * intros data Hd _. pose proof (P2 ltac:(eauto)) as Es.
        destruct Q2 as [Q2|(Q2 & Q3)]; [left; rewrite Q2, Es; reflexivity|right].
        exists v. split; [exact C0|]. rewrite W in Q2. rewrite Q2 in Hw. cbn [andb] in Hw.
        split; [unfold room_for; rewrite Hw; discriminate|].
        rewrite Q3. unfold cut_short. rewrite F6. reflexivity.
      * intros v0 Hv0 Hs _ Hroom. assert (v0 = v) by congruence. subst v0.
        unfold room_for in Hroom. rewrite Hroom, andb_true_r in Hw.
        destruct Q2 as [Q2|(Q2 & _)]; [rewrite Q2, (P2 Hs); reflexivity|].
        rewrite W in Q2. congruence.
  - split; [exact P1|]. do 7 (split; [assumption|]).
    split; [intros data Hd _; left|intros v0 _ Hs _ _]; rewrite P2 by eauto; reflexivity.
Qed.

(** X7.  With the file operations allowed, calls and restarts in any
    order return consecutive values: the stored value plus one, plus two,
    and so on, with no gap, as long as this stays within a uint64. *)
Theorem sequential_calls_are_consecutive (evs : list event) (s : State) (v : Z)
  (Hm : mutex s = false) (Hio : io_ok s) (Hv : counter s = Some v)
  (Hb : v + Z.of_nat (calls evs) <= maxUint64) :
  run evs s = seqZ (v + 1) (Z.of_nat (calls evs)).
Proof. apply run_exact; assumption. Qed.

Lemma sequential_calls_are_consecutive_witness :
  run [Call; Restart; Call; Call; Restart] (state_with "41") = [42; 43; 44].
Proof.
  exact (sequential_calls_are_consecutive [Call; Restart; Call; Call; Restart]
           (state_with "41") 41 eq_refl (io_ok_state_with "41") eq_refl
           ltac:(vm_compute; discriminate)).
Defined.

(** ** How the signer reads its secret *)

(** X8.  A secret of fewer than 128 bytes and the same secret followed by
    a zero byte give the same signature on every message: the key is
    filled with zero bytes up to the block size of SHA-512. *)
Theorem sign_ignores_trailing_zero_byte (secret message : list byte)
  (Hshort : (length secret < BlockSize)%nat) :
  signHmacSha512 (secret ++ [x00]) message = signHmacSha512 secret message.
Proof. apply sign_zero_padded_secret. exact Hshort. Qed.

Lemma sign_ignores_trailing_zero_byte_witness :
  signHmacSha512 (list_byte_of_string "abc" ++ [x00]) (list_byte_of_string "method=Trade&nonce=1")
  = signHmacSha512 (list_byte_of_string "abc") (list_byte_of_string "method=Trade&nonce=1").
Proof.
  exact (sign_ignores_trailing_zero_byte (list_byte_of_string "abc")
           (list_byte_of_string "method=Trade&nonce=1") ltac:(vm_compute; lia)).
Defined.

(** X9.  A secret of more than 128 bytes signs as its own SHA-512 digest
    does: the 64 bytes of the digest are a second secret with the same
    signatures. *)
Theorem sign_hashes_long_secret (secret message : list byte)
  (Hlong : (BlockSize < length secret)%nat) :
  signHmacSha512 secret message = signHmacSha512 (Sum512 secret) message.
Proof.
  unfold signHmacSha512. rewrite !hmac_Sum_spec. unfold HMAC_spec.
  rewrite length_Sum512.
  replace (BlockSize <? length secret)%nat with true by (symmetry; apply Nat.ltb_lt; exact Hlong).
  replace (BlockSize <? Size)%nat with false by reflexivity.
  rewrite length_Sum512. reflexivity.
Qed.

Lemma sign_hashes_long_secret_witness :
  signHmacSha512 (repeat xaa 131) (list_byte_of_string "abc")
  = signHmacSha512 (Sum512 (repeat xaa 131)) (list_byte_of_string "abc").
Proof.
  exact (sign_hashes_long_secret (repeat xaa 131) (list_byte_of_string "abc")
           ltac:(vm_compute; lia)).
Defined.

(** ** The form body can be read back *)

Lemma append_cons x (a b : string) : String x a +:+ b = String x (a +:+ b).
Proof. reflexivity. Qed.

Lemma append_nil_l (b : string) : "" +:+ b = b.
Proof. reflexivity. Qed.

Lemma append_assoc (a b c : string) : (a +:+ b) +:+ c = a +:+ (b +:+ c).
Proof.
  induction a as [|x a IH]; [reflexivity|]. rewrite !append_cons. f_equal. exact IH.
Qed.

Lemma append_nil_r (a : string) : a +:+ "" = a.
Proof. induction a as [|x a IH]; [reflexivity|]. rewrite append_cons. f_equal. exact IH. Qed.

Lemma has_char_append c a b : has_char c (a +:+ b) = has_char c a || has_char c b.
Proof.
  unfold has_char. induction a as [|x a IH]; [reflexivity|].
  rewrite append_cons. cbn [list_ascii_of_string existsb]. rewrite IH. apply orb_assoc.
Qed.

(** Facts on each of the 256 bytes. *)
Lemma hex_value_high c :
  hex_value (upperhex_digit (Z.shiftr (code c) 4)) = Some (Z.shiftr (code c) 4).
Proof. destruct c as [[] [] [] [] [] [] [] []]; reflexivity. Qed.

Lemma hex_value_low c :
  hex_value (upperhex_digit (Z.land (code c) 15)) = Some (Z.land (code c) 15).
Proof. destruct c as [[] [] [] [] [] [] [] []]; reflexivity. Qed.

Lemma char_of_nibbles c : char_of (Z.shiftr (code c) 4 * 16 + Z.land (code c) 15) = c.
Proof. destruct c as [[] [] [] [] [] [] [] []]; reflexivity. Qed.

Lemma upperhex_digit_escaped c :
  is_escaped_char (upperhex_digit (Z.shiftr (code c) 4)) = true
  /\ is_escaped_char (upperhex_digit (Z.land (code c) 15)) = true.
Proof. destruct c as [[] [] [] [] [] [] [] []]; split; reflexivity. Qed.

Lemma unescaped_char c :
  shouldEscape c = false ->
  is_escaped_char c = true /\ c <> "+"%char /\ c <> "%"%char.
Proof.
  destruct c as [[] [] [] [] [] [] [] []]; intros H; try discriminate H;
    (split; [reflexivity|split; discriminate]).
Qed.

Lemma QueryEscape_cons c s :
  QueryEscape (String c s) =
    if shouldEscape c then
      if bool_decide (c = " "%char) then String "+" (QueryEscape s)
      else String "%" (String (upperhex_digit (Z.shiftr (code c) 4))
                      (String (upperhex_digit (Z.land (code c) 15)) (QueryEscape s)))
    else String c (QueryEscape s).
Proof. reflexivity. Qed.

Lemma QueryUnescape_cons c r :
  QueryUnescape (String c r) =
    if bool_decide (c = "+"%char) then String " " (QueryUnescape r)
    else if bool_decide (c = "%"%char) then
      match r with
      | String a (String b r') =>
          match hex_value a, hex_value b with
          | Some x, Some y => String (char_of (x * 16 + y)) (QueryUnescape r')
          | _, _ => String c (QueryUnescape r)
          end
      | _ => String c (QueryUnescape r)
      end
    else String c (QueryUnescape r).
Proof. reflexivity. Qed.

(** [QueryUnescape] undoes [QueryEscape], also in front of another text. *)
Lemma QueryUnescape_QueryEscape_append s : forall t,
  QueryUnescape (QueryEscape s +:+ t) = s +:+ QueryUnescape t.
Proof.
  induction s as [|c s IH]; intros t; [reflexivity|].
  rewrite QueryEscape_cons. destruct (shouldEscape c) eqn:E.
  - destruct (bool_decide (c = " "%char)) eqn:Sp.
    + apply bool_decide_eq_true in Sp. subst c.
      rewrite !append_cons, QueryUnescape_cons.
      change (bool_decide ("+"%char = "+"%char)) with true. cbv iota.
      rewrite IH. reflexivity.
    + rewrite !append_cons, QueryUnescape_cons.
      change (bool_decide ("%"%char = "+"%char)) with false.
      change (bool_decide ("%"%char = "%"%char)) with true. cbv iota.
      rewrite hex_value_high, hex_value_low, char_of_nibbles, IH. reflexivity.
  - destruct (unescaped_char c E) as (_ & Hp & Hq).
    rewrite !append_cons, QueryUnescape_cons.
    rewrite (bool_decide_eq_false_2 _ Hp), (bool_decide_eq_false_2 _ Hq), IH. reflexivity.
Qed.

Lemma QueryUnescape_QueryEscape s : QueryUnescape (QueryEscape s) = s.
Proof.
  rewrite <- (append_nil_r (QueryEscape s)), QueryUnescape_QueryEscape_append.
  apply append_nil_r.
Qed.

Lemma QueryEscape_escaped s :
  forallb is_escaped_char (list_ascii_of_string (QueryEscape s)) = true.
Proof.
  induction s as [|c s IH]; [reflexivity|].
  rewrite QueryEscape_cons. destruct (shouldEscape c) eqn:E.
  - destruct (bool_decide (c = " "%char)).
    + cbn [list_ascii_of_string forallb]. rewrite IH. reflexivity.
    + destruct (upperhex_digit_escaped c) as (H1 & H2).
      cbn [list_ascii_of_string forallb]. rewrite H1, H2, IH. reflexivity.
  - destruct (unescaped_char c E) as (H & _).
    cbn [list_ascii_of_string forallb]. rewrite H, IH. reflexivity.
Qed.

Lemma escaped_no_char c s :
  is_escaped_char c = false ->
  forallb is_escaped_char (list_ascii_of_string s) = true -> has_char c s = false.
Proof.
  intros Hc. unfold has_char. induction s as [|x s IH]; [reflexivity|].
  cbn [list_ascii_of_string forallb existsb]. intros H.
  apply andb_true_iff in H as (Hx & Hs). rewrite (IH Hs), orb_false_r.
  apply bool_decide_eq_false_2. intros ->. congruence.
Qed.

Lemma QueryEscape_no_amp s : has_char "&" (QueryEscape s) = false.
Proof. apply escaped_no_char; [reflexivity|apply QueryEscape_escaped]. Qed.

Lemma QueryEscape_no_eq s : has_char "=" (QueryEscape s) = false.
Proof. apply escaped_no_char; [reflexivity|apply QueryEscape_escaped]. Qed.

Lemma has_char_cons c x s :
  has_char c (String x s) = bool_decide (x = c) || has_char c s.
Proof. reflexivity. Qed.

Lemma cut_append sep a b :
  has_char sep a = false -> cut sep (a +:+ String sep b) = (a, Some b).
Proof.
  induction a as [|x a IH]; intros H.
  - rewrite append_nil_l. cbn [cut]. rewrite bool_decide_eq_true_2 by reflexivity. reflexivity.
  - rewrite has_char_cons in H. apply orb_false_iff in H as (Hx & Ha).
    rewrite append_cons. cbn [cut]. rewrite Hx, (IH Ha). reflexivity.
Qed.

Lemma split_no_sep sep a : has_char sep a = false -> split sep a = [a].
Proof.
  induction a as [|x a IH]; intros H; [reflexivity|].
  rewrite has_char_cons in H. apply orb_false_iff in H as (Hx & Ha).
  cbn [split]. rewrite Hx, (IH Ha). reflexivity.
Qed.

Lemma split_append sep a b :
  has_char sep a = false -> split sep (a +:+ String sep b) = a :: split sep b.
Proof.
  induction a as [|x a IH]; intros H.
  - rewrite append_nil_l. cbn [split]. rewrite bool_decide_eq_true_2 by reflexivity. reflexivity.
  - rewrite has_char_cons in H. apply orb_false_iff in H as (Hx & Ha).
    rewrite append_cons. cbn [split]. rewrite Hx, (IH Ha). reflexivity.
Qed.

Lemma render_pair_no_amp p : has_char "&" (render_pair p) = false.
Proof.
  unfold render_pair. rewrite !has_char_append, !QueryEscape_no_amp. reflexivity.
Qed.

Lemma decode_pair_render_pair p : decode_pair (render_pair p) = p.
Proof.
  destruct p as [k v]. unfold decode_pair, render_pair. cbn [fst snd].
  rewrite append_assoc.
  change ("=" +:+ QueryEscape v) with (String "=" (QueryEscape v)).
  rewrite cut_append by apply QueryEscape_no_eq.
  cbn [from_option id]. rewrite !QueryUnescape_QueryEscape. reflexivity.
Qed.

Lemma join_amp_cons p q l :
  join_amp (p :: q :: l) = p +:+ String "&" (join_amp (q :: l)).
Proof.
  cbn [join_amp fold_left]. revert p q. induction l as [|r l IH]; intros p q.
  - cbn [fold_left]. rewrite append_assoc. reflexivity.
  - cbn [fold_left]. rewrite IH. rewrite (IH q r).
    rewrite !append_assoc. reflexivity.
Qed.

Lemma split_join_amp l :
  Forall (fun p => has_char "&" p = false) l -> l <> [] -> split "&" (join_amp l) = l.
Proof.
  induction l as [|p [|q l] IH]; intros H Hne; [congruence| |].
  - cbn [join_amp fold_left]. apply split_no_sep. apply Forall_cons in H as (H & _). exact H.
  - apply Forall_cons in H as (Hp & H).
    rewrite join_amp_cons, split_append by exact Hp.
    f_equal. apply IH; [exact H|discriminate].
Qed.

Lemma join_amp_nonempty l : l <> [] -> Forall (fun p => p <> "") l -> join_amp l <> "".
Proof.
  destruct l as [|p l]; [congruence|]. intros _ H.
  apply Forall_cons in H as (Hp & _).
  destruct l as [|q l]; [exact Hp|].
  rewrite join_amp_cons. apply append_nonempty_l. exact Hp.
Qed.

(** The pairs written can be read back from the text. *)
Lemma decode_form_join l : decode_form (join_amp (render_pair <$> l)) = l.
Proof.
  destruct l as [|p l]; [reflexivity|].
  unfold decode_form.
  destruct (join_amp (render_pair <$> p :: l)) eqn:E.
  - exfalso. revert E. apply join_amp_nonempty; [discriminate|].
    apply Forall_fmap, Forall_forall. intros x _. apply render_pair_nonempty.
  - rewrite <- E. rewrite split_join_amp.
    + rewrite <- list_fmap_compose. rewrite <- (list_fmap_id (p :: l)) at 2.
      apply list_fmap_ext. intros i x _. apply decode_pair_render_pair.
    + apply Forall_fmap, Forall_forall. intros x _. apply render_pair_no_amp.
    + discriminate.
Qed.

Lemma forallb_append (P : ascii -> bool) a b :
  forallb P (list_ascii_of_string (a +:+ b))
  = forallb P (list_ascii_of_string a) && forallb P (list_ascii_of_string b).
Proof.
  induction a as [|x a IH]; [reflexivity|].
  rewrite append_cons. cbn [list_ascii_of_string forallb]. rewrite IH. apply andb_assoc.
Qed.

Lemma is_escaped_body_chars s :
  forallb is_escaped_char (list_ascii_of_string s) = true ->
  forallb is_body_char (list_ascii_of_string s) = true.
Proof.
  induction s as [|x s IH]; [reflexivity|].
  cbn [list_ascii_of_string forallb]. intros H. apply andb_true_iff in H as (Hx & Hs).
  rewrite (IH Hs). unfold is_body_char. rewrite Hx. reflexivity.
Qed.

Lemma render_pair_body_chars p :
  forallb is_body_char (list_ascii_of_string (render_pair p)) = true.
Proof.
  unfold render_pair. rewrite !forallb_append.
  rewrite (is_escaped_body_chars _ (QueryEscape_escaped p.1)).
  rewrite (is_escaped_body_chars _ (QueryEscape_escaped p.2)). reflexivity.
Qed.

Lemma join_amp_body_chars l :
  Forall (fun p => forallb is_body_char (list_ascii_of_string p) = true) l ->
  forallb is_body_char (list_ascii_of_string (join_amp l)) = true.
Proof.
  induction l as [|p [|q l] IH]; intros H; [reflexivity| |].
  - apply Forall_cons in H as (H & _). exact H.
  - apply Forall_cons in H as (Hp & H).
    rewrite join_amp_cons, forallb_append. rewrite Hp.
    cbn [list_ascii_of_string forallb andb]. rewrite (IH H). reflexivity.
Qed.

(** X10.  Whatever bytes the method name and the arguments hold, the body
    [callPrivate] signs and sends holds only letters, digits and the
    characters [-_.~%+&=]: a space goes as [+], every other byte as [%]
    and two hexadecimal digits. *)
Theorem callPrivate_body_is_escaped (v : gmap string (list string)) (y : Yobit)
  (method : string) (nonce : Z) (args : list CallArg) :
  forallb is_body_char (list_ascii_of_string (Values_Encode v)) = true
  /\ forallb is_body_char
       (list_ascii_of_string (Body (request_of y method nonce args))) = true.
Proof.
  assert (H : forall w : gmap string (list string),
            forallb is_body_char (list_ascii_of_string (Values_Encode w)) = true).
  { intros w. rewrite Values_Encode_join. apply join_amp_body_chars.
    apply Forall_fmap, Forall_forall. intros p _. apply render_pair_body_chars. }
  split; [apply H|]. unfold request_of. cbn [Body]. apply H.
Qed.

(** X11.  The body tells its pairs: read at every [&] and at the first
    [=] of each part, with the escapes undone, the body [Values.Encode]
    writes gives back the pairs of the form, names and values, in the
    order they were written; so two forms with the same body have the
    same pairs. *)
Theorem Values_Encode_can_be_read_back (v w : gmap string (list string)) :
  decode_form (Values_Encode v) = Values_pairs v
  /\ (Values_Encode v = Values_Encode w -> Values_pairs v = Values_pairs w).
Proof.
  assert (H : forall u : gmap string (list string),
            decode_form (Values_Encode u) = Values_pairs u).
  { intros u. rewrite Values_Encode_join. apply decode_form_join. }
  split; [apply H|].
  intros E. rewrite <- (H v), <- (H w), E. reflexivity.
Qed.

Lemma FormatUint_inj n1 n2 :
  0 <= n1 <= maxUint64 -> 0 <= n2 <= maxUint64 ->
  strconv_FormatUint n1 = strconv_FormatUint n2 -> n1 = n2.
Proof.
  intros H1 H2 E. pose proof (ParseUint_FormatUint n1 H1) as P1.
  rewrite E, (ParseUint_FormatUint n2 H2) in P1. congruence.
Qed.

Lemma request_bodies_differ y method args n1 n2 :
  0 <= n1 <= maxUint64 -> 0 <= n2 <= maxUint64 -> n1 <> n2 ->
  Body (request_of y method n1 args) <> Body (request_of y method n2 args).
Proof.
  intros H1 H2 Hne E. unfold request_of in E. cbn [Body] in E.
  apply (proj2 (Values_Encode_can_be_read_back _ _)) in E.
  pose proof (form_of_pairs method n1 args) as P1.
  pose proof (form_of_pairs method n2 args) as P2.
  rewrite E, P2 in P1.
  apply Permutation_cons_inv in P1.
  change (("nonce", strconv_FormatUint n2) :: args_pairs args)
    with ([("nonce", strconv_FormatUint n2)] ++ args_pairs args) in P1.
  change (("nonce", strconv_FormatUint n1) :: args_pairs args)
    with ([("nonce", strconv_FormatUint n1)] ++ args_pairs args) in P1.
  apply Permutation_app_inv_r in P1. apply Permutation_length_1 in P1.
  injection P1 as P1. apply Hne. symmetry. apply FormatUint_inj; assumption.
Qed.

Lemma wrap64_succ_inj v1 v2 :
  0 <= v1 <= maxUint64 -> 0 <= v2 <= maxUint64 -> v1 <> v2 ->
  wrap64 (v1 + 1) <> wrap64 (v2 + 1).
Proof.
  intros H1 H2 Hne. unfold maxUint64 in *.
  assert (Hu : uint64_modulus = 18446744073709551616) by reflexivity.
  assert (W : forall v, 0 <= v <= uint64_modulus - 1 ->
            wrap64 (v + 1) = if v =? uint64_modulus - 1 then 0 else v + 1).
  { intros v Hv. destruct (v =? uint64_modulus - 1) eqn:E.
    - apply Z.eqb_eq in E. subst v. reflexivity.
    - apply Z.eqb_neq in E. apply wrap64_small. lia. }
  rewrite (W v1 H1), (W v2 H2).
  destruct (Z.eqb_spec v1 (uint64_modulus - 1)); destruct (Z.eqb_spec v2 (uint64_modulus - 1));
    lia.
Qed.

(** X12.  Two calls of [callPrivate] for the same method and arguments,
    made from two different stored values, never send the same body: the
    bodies differ as soon as the nonces do. *)
Theorem callPrivate_bodies_differ_with_the_nonce (y : Yobit) (method : string)
  (args : list CallArg) (s t : State) (v1 v2 : Z)
  (Hms : mutex s = false) (Hios : io_ok s) (Hvs : counter s = Some v1)
  (Hmt : mutex t = false) (Hiot : io_ok t) (Hvt : counter t = Some v2)
  (Hne : v1 <> v2) :
  exists r1 r2,
    wire (final_state (callPrivate y method args s)) = wire s ++ [r1]
    /\ wire (final_state (callPrivate y method args t)) = wire t ++ [r2]
    /\ Body r1 <> Body r2.
Proof.
  exists (request_of y method (wrap64 (v1 + 1)) args),
         (request_of y method (wrap64 (v2 + 1)) args).
  split; [apply callPrivate_sends; assumption|].
  split; [apply callPrivate_sends; assumption|].
  pose proof (wrap64_range (v1 + 1)). pose proof (wrap64_range (v2 + 1)).
  apply request_bodies_differ; try (unfold maxUint64; lia).
  apply wrap64_succ_inj; [eapply counter_range; eassumption..|exact Hne].
Qed.

Lemma callPrivate_bodies_differ_with_the_nonce_witness :
  exists r1 r2,
    wire (final_state (callPrivate example_yobit "Trade" example_args (state_with "7"))) = [r1]
    /\ wire (final_state (callPrivate example_yobit "Trade" example_args (state_with "8"))) = [r2]
    /\ Body r1 <> Body r2.
Proof.
  exact (callPrivate_bodies_differ_with_the_nonce example_yobit "Trade" example_args
           (state_with "7") (state_with "8") 7 8
           eq_refl (io_ok_state_with "7") eq_refl
           eq_refl (io_ok_state_with "8") eq_refl ltac:(discriminate)).
Defined.

(** *** The order among pairs of one name *)

Lemma filter_name_pairs k k' (l : list string) :
  filter (name_is k) (pair k' <$> l) = if decide (k' = k) then pair k' <$> l else [].
Proof.
  induction l as [|x l IH]; [destruct (decide (k' = k)); reflexivity|].
  cbn [fmap list_fmap]. rewrite filter_cons. fold (fmap (M := list) (pair k') l).
  rewrite IH. unfold name_is at 1. cbn [fst].
  destruct (decide (k' = k)); reflexivity.
Qed.

Lemma filter_name_bind (f : string -> list string) k : forall ks,
  NoDup ks ->
  filter (name_is k) (ks ≫= fun k' => pair k' <$> f k')
  = if decide (k ∈ ks) then pair k <$> f k else [].
Proof.
  induction ks as [|k' ks IH]; intros Hn.
  - destruct (decide (k ∈ [])) as [H|_]; [|reflexivity]. inversion H.
  - apply NoDup_cons in Hn as (Hnotin & Hn).
    rewrite bind_cons, filter_app, filter_name_pairs, (IH Hn).
    destruct (decide (k' = k)) as [->|Hne].
    + rewrite decide_False by exact Hnotin.
      rewrite decide_True by left. apply app_nil_r.
    + destruct (decide (k ∈ ks)) as [Hin|Hout].
      * rewrite decide_True by (right; exact Hin). reflexivity.
      * rewrite decide_False; [reflexivity|].
        intros H. apply elem_of_cons in H as [H|H]; [congruence|contradiction].
Qed.

(** The pairs of one name are the values the form holds for it, in their
    order. *)
Lemma Values_pairs_of_name (v : gmap string (list string)) k :
  filter (name_is k) (Values_pairs v) = pair k <$> v !!! k.
Proof.
  unfold Values_pairs. rewrite filter_name_bind.
  - destruct (decide (k ∈ sorted_keys v)) as [Hin|Hout]; [reflexivity|].
    rewrite lookup_total_alt.
    destruct (v !! k) as [vs|] eqn:E; [|reflexivity].
    exfalso. apply Hout. rewrite sorted_keys_perm.
    apply list_elem_of_fmap. exists (k, vs). split; [reflexivity|].
    apply elem_of_map_to_list. exact E.
  - rewrite sorted_keys_perm. apply NoDup_fst_map_to_list.
Qed.

Lemma fold_Values_Add_lookup k args : forall form : gmap string (list string),
  fold_left (fun form arg => Values_Add form (name arg) (value arg)) args form !!! k
  = form !!! k ++ (filter (name_is k) (args_pairs args)).*2.
Proof.
  induction args as [|arg args IH]; intros form; cbn [fold_left args_pairs map].
  - rewrite filter_nil. symmetry. apply app_nil_r.
  - rewrite IH, filter_cons. unfold Values_Add.
    destruct (decide (name_is k (name arg, value arg))) as [E|E];
      unfold name_is in E; cbn [fst] in E.
    + subst k. rewrite lookup_total_insert_eq. cbn [fmap list_fmap snd].
      rewrite <- app_assoc. reflexivity.
    + rewrite lookup_total_insert_ne by exact E. reflexivity.
Qed.

(** X13.  Pairs of the same name are sent in the order they were given,
    the one [callPrivate] sets first: among the pairs of any one name,
    the values in the body are those of [method], [nonce] and the
    arguments in that order.  With the order of the names, this fixes the
    body. *)
Theorem callPrivate_keeps_order_within_a_name (method : string) (nonce : Z)
  (args : list CallArg) (k : string) :
  (filter (name_is k) (Values_pairs (form_of method nonce args))).*2
  = (filter (name_is k)
       (("method", method) :: ("nonce", strconv_FormatUint nonce) :: args_pairs args)).*2.
Proof.
  rewrite Values_pairs_of_name. unfold form_of. rewrite fold_Values_Add_lookup.
  rewrite <- list_fmap_compose.
  rewrite (list_fmap_ext (snd ∘ pair k) id) by reflexivity. rewrite list_fmap_id.
  rewrite !filter_cons.
  destruct (decide (name_is k ("method", method))) as [H1|H1];
    destruct (decide (name_is k ("nonce", strconv_FormatUint nonce))) as [H2|H2];
    unfold name_is in H1, H2; cbn [fst] in H1, H2.
  - congruence.
  - subst k. rewrite lookup_total_insert_eq. reflexivity.
  - subst k. rewrite lookup_total_insert_ne by discriminate.
    rewrite lookup_total_singleton_eq. reflexivity.
  - rewrite lookup_total_insert_ne by exact H1.
    rewrite lookup_total_singleton_ne by exact H2. reflexivity.
Qed.

(** ** The authenticated call and the transport *)

Lemma query_eq y req s :
  query y req s =
    let w := wire s ++ [req] in
    match server s w with
    | Some (code, body) =>
        if negb (code =? StatusOK)
        then Exit (ErrorString (URL req +:+ "
Something goes wrong. HTTP" +:+ strconv_FormatUint code)) (set_wire w s)
        else Ret body (set_wire w s)
    | None => Exit (ErrorString "Do") (set_wire w s)
    end.
Proof.
  unfold query, client_Do, fatal, mbind, M_bind, mret, M_ret. cbn zeta.
  destruct (server s (wire s ++ [req])) as [[code body]|]; [|reflexivity].
  destruct (negb (code =? StatusOK)); reflexivity.
Qed.

(** X14.  A call whose nonce was issued has used it up, whatever the
    transport does: the file holds the nonce sent and the mutex is free
    when [callPrivate] ends.  The call returns a body exactly when the
    transport answers the request with status 200, and then returns that
    body; on any other status, or when the exchange fails, the process
    ends. *)
Theorem callPrivate_uses_up_the_nonce (y : Yobit) (method : string) (args : list CallArg)
  (s : State) (v : Z)
  (Hm : mutex s = false) (Hio : io_ok s) (Hv : counter s = Some v) :
  let req := request_of y method (wrap64 (v + 1)) args in
  let o := callPrivate y method args s in
  counter (final_state o) = Some (wrap64 (v + 1))
  /\ mutex (final_state o) = false
  /\ (forall body, (exists s', o = Ret body s')
                   <-> server s (wire s ++ [req]) = Some (StatusOK, body))
  /\ ((forall body, server s (wire s ++ [req]) <> Some (StatusOK, body)) ->
      exists e s', o = Exit e s').
Proof.
  cbn zeta. rewrite callPrivate_eq.
  destruct (next_call s v Hm Hio Hv) as (s1 & G & _ & C1 & Hm1 & Hio1).
  rewrite G, query_eq. cbn zeta.
  assert (W1 : wire s1 = wire s /\ server s1 = server s).
  { rewrite (GetAndIncrementNonce_ok s v Hm Hio Hv) in G. injection G as <-.
    split; reflexivity. }
  destruct W1 as (W1 & W2). rewrite W1, W2.
  destruct (server s (wire s ++ [request_of y method (wrap64 (v + 1)) args]))
    as [[code body]|].
  - destruct (Z.eqb_spec code StatusOK) as [->|Hne]; cbn [negb final_state].
    + split; [exact C1|]. split; [exact Hm1|]. split.
      * intros b. split; [intros (s' & [= <- _]); reflexivity|].
        intros [= <-]. eauto.
      * intros H. exfalso. apply (H body). reflexivity.
    + split; [exact C1|]. split; [exact Hm1|]. split.
      * intros b. split; [intros (s' & H); discriminate|intros [= E _]; congruence].
      * intros _. eauto.
  - cbn [final_state]. split; [exact C1|]. split; [exact Hm1|]. split.
    + intros b. split; [intros (s' & H); discriminate|discriminate].
    + intros _. eauto.
Qed.

Lemma callPrivate_uses_up_the_nonce_witness :
  counter (final_state (callPrivate example_yobit "getInfo" [] (state_with "9"))) = Some 10
  /\ exists e s', callPrivate example_yobit "getInfo" [] (state_with "9") = Exit e s'.
Proof.
  destruct (callPrivate_uses_up_the_nonce example_yobit "getInfo" [] (state_with "9") 9
              eq_refl (io_ok_state_with "9") eq_refl) as (C & _ & _ & E).
  split; [exact C|]. apply E. intros body. discriminate.
Defined.

(** ** The response decoder, further *)

Lemma json_Unmarshal_syntax_error {T} `{Decode T} data (obj : T) :
  parse_json (string_of_list_byte data) = None ->
  json_Unmarshal data obj = (obj, Some (SyntaxError "invalid character")).
Proof. intros E. unfold json_Unmarshal. rewrite E. reflexivity. Qed.

(** X15.  On a body that is not JSON, [unmarshal] leaves the target as it
    was and reports the failure with the whole body in the text: trying
    the body as an error response fails on the same syntax error. *)
Theorem unmarshal_reports_ill_formed_body (T : Type) (D : Decode T)
  (data : list byte) (obj : T)
  (Hsyntax : parse_json (string_of_list_byte data) = None) :
  exists e,
    unmarshal data obj
    = (obj, Some (ErrorString ("unmarshaling failed. " +:+ string_of_list_byte data
                               +:+ " " +:+ err_Error e))).
Proof.
  exists (SyntaxError "invalid character").
  eapply unmarshal_no_fallback; apply json_Unmarshal_syntax_error; exact Hsyntax.
Qed.

Lemma unmarshal_reports_ill_formed_body_witness :
  exists e,
    unmarshal (list_byte_of_string "<html>busy</html>") (∅ : gmap string Ticker)
    = (∅, Some (ErrorString ("unmarshaling failed. <html>busy</html> " +:+ err_Error e))).
Proof.
  exact (unmarshal_reports_ill_formed_body (gmap string Ticker) _
           (list_byte_of_string "<html>busy</html>") ∅ eq_refl).
Defined.

Lemma find_field_ErrorResponse key :
  names_ErrorResponse_field key = false ->
  find_field ErrorResponse_fields key None = None.
Proof.
  unfold names_ErrorResponse_field, ErrorResponse_fields. intros H.
  apply orb_false_iff in H as (H & H4). apply orb_false_iff in H as (H & H3).
  apply orb_false_iff in H as (H1 & H2).
  cbn [find_field fst].
  rewrite bool_decide_eq_false_2
    by (intros E; apply bool_decide_eq_false in H1; congruence).
  change (foldFunc "success") with equalFoldRight. rewrite H2.
  rewrite bool_decide_eq_false_2
    by (intros E; apply bool_decide_eq_false in H3; congruence).
  change (foldFunc "error") with simpleLetterEqualFold. rewrite H4. reflexivity.
Qed.

Lemma decode_members_unknown (m : list (string * json)) (v : ErrorResponse) :
  Forall (fun kj => names_ErrorResponse_field kj.1 = false) m ->
  decode_members ErrorResponse_fields m v = (v, None).
Proof.
  induction 1 as [|[key j] m Hk _ IH]; [reflexivity|].
  cbn [decode_members]. cbn [fst] in Hk.
  rewrite (find_field_ErrorResponse key Hk). exact IH.
Qed.

(** X16.  The error of [unmarshal] can be empty.  When the body does not
    decode into the target, and is a JSON object none of whose keys is
    [success] or [error] (in any case of letters), the fallback succeeds
    with an empty [ErrorResponse]: the error returned has the empty text,
    and what the decoder complained of is lost. *)
Theorem unmarshal_error_can_be_empty (T : Type) (D : Decode T)
  (data : list byte) (obj : T) (e : error) (members : list (string * json))
  (Hfail : (json_Unmarshal data obj).2 = Some e)
  (Hobject : parse_json (string_of_list_byte data) = Some (JObject members))
  (Hkeys : Forall (fun kj => names_ErrorResponse_field kj.1 = false) members) :
  (unmarshal data obj).2 = Some (ErrorString "").
Proof.
  destruct (json_Unmarshal data obj) as [obj' oe] eqn:E1. cbn in Hfail. subst oe.
  rewrite (unmarshal_fallback data obj obj' e zero_ErrorResponse E1); [reflexivity|].
  unfold json_Unmarshal. rewrite Hobject.
  change (decode (JObject members) zero_ErrorResponse)
    with (decode_members ErrorResponse_fields members zero_ErrorResponse).
  apply decode_members_unknown. exact Hkeys.
Qed.

Lemma unmarshal_error_can_be_empty_witness :
  (unmarshal not_a_ticker_body (∅ : gmap string Ticker)).2 = Some (ErrorString "").
Proof.
  apply (unmarshal_error_can_be_empty (gmap string Ticker) _ not_a_ticker_body ∅
           (UnmarshalTypeError "number" "yobit.Ticker") [("ltc_btc", JNumber "7")]).
  - vm_compute. reflexivity.
  - vm_compute. reflexivity.
  - repeat constructor.
Defined.

(** ** The calls of the trade API *)

Lemma Values_pairs_exact (form : gmap string (list string)) (l : list (string * string)) :
  Values_pairs form ≡ₚ l -> StronglySorted by_name l -> NoDup l.*1 ->
  Values_pairs form = l.
Proof.
  intros Hp Hs Hn.
  apply (StronglySorted_unique_strong by_name); [|apply Values_pairs_sorted|exact Hs|exact Hp].
  intros [k1 v1] [k2 v2] H1 H2 L1 L2. rewrite Hp in H1.
  unfold by_name in L1, L2. cbn [fst] in L1, L2.
  assert (k1 = k2) as -> by (apply (anti_symm String.le); assumption).
  f_equal. clear -H1 H2 Hn.
  induction l as [|[k v] l IH]; [inversion H1|].
  rewrite fmap_cons in Hn. apply NoDup_cons in Hn as (Hk & Hn). cbn [fst] in Hk.
  apply elem_of_cons in H1 as [E1|H1]; apply elem_of_cons in H2 as [E2|H2].
  - congruence.
  - injection E1 as -> ->. exfalso. apply Hk.
    apply list_elem_of_fmap. exists (k, v2). split; [reflexivity|exact H2].
  - injection E2 as -> ->. exfalso. apply Hk.
    apply list_elem_of_fmap. exists (k, v1). split; [reflexivity|exact H1].
  - apply IH; assumption.
Qed.

Lemma QueryEscape_digits s : all_digits s = true -> QueryEscape s = s.
Proof.
  unfold all_digits. induction s as [|c s IH]; [reflexivity|].
  cbn [list_ascii_of_string forallb]. intros H. apply andb_true_iff in H as (Hc & Hs).
  rewrite QueryEscape_cons.
  assert (E : shouldEscape c = false).
  { unfold shouldEscape, is_alnum. unfold is_digit in Hc. rewrite Hc, !orb_true_r.
    reflexivity. }
  rewrite E, (IH Hs). reflexivity.
Qed.

Lemma FormatUint_digits n :
  0 <= n <= maxUint64 -> QueryEscape (strconv_FormatUint n) = strconv_FormatUint n.
Proof.
  intros Hn. apply QueryEscape_digits.
  pose proof (ParseUint_FormatUint n Hn) as P. apply ParseUint_spec in P. tauto.
Qed.

Lemma wrap64_bounds z : 0 <= wrap64 z <= maxUint64.
Proof. pose proof (wrap64_range z). unfold maxUint64. lia. Qed.

Lemma Body_request_of y method nonce args :
  Body (request_of y method nonce args)
  = join_amp (render_pair <$> Values_pairs (form_of method nonce args)).
Proof. apply Values_Encode_join. Qed.

Lemma body_getInfo y n :
  0 <= n <= maxUint64 ->
  Body (request_of y "getInfo" n []) = "method=getInfo&nonce=" +:+ strconv_FormatUint n.
Proof.
  intros Hn. rewrite Body_request_of.
  rewrite (Values_pairs_exact _ [("method", "getInfo"); ("nonce", strconv_FormatUint n)]).
  - cbn [fmap list_fmap]. rewrite join_amp_cons. cbn [join_amp fold_left].
    unfold render_pair. cbn [fst snd]. rewrite (FormatUint_digits n Hn). reflexivity.
  - apply form_of_pairs.
  - repeat constructor.
  - apply (bool_decide_unpack _). vm_compute. exact I.
Qed.

Lemma body_CancelOrder y n orderId :
  0 <= n <= maxUint64 ->
  Body (request_of y "CancelOrder" n [ {| name := "order_id"; value := orderId |} ])
  = "method=CancelOrder&nonce=" +:+ strconv_FormatUint n
    +:+ "&order_id=" +:+ QueryEscape orderId.
Proof.
  intros Hn. rewrite Body_request_of.
  rewrite (Values_pairs_exact _
             [("method", "CancelOrder"); ("nonce", strconv_FormatUint n);
              ("order_id", orderId)]).
  - cbn [fmap list_fmap]. rewrite !join_amp_cons. cbn [join_amp fold_left].
    unfold render_pair. cbn [fst snd]. rewrite (FormatUint_digits n Hn).
    change (QueryEscape "method") with "method".
    change (QueryEscape "CancelOrder") with "CancelOrder".
    change (QueryEscape "nonce") with "nonce".
    change (QueryEscape "order_id") with "order_id".
    rewrite !append_assoc. reflexivity.
  - apply form_of_pairs.
  - repeat constructor.
  - apply (bool_decide_unpack _). vm_compute. exact I.
Qed.

Lemma body_TradeHistory y n pair :
  0 <= n <= maxUint64 ->
  Body (request_of y "TradeHistory" n
          [ {| name := "pair"; value := pair |}; {| name := "count"; value := "1000" |} ])
  = "count=1000&method=TradeHistory&nonce=" +:+ strconv_FormatUint n
    +:+ "&pair=" +:+ QueryEscape pair.
Proof.
  intros Hn. rewrite Body_request_of.
  rewrite (Values_pairs_exact _
             [("count", "1000"); ("method", "TradeHistory");
              ("nonce", strconv_FormatUint n); ("pair", pair)]).
  - cbn [fmap list_fmap]. rewrite !join_amp_cons. cbn [join_amp fold_left].
    unfold render_pair. cbn [fst snd]. rewrite (FormatUint_digits n Hn).
    change (QueryEscape "method") with "method".
    change (QueryEscape "TradeHistory") with "TradeHistory".
    change (QueryEscape "nonce") with "nonce".
    change (QueryEscape "pair") with "pair".
    change (QueryEscape "count") with "count".
    change (QueryEscape "1000") with "1000".
    rewrite !append_assoc. reflexivity.
  - rewrite form_of_pairs. cbn [args_pairs map name value].
    apply Permutation_sym, Permutation_cons_append.
  - repeat constructor.
  - apply (bool_decide_unpack _). vm_compute. exact I.
Qed.

Lemma GetInfo_eq y s :
  GetInfo y s
  = (response ← callPrivate y "getInfo" [];
     deliver GetInfoResponse.Success GetInfoResponse.Error
       (unmarshal response GetInfoResponse.zero)) s.
Proof.
  unfold GetInfo, deliver, fatal, mbind, M_bind, mret, M_ret.
  destruct (callPrivate y "getInfo" [] s) as [response s'| | |]; try reflexivity.
  destruct (unmarshal response GetInfoResponse.zero) as [r [e|]]; [reflexivity|].
  destruct (GetInfoResponse.Success r =? 0); reflexivity.
Qed.

Lemma CancelOrder_eq y orderId s :
  CancelOrder y orderId s
  = (response ← callPrivate y "CancelOrder" [ {| name := "order_id"; value := orderId |} ];
     deliver CancelOrderResponse.Success CancelOrderResponse.Error
       (unmarshal response CancelOrderResponse.zero)) s.
Proof.
  unfold CancelOrder, deliver, fatal, mbind, M_bind, mret, M_ret.
  destruct (callPrivate y "CancelOrder" _ s) as [response s'| | |]; try reflexivity.
  destruct (unmarshal response CancelOrderResponse.zero) as [r [e|]]; [reflexivity|].
  destruct (CancelOrderResponse.Success r =? 0); reflexivity.
Qed.

Lemma TradeHistory_eq y pair s :
  TradeHistory y pair s
  = (response ← callPrivate y "TradeHistory"
                  [ {| name := "pair"; value := pair |};
                    {| name := "count"; value := "1000" |} ];
     deliver TradeHistoryResponse.Success TradeHistoryResponse.Error
       (unmarshal response TradeHistoryResponse.zero)) s.
Proof.
  unfold TradeHistory, deliver, fatal, mbind, M_bind, mret, M_ret.
  destruct (callPrivate y "TradeHistory" _ s) as [response s'| | |]; try reflexivity.
  destruct (unmarshal response TradeHistoryResponse.zero) as [r [e|]]; [reflexivity|].
  destruct (TradeHistoryResponse.Success r =? 0); reflexivity.
Qed.

Section delivery.

Context {T : Type} `{Decode T}.
Variables (success : T -> Z) (error_of : T -> string) (zero : T).
Variables (y : Yobit) (method : string) (args : list CallArg).

Let call : M T :=
  response ← callPrivate y method args; deliver success error_of (unmarshal response zero).

Lemma deliver_final_state s :
  final_state (call s) = final_state (callPrivate y method args s).
Proof.
  unfold call, deliver, mbind, M_bind.
  destruct (callPrivate y method args s) as [response s'| | |]; try reflexivity.
  destruct (unmarshal response zero) as [r [e|]]; [reflexivity|].
  destruct (success r =? 0); reflexivity.
Qed.

Lemma deliver_Ret s r s' :
  call s = Ret r s'
  <-> exists response,
        callPrivate y method args s = Ret response s'
        /\ unmarshal response zero = (r, None) /\ success r <> 0.
Proof.
  unfold call, deliver, mbind, M_bind.
  destruct (callPrivate y method args s) as [response s1| | |].
  - destruct (unmarshal response zero) as [r1 [e|]] eqn:U.
    + split; [discriminate|]. intros (resp & [= <- <-] & U' & _). congruence.
    + destruct (Z.eqb_spec (success r1) 0) as [E|E].
      * split; [discriminate|]. intros (resp & [= <- <-] & U' & Hs). congruence.
      * split.
        -- intros [= <- <-]. exists response. auto.
        -- intros (resp & [= <- <-] & U' & Hs). congruence.
  - split; [discriminate|intros (resp & ? & _); discriminate].
  - split; [discriminate|intros (resp & ? & _); discriminate].
  - split; [discriminate|intros (resp & ? & _); discriminate].
Qed.

Lemma deliver_failure s response s' r :
  callPrivate y method args s = Ret response s' ->
  unmarshal response zero = (r, None) -> success r = 0 ->
  call s = Exit (ErrorString (error_of r)) s'.
Proof.
  intros C U E. unfold call, deliver, mbind, M_bind. rewrite C, U, E. reflexivity.
Qed.

End delivery.

Lemma callPrivate_returns y method args s v body :
  mutex s = false -> io_ok s -> counter s = Some v ->
  server s (wire s ++ [request_of y method (wrap64 (v + 1)) args]) = Some (StatusOK, body) ->
  exists s', callPrivate y method args s = Ret body s'.
Proof.
  intros Hm Hio Hv Hs. rewrite callPrivate_eq.
  rewrite (GetAndIncrementNonce_ok s v Hm Hio Hv), query_eq. cbn zeta.
  cbn [wire server set_mutex set_files].
  rewrite Hs. change (negb (StatusOK =? StatusOK)) with false. cbn iota. eauto.
Qed.

Lemma counter_state_answering text code body v :
  strconv_ParseUint text = inl v -> counter (state_answering text code body) = Some v.
Proof.
  intros Hv. unfold counter, state_answering. cbn [files]. rewrite lookup_singleton, decide_True by reflexivity.
  rewrite string_of_list_byte_of_string, Hv. reflexivity.
Qed.

Lemma callPrivate_answered y method args text body v :
  strconv_ParseUint text = inl v ->
  exists s', callPrivate y method args (state_answering text StatusOK body) = Ret body s'.
Proof.
  intros Hv.
  apply (callPrivate_returns y method args _ v);
    [reflexivity|repeat split|apply counter_state_answering; exact Hv
    |reflexivity].
Qed.

(** X17.  A call of the trade API returns a response exactly when
    [callPrivate] returned a body that decodes without error into a
    response whose [success] is not 0, and then returns that response: a
    response of the exchange that reports a failure never reaches the
    caller. *)
Theorem trade_calls_return_only_success (y : Yobit) (s s' : State) :
  (forall r,
      GetInfo y s = Ret r s'
      <-> exists response,
            callPrivate y "getInfo" [] s = Ret response s'
            /\ unmarshal response GetInfoResponse.zero = (r, None)
            /\ GetInfoResponse.Success r <> 0)
  /\ (forall orderId r,
        CancelOrder y orderId s = Ret r s'
        <-> exists response,
              callPrivate y "CancelOrder" [ {| name := "order_id"; value := orderId |} ] s
              = Ret response s'
              /\ unmarshal response CancelOrderResponse.zero = (r, None)
              /\ CancelOrderResponse.Success r <> 0)
  /\ (forall pair r,
        TradeHistory y pair s = Ret r s'
        <-> exists response,
              callPrivate y "TradeHistory"
                [ {| name := "pair"; value := pair |};
                  {| name := "count"; value := "1000" |} ] s
              = Ret response s'
              /\ unmarshal response TradeHistoryResponse.zero = (r, None)
              /\ TradeHistoryResponse.Success r <> 0).
Proof.
  split; [|split].
  - intros r. rewrite GetInfo_eq. apply deliver_Ret.
  - intros orderId r. rewrite CancelOrder_eq. apply deliver_Ret.
  - intros pair r. rewrite TradeHistory_eq. apply deliver_Ret.
Qed.

Example GetInfo_returns_funds :
  exists r s',
    GetInfo example_yobit (state_answering "7" StatusOK funds_body) = Ret r s'
    /\ GetInfoResponse.Success r = 1
    /\ GetInfoReturn.Funds (GetInfoResponse.Data r) !! "btc" = Some (Float64 "0.5")
    /\ GetInfoReturn.OpenOrders (GetInfoResponse.Data r) = 1
    /\ counter s' = Some 8.
Proof.
  destruct (callPrivate_answered example_yobit "getInfo" [] "7" funds_body 7 eq_refl)
    as (s' & C).
  destruct (next_call (state_answering "7" StatusOK funds_body) 7 eq_refl
              (conj eq_refl (conj eq_refl (conj eq_refl (conj eq_refl I))))
              (counter_state_answering "7" StatusOK funds_body 7 eq_refl))
    as (s1 & G & _ & C1 & _).
  assert (Hs' : counter s' = Some 8).
  { rewrite callPrivate_eq, G in C. apply query_Ret in C. subst s'. exact C1. }
  destruct (unmarshal funds_body GetInfoResponse.zero) as [r oe] eqn:U.
  assert (U' : unmarshal funds_body GetInfoResponse.zero = (r, oe)) by exact U.
  vm_compute in U. injection U as <- <-.
  eexists _, s'. split; [|split; [|split; [|split]]].
  - rewrite GetInfo_eq. apply deliver_Ret. exists funds_body.
    split; [exact C|]. split; [exact U'|]. discriminate.
  - reflexivity.
  - vm_compute. reflexivity.
  - reflexivity.
  - exact Hs'.
Qed.

Lemma unmarshal_error_members {T} `{Decode T} (fields : list (field T)) (body : list byte)
  (msg : string) (zero r : T) :
  parse_json (string_of_list_byte body) = Some (JObject (error_members msg)) ->
  decode (JObject (error_members msg)) zero = (r, None) ->
  unmarshal body zero = (r, None).
Proof.
  intros P D. apply unmarshal_ok. unfold json_Unmarshal. rewrite P. exact D.
Qed.

(** X18.  When the exchange answers a call of the trade API with
    [{"success":0,"error":msg}], the call ends the process with [msg] as
    the text.  The body decodes into the response without error; it is
    the test of [success] that ends the call, not the fallback of
    [unmarshal]. *)
Theorem trade_calls_end_on_error_response (y : Yobit) (s : State) (v : Z)
  (body : list byte) (msg : string)
  (Hm : mutex s = false) (Hio : io_ok s) (Hv : counter s = Some v)
  (Hserver : forall w, server s w = Some (StatusOK, body))
  (Hbody : parse_json (string_of_list_byte body) = Some (JObject (error_members msg))) :
  (exists s', GetInfo y s = Exit (ErrorString msg) s')
  /\ (forall orderId, exists s', CancelOrder y orderId s = Exit (ErrorString msg) s')
  /\ (forall pair, exists s', TradeHistory y pair s = Exit (ErrorString msg) s').
Proof.
  split; [|split].
  - destruct (callPrivate_returns y "getInfo" [] s v body Hm Hio Hv (Hserver _))
      as (s' & C).
    exists s'. rewrite GetInfo_eq.
    assert (U : unmarshal body GetInfoResponse.zero
                = ({| GetInfoResponse.Success := 0; GetInfoResponse.Error := msg;
                      GetInfoResponse.Data := GetInfoReturn.zero |}, None)).
    { apply unmarshal_ok. unfold json_Unmarshal. rewrite Hbody. reflexivity. }
    rewrite (deliver_failure GetInfoResponse.Success GetInfoResponse.Error GetInfoResponse.zero y "getInfo" _ s body s' _ C U eq_refl).
    reflexivity.
  - intros orderId.
    destruct (callPrivate_returns y "CancelOrder"
                [ {| name := "order_id"; value := orderId |} ] s v body Hm Hio Hv (Hserver _))
      as (s' & C).
    exists s'. rewrite CancelOrder_eq.
    assert (U : unmarshal body CancelOrderResponse.zero
                = ({| CancelOrderResponse.Success := 0; CancelOrderResponse.Error := msg;
                      CancelOrderResponse.Result := CancelResult.zero |}, None)).
    { apply unmarshal_ok. unfold json_Unmarshal. rewrite Hbody. reflexivity. }
    rewrite (deliver_failure CancelOrderResponse.Success CancelOrderResponse.Error CancelOrderResponse.zero y "CancelOrder" _ s body s' _ C U eq_refl).
    reflexivity.
  - intros pair.
    destruct (callPrivate_returns y "TradeHistory"
                [ {| name := "pair"; value := pair |}; {| name := "count"; value := "1000" |} ]
                s v body Hm Hio Hv (Hserver _))
      as (s' & C).
    exists s'. rewrite TradeHistory_eq.
    assert (U : unmarshal body TradeHistoryResponse.zero
                = ({| TradeHistoryResponse.Success := 0; TradeHistoryResponse.Error := msg;
                      TradeHistoryResponse.Orders := ∅ |}, None)).
    { apply unmarshal_ok. unfold json_Unmarshal. rewrite Hbody. reflexivity. }
    rewrite (deliver_failure TradeHistoryResponse.Success TradeHistoryResponse.Error TradeHistoryResponse.zero y "TradeHistory" _ s body s' _ C U eq_refl).
    reflexivity.
Qed.

Lemma trade_calls_end_on_error_response_witness :
  (exists s', GetInfo example_yobit (state_answering "1" StatusOK invalid_nonce_body)
              = Exit (ErrorString "invalid nonce") s')
  /\ (exists s', CancelOrder example_yobit "42"
                   (state_answering "1" StatusOK invalid_nonce_body)
                 = Exit (ErrorString "invalid nonce") s').
Proof.
  destruct (trade_calls_end_on_error_response example_yobit
              (state_answering "1" StatusOK invalid_nonce_body) 1 invalid_nonce_body
              "invalid nonce" eq_refl (conj eq_refl (conj eq_refl (conj eq_refl (conj eq_refl I)))) eq_refl
              (fun _ => eq_refl) eq_refl) as (G & C & _).
  split; [exact G|exact (C "42")].
Defined.

(** X19.  The body each call of the trade API sends, for the nonce [N]
    drawn from the store: [method=getInfo&nonce=N] for [GetInfo],
    [method=CancelOrder&nonce=N&order_id=ID] for [CancelOrder] and
    [count=1000&method=TradeHistory&nonce=N&pair=P] for [TradeHistory],
    with [ID] and [P] escaped.  The request goes on the wire whatever
    becomes of the call. *)
Theorem trade_calls_request_bodies (y : Yobit) (s : State) (v : Z)
  (Hm : mutex s = false) (Hio : io_ok s) (Hv : counter s = Some v) :
  let N := strconv_FormatUint (wrap64 (v + 1)) in
  (exists req,
      wire (final_state (GetInfo y s)) = wire s ++ [req]
      /\ Body req = "method=getInfo&nonce=" +:+ N)
  /\ (forall orderId, exists req,
        wire (final_state (CancelOrder y orderId s)) = wire s ++ [req]
        /\ Body req = "method=CancelOrder&nonce=" +:+ N +:+ "&order_id="
                      +:+ QueryEscape orderId)
  /\ (forall pair, exists req,
        wire (final_state (TradeHistory y pair s)) = wire s ++ [req]
        /\ Body req = "count=1000&method=TradeHistory&nonce=" +:+ N +:+ "&pair="
                      +:+ QueryEscape pair).
Proof.
  cbn zeta. pose proof (wrap64_bounds (v + 1)) as Hn. split; [|split].
  - eexists. rewrite GetInfo_eq, deliver_final_state.
    split; [apply (callPrivate_sends _ _ _ _ v); assumption|].
    apply body_getInfo; exact Hn.
  - intros orderId. eexists. rewrite CancelOrder_eq, deliver_final_state.
    split; [apply (callPrivate_sends _ _ _ _ v); assumption|].
    apply body_CancelOrder; exact Hn.
  - intros pair. eexists. rewrite TradeHistory_eq, deliver_final_state.
    split; [apply (callPrivate_sends _ _ _ _ v); assumption|].
    apply body_TradeHistory; exact Hn.
Qed.

Lemma trade_calls_request_bodies_witness :
  (exists req,
      wire (final_state (GetInfo example_yobit (fresh_state no_server))) = [req]
      /\ Body req = "method=getInfo&nonce=2")
  /\ (exists req,
        wire (final_state (TradeHistory example_yobit "ltc_btc" (fresh_state no_server)))
        = [req]
        /\ Body req = "count=1000&method=TradeHistory&nonce=2&pair=ltc_btc").
Proof.
  destruct (trade_calls_request_bodies example_yobit (fresh_state no_server) 1
              eq_refl (io_ok_fresh no_server) eq_refl) as (G & _ & H).
  split; [exact G|exact (H "ltc_btc")].
Defined.

(** ** The public API *)

Lemma callPublic_eq url_parses url_String y url s :
  callPublic url_parses url_String y url s
  = if url_parses url then query y (GET_request (url_String url)) s
    else Exit (ErrorString ("NewRequest: parse " +:+ url)) s.
Proof.
  unfold callPublic, http_NewRequest_GET, fatal.
  destruct (url_parses url); reflexivity.
Qed.

Lemma query_frame y req s :
  files (final_state (query y req s)) = files s
  /\ mutex (final_state (query y req s)) = mutex s.
Proof.
  rewrite query_eq. cbn zeta.
  destruct (server s (wire s ++ [req])) as [[code body]|]; [|split; reflexivity].
  destruct (negb (code =? StatusOK)); split; reflexivity.
Qed.

Lemma Tickers24_eq url_parses url_String y pairs s :
  Tickers24 url_parses url_String y pairs s
  = match pairs with
    | [] => Exit (ErrorString "Tickers24: Tickers list is empty") s
    | _ =>
        match callPublic url_parses url_String y
                ("https://yobit.net/api/3/ticker/" +:+ strings_Join pairs "-") s with
        | Ret response s' =>
            match unmarshal response (∅ : gmap string Ticker) with
            | (_, Some e) => Exit e s'
            | (tickers, None) => Ret {| Tickers := tickers |} s'
            end
        | Panic e s' => Panic e s'
        | Exit e s' => Exit e s'
        | Blocked s' => Blocked s'
        end
    end.
Proof.
  unfold Tickers24, fatal, mbind, M_bind, mret, M_ret.
  destruct pairs as [|p pairs]; [reflexivity|]. cbn [length Nat.eqb].
  change (((apiBase +:+ ApiVersion) +:+ "/ticker/") +:+ strings_Join (p :: pairs) "-")
    with ("https://yobit.net/api/3/ticker/" +:+ strings_Join (p :: pairs) "-").
  destruct (callPublic url_parses url_String y _ s) as [response s'| | |]; try reflexivity.
  destruct (unmarshal response ∅) as [tickers [e|]]; reflexivity.
Qed.

(** X20.  [Tickers24] is a call of the public API: it leaves the nonce
    file and the mutex as they were, whatever their state.  It hands the
    client one request, a [GET] on which the package sets no header and
    no body, for the address [url.Parse] has read from
    [https://yobit.net/api/3/ticker/] followed by the pairs joined by
    [-]; when the list of pairs is empty or the address does not parse,
    it hands the client nothing; on an empty list it ends the process
    before the address is built. *)
Theorem Tickers24_sends_one_plain_GET (url_parses : string -> bool)
  (url_String : string -> string) (y : Yobit) (pairs : list string) (s : State) :
  let url := "https://yobit.net/api/3/ticker/" +:+ strings_Join pairs "-" in
  let o := Tickers24 url_parses url_String y pairs s in
  files (final_state o) = files s
  /\ mutex (final_state o) = mutex s
  /\ wire (final_state o)
     = (if bool_decide (pairs = []) || negb (url_parses url) then wire s
        else wire s ++ [GET_request (url_String url)])
  /\ (pairs = [] -> o = Exit (ErrorString "Tickers24: Tickers list is empty") s).
Proof.
  cbn zeta. rewrite Tickers24_eq. destruct pairs as [|p pairs].
  { repeat split; reflexivity. }
  rewrite bool_decide_eq_false_2 by discriminate. cbn [orb].
  rewrite callPublic_eq.
  destruct (url_parses _); cbn [negb].
  - set (req := GET_request (url_String ("https://yobit.net/api/3/ticker/"
                                         +:+ strings_Join (p :: pairs) "-"))).
    pose proof (query_frame y req s) as (F & Mx).
    pose proof (query_wire y req s) as W.
    destruct (query y req s) as [response s'| | |]; cbn [final_state] in *;
      try (split; [exact F|split; [exact Mx|split; [exact W|discriminate]]]).
    destruct (unmarshal response ∅) as [tickers [e|]]; cbn [final_state];
      (split; [exact F|split; [exact Mx|split; [exact W|discriminate]]]).
  - cbn [final_state]. repeat split; discriminate.
Qed.

(** X21.  When the exchange answers [Tickers24] with
    [{"success":0,"error":msg}], the call ends the process with [msg] as
    the text: the body is no map of tickers, and the fallback of
    [unmarshal] reads the message out of it. *)
Theorem Tickers24_ends_on_error_response (url_parses : string -> bool)
  (url_String : string -> string) (y : Yobit)
  (pairs : list string) (s : State) (body : list byte) (msg : string)
  (Hpairs : pairs <> [])
  (Hurl : url_parses ("https://yobit.net/api/3/ticker/" +:+ strings_Join pairs "-") = true)
  (Hserver : forall w, server s w = Some (StatusOK, body))
  (Hbody : parse_json (string_of_list_byte body) = Some (JObject (error_members msg))) :
  exists s', Tickers24 url_parses url_String y pairs s = Exit (ErrorString msg) s'.
Proof.
  rewrite Tickers24_eq. destruct pairs as [|p pairs]; [congruence|].
  rewrite callPublic_eq, Hurl, query_eq. cbn zeta. rewrite Hserver.
  change (negb (StatusOK =? StatusOK)) with false. cbn iota.
  destruct (json_Unmarshal body (∅ : gmap string Ticker)) as [m oe] eqn:U.
  assert (exists e, oe = Some e) as (e & ->).
  { unfold json_Unmarshal in U. rewrite Hbody in U. vm_compute in U.
    injection U as _ <-. eauto. }
  rewrite (unmarshal_fallback body ∅ m e {| Success := 0; Error := msg |} U).
  - eauto.
  - unfold json_Unmarshal. rewrite Hbody. reflexivity.
Qed.

Lemma Tickers24_ends_on_error_response_witness :
  exists s',
    Tickers24 (fun _ => true) (fun u => u) example_yobit ["ltc_btc"; "eth_btc"]
      refusing_state
    = Exit (ErrorString "invalid nonce") s'.
Proof.
  apply (Tickers24_ends_on_error_response (fun _ => true) (fun u => u) example_yobit
           ["ltc_btc"; "eth_btc"] refusing_state invalid_nonce_body "invalid nonce").
  - discriminate.
  - reflexivity.
  - reflexivity.
  - reflexivity.
Defined.

Example Tickers24_address :
  wire (final_state (Tickers24 (fun _ => true) (fun u => u) example_yobit
                       ["ltc_btc"; "eth_btc"] refusing_state))
  = [GET_request "https://yobit.net/api/3/ticker/ltc_btc-eth_btc"].
Proof. vm_compute. reflexivity. Qed.

(** ** The decoder, on the edges of what the library accepts *)

(** Arrays inside one another are read down to ten thousand of them;
    deeper, the text is refused, and [unmarshal] reports it as any
    ill-formed text. *)
Example nesting_limit :
  parse_json (nested 3) = Some (JArray [JArray [JArray []]])
  /\ accepted (nested 10000) = true
  /\ accepted (nested 10001) = false
  /\ accepted (("{" +:+ quoted "x" +:+ ":" +:+ nested 10000) +:+ "}") = false
  /\ empty_error
       (unmarshal (list_byte_of_string (("{" +:+ quoted "x" +:+ ":" +:+ nested 10000) +:+ "}"))
          (∅ : gmap string Ticker)).2
     = false.
Proof.
  split; [vm_compute; reflexivity|]. split; [vm_compute; reflexivity|].
  split; [vm_compute; reflexivity|]. split; vm_compute; reflexivity.
Qed.

(** The literals [strconv.ParseFloat] reports as out of range are those
    of value [2^1024 - 2^970] and more. *)
Example float64_range :
  overflows_float64 <$>
    [ "1e308"; "1.7976931348623157e308"; "1.7976931348623159e308"; "1.8e308"; "-2E+400";
      "0e999999999999999999999"; "1e-99999999999999999999"; "0.0000001e315";
      "0.0000001e316"; "4.9e-324"; first_beyond_float64;
      first_beyond_float64 +:+ ".0"; "-" +:+ first_beyond_float64 ]
  = [ false; false; true; true; true; false; false; false; true; false; true; true; true ].
Proof. vm_compute. reflexivity. Qed.

Example first_beyond_float64_value :
  decimal_value first_beyond_float64 = float64_limit
  /\ overflows_float64
       "179769313486231580793728971405303415079934132710037826936173778980444968292764750946649017977587207096330286416692887910946555547851940402630657488671505820681908902000708383676273854845817711531764475730270069855571366959622842914819860834936475292719074168444365510704342711559699508093042880177904174497791"
     = false.
Proof. split; vm_compute; reflexivity. Qed.

Example null_empties_a_map :
  json_Unmarshal (list_byte_of_string "null") ({[ "ltc_btc" := zero_Ticker ]} : gmap string Ticker)
  = (∅, None).
Proof. vm_compute. reflexivity. Qed.

Example number_into_string :
  decode_string (JNumber "7") "x" = ("x", Some (UnmarshalTypeError "number" "string"))
  /\ decode_uint 8 "uint8" (JNumber "300") 0
     = (0, Some (UnmarshalTypeError "number 300" "uint8")).
Proof. split; reflexivity. Qed.

(** ** The decoder of an offer *)

Lemma decode_float64_None (j : json) (old new : float64) :
  decode j old = (new, None) <-> field_after j old new.
Proof.
  unfold decode, Decode_float64, type_error, number_error, field_after.
  destruct j as [| |lit| | |]; try (split; [discriminate|contradiction]).
  - split; [intros [= <-]; reflexivity|intros ->; reflexivity].
  - destruct (overflows_float64 lit).
    + split; [discriminate|intros (H & _); discriminate].
    + split; [intros [= <-]; split; reflexivity|intros (_ & ->); reflexivity].
Qed.

(** X22.  [Offer.UnmarshalJSON] accepts nothing but an array of exactly
    two elements, each a number or [null]: when it returns no error the
    text was such an array, a number has replaced the price or the
    quantity it stands for, and [null] has left it as it was. *)
Theorem Offer_UnmarshalJSON_accepts_only_pairs (buf : list byte) (n n' : Offer)
  (Hok : Offer_UnmarshalJSON buf n = (n', None)) :
  exists a b,
    parse_json (string_of_list_byte buf) = Some (JArray [a; b])
    /\ field_after a (Price n) (Price n')
    /\ field_after b (Quantity n) (Quantity n').
Proof.
  unfold Offer_UnmarshalJSON, json_Unmarshal in Hok. cbn zeta in Hok.
  destruct (parse_json (string_of_list_byte buf)) as [j|]; [|discriminate].
  unfold decode, Decode_pointers in Hok. cbn [fst snd] in Hok.
  destruct j as [| | | |l|]; try discriminate.
  destruct l as [|a [|b [|c l]]]; try discriminate.
  - cbn [decode_elements] in Hok. unfold into in Hok.
    destruct (decode a (Price n)) as [x [e|]]; discriminate.
  - exists a, b. split; [reflexivity|].
    cbn [decode_elements] in Hok. unfold into in Hok.
    destruct (decode a (Price n)) as [x oe] eqn:Da.
    cbn [set_Price Quantity] in Hok.
    destruct (decode b (Quantity n)) as [q oe'] eqn:Db.
    destruct oe as [e|]; [discriminate|]. destruct oe' as [e'|]; [discriminate|].
    cbn in Hok. injection Hok as <-. cbn [Price Quantity set_Price set_Quantity].
    split; apply decode_float64_None; assumption.
  - destruct (decode_elements 0 (a :: b :: c :: l) n) as [m [e|]]; discriminate.
Qed.

Lemma Offer_UnmarshalJSON_accepts_only_pairs_witness :
  exists a b,
    parse_json "[0.5,null]" = Some (JArray [a; b])
    /\ field_after a zero_float64 (Float64 "0.5")
    /\ field_after b zero_float64 zero_float64.
Proof.
  exact (Offer_UnmarshalJSON_accepts_only_pairs (list_byte_of_string "[0.5,null]")
           zero_Offer {| Price := Float64 "0.5"; Quantity := zero_float64 |} eq_refl).
Defined.

Example Offer_UnmarshalJSON_short :
  Offer_UnmarshalJSON (list_byte_of_string "[7]") zero_Offer
  = ({| Price := Float64 "7"; Quantity := zero_float64 |},
     Some (ErrorString "wrong number of fields in Order: 1 != 2")).
Proof. vm_compute. reflexivity. Qed.

Example Offer_UnmarshalJSON_null :
  Offer_UnmarshalJSON (list_byte_of_string "null") zero_Offer
  = (zero_Offer, Some (ErrorString "wrong number of fields in Order: 0 != 2")).
Proof. vm_compute. reflexivity. Qed.

Example Offer_UnmarshalJSON_out_of_range :
  Offer_UnmarshalJSON (list_byte_of_string "[1e999,2]") zero_Offer
  = ({| Price := zero_float64; Quantity := Float64 "2" |},
     Some (UnmarshalTypeError "number 1e999" "float64")).
Proof. vm_compute. reflexivity. Qed.

(** * The authenticated call, in full *)

Lemma Values_Encode_body_chars (v : gmap string (list string)) :
  forallb is_body_char (list_ascii_of_string (Values_Encode v)) = true.
Proof.
  rewrite Values_Encode_join. apply join_amp_body_chars.
  apply Forall_fmap, Forall_forall. intros p _. apply render_pair_body_chars.
Qed.

Lemma Values_Encode_decode (v : gmap string (list string)) :
  decode_form (Values_Encode v) = Values_pairs v.
Proof. rewrite Values_Encode_join. apply decode_form_join. Qed.

Lemma sign_spec secret message :
  signHmacSha512 secret message
  = hex_EncodeToString (HMAC_spec Sum512 BlockSize secret message).
Proof. unfold signHmacSha512. rewrite hmac_Sum_spec. reflexivity. Qed.

(** C7: [callPrivate] hands the client a POST whose body holds the
    method, the nonce drawn from the store and every argument, each as
    [name=value], joined by [&] in the order of the names.  The body is
    URL-encoded: it holds only letters, digits and the characters
    [-_.~%+&=], and read back at every [&] and at the first [=] of each
    part, with [+] taken for a space and [%XX] for the byte [XX], it
    gives the pairs, names and values, as they were.  The [Sign] header
    is the lowercase hexadecimal text of the HMAC-SHA512, as RFC 2104
    defines it, of exactly that body under the secret of the credential;
    the [Key] header is the key of the credential.  For the credential
    ([zzz], [abc]), the method [Trade], a stored nonce 1 and two
    arguments with characters to escape, body and signature are the
    known answers. *)
Theorem C7_callPrivate_builds_signed_form (y : Yobit) (method : string)
  (args : list CallArg) (s : State) (v : Z)
  (Hm : mutex s = false) (Hio : io_ok s) (Hv : counter s = Some v) :
  (exists (req : Request) (pairs : list (string * string)),
      wire (final_state (callPrivate y method args s)) = wire s ++ [req]
      /\ pairs ≡ₚ ("method", method) :: ("nonce", strconv_FormatUint (wrap64 (v + 1)))
                   :: args_pairs args
      /\ StronglySorted by_name pairs
      /\ Body req = join_amp (render_pair <$> pairs)
      /\ forallb is_body_char (list_ascii_of_string (Body req)) = true
      /\ decode_form (Body req) = pairs
      /\ Method req = "POST" /\ URL req = apiTrade
      /\ Header req !! "Sign"
         = Some [signHmacSha512 (list_byte_of_string (Secret (credential y)))
                   (list_byte_of_string (Body req))]
      /\ signHmacSha512 (list_byte_of_string (Secret (credential y)))
           (list_byte_of_string (Body req))
         = hex_EncodeToString
             (HMAC_spec Sum512 BlockSize (list_byte_of_string (Secret (credential y)))
                (list_byte_of_string (Body req)))
      /\ Header req !! "Key" = Some [Key (credential y)]
      /\ Header req !! "Content-Type" = Some ["application/x-www-form-urlencoded"])
  /\ (exists req,
        wire (final_state (callPrivate example_yobit "Trade" awkward_args (state_with "1")))
        = [req]
        /\ Body req = "memo=a%26b%3Dc%2Fd~e%2Bf&method=Trade&nonce=2&pair=ltc+btc"
        /\ Header req !! "Sign"
           = Some ["e6d9daf9bc27636296d0f0219d7f9aae4300f229ace7a8a243407b7be6bed1314b811ef9906c1b8521297f63f4daf038b046816d4092614a54f8bb7f37c5c03d"]
        /\ Header req !! "Key" = Some ["zzz"]).
Proof.
  split.
  - exists (request_of y method (wrap64 (v + 1)) args),
           (Values_pairs (form_of method (wrap64 (v + 1)) args)).
    split; [apply callPrivate_sends; assumption|].
    split; [apply form_of_pairs|].
    split; [apply Values_pairs_sorted|].
    split; [apply Values_Encode_join|].
    split; [apply Values_Encode_body_chars|].
    split; [apply Values_Encode_decode|].
    split; [reflexivity|]. split; [reflexivity|].
    destruct (request_of_header y method (wrap64 (v + 1)) args) as (H1 & H2 & H3).
    split; [exact H1|]. split; [apply sign_spec|]. split; [exact H2|exact H3].
  - eexists. split; [vm_compute; reflexivity|].
    split; [reflexivity|]. split; [vm_compute; reflexivity|vm_compute; reflexivity].
Qed.

Lemma C7_witness :
  exists (req : Request) (pairs : list (string * string)),
    wire (final_state (callPrivate example_yobit "Trade" example_args (fresh_state no_server)))
    = [req]
    /\ pairs ≡ₚ ("method", "Trade") :: ("nonce", "2") :: args_pairs example_args
    /\ StronglySorted by_name pairs
    /\ Body req = join_amp (render_pair <$> pairs)
    /\ decode_form (Body req) = pairs
    /\ Method req = "POST" /\ URL req = apiTrade
    /\ Header req !! "Sign"
       = Some [hex_EncodeToString
                 (HMAC_spec Sum512 BlockSize (list_byte_of_string "abc")
                    (list_byte_of_string (Body req)))]
    /\ Header req !! "Key" = Some ["zzz"]
    /\ Header req !! "Content-Type" = Some ["application/x-www-form-urlencoded"].
Proof.
  destruct (C7_callPrivate_builds_signed_form example_yobit "Trade" example_args
              (fresh_state no_server) 1 eq_refl (io_ok_fresh no_server) eq_refl)
    as ((req & pairs & W & P & S & B & _ & D & M & U & Sg & Sp & K & C) & _).
  exists req, pairs. rewrite Sp in Sg.
  split; [exact W|]. split; [exact P|]. split; [exact S|]. split; [exact B|].
  split; [exact D|]. split; [exact M|]. split; [exact U|]. split; [exact Sg|].
  split; [exact K|exact C].
Defined.
